(** * WeatherToday: command parser, weather service and session cache

    A shallow embedding of [src/WeatherApp.ts] (both app variants),
    [src/WeatherService.ts], [src/types.ts] and [src/index.ts], and the
    properties of the specification proved over it.

    Modelling conventions.
    - A JavaScript string is the sequence of its UTF-16 code units
      ([JsString.string]).  White space and line terminators are those of
      ECMAScript.  [toLowerCase] and [toUpperCase] are computed on text of
      ASCII code units, where they change the letters A-Z / a-z and nothing
      else; on any other text they are what the Unicode tables of the host
      give, taken as they are ([JsString.Unicode]).
    - A JavaScript [number] is a rational ([Q]): every finite double is one.
      [Math.round] is then exactly [floor (x + 1/2)], and a division is the
      exact quotient rounded to the nearest double ([Double.div]).
    - A thrown exception is a value of [Thrown]; a function that may throw
      returns [Thrown + A].
    - The HTTP client, the clock and the location stream of the host are
      oracles gathered in records; every request sent is appended to a log,
      and what a handler shows or says is recorded as one effect per display
      routine of the app (the texts of the cards are not modelled).
    - Record fields keep the names of the TypeScript declarations; where two
      records share a field name, or a name is taken already, a prefix or
      suffix tells them apart ([wd_location], [weather_list], [geo_name]). *)

From Stdlib Require Import ZArith QArith Qround Qabs Lqa Lia Bool List.
From stdpp Require Import gmap.
Import ListNotations.

Local Open Scope list_scope.

(** ** Strings *)

Module JsString.

(** A UTF-16 code unit, by its value. *)
Definition code_unit : Type := N.

Inductive string : Type :=
| EmptyString
| String (c : code_unit) (s : string).

(** String literals stand for their ASCII code units; a literal with any
    other byte is refused. *)
Definition of_bytes (bytes : list Byte.byte) : option string :=
  fold_right
    (fun b acc =>
       match acc with
       | Some s => if (Byte.to_N b <? 128)%N then Some (String (Byte.to_N b) s) else None
       | None => None
       end)
    (Some EmptyString) bytes.

Fixpoint to_bytes (s : string) : option (list Byte.byte) :=
  match s with
  | EmptyString => Some []
  | String c s' =>
      match Byte.of_N c, to_bytes s' with
      | Some b, Some bs => if (c <? 128)%N then Some (b :: bs) else None
      | _, _ => None
      end
  end.

Declare Scope jsstring_scope.
Delimit Scope jsstring_scope with str.
Bind Scope jsstring_scope with string.
String Notation string of_bytes to_bytes : jsstring_scope.

(** [a + b]. *)
Fixpoint append (a b : string) : string :=
  match a with
  | EmptyString => b
  | String c a' => String c (append a' b)
  end.

Infix "++" := append (right associativity, at level 60) : jsstring_scope.

(** [s.length]. *)
Fixpoint length (s : string) : nat :=
  match s with
  | EmptyString => O
  | String _ s' => S (length s')
  end.

(** [a === b]. *)
Fixpoint eqb (a b : string) : bool :=
  match a, b with
  | EmptyString, EmptyString => true
  | String c a', String d b' => (c =? d)%N && eqb a' b'
  | _, _ => false
  end.

(** Strings are the keys of JavaScript maps and objects. *)
Fixpoint to_list (s : string) : list code_unit :=
  match s with
  | EmptyString => []
  | String c s' => c :: to_list s'
  end.

Fixpoint of_list (l : list code_unit) : string :=
  match l with
  | [] => EmptyString
  | c :: l' => String c (of_list l')
  end.

Fixpoint of_to_list (s : string) : of_list (to_list s) = s :=
  match s with
  | EmptyString => eq_refl
  | String c s' => f_equal (String c) (of_to_list s')
  end.

#[global] Instance string_eq_dec : EqDecision string.
Proof. solve_decision. Defined.

#[global] Instance string_countable : Countable string :=
  inj_countable' to_list of_list of_to_list.

Definition space : code_unit := 32%N.

(** *** Letter case *)

Definition is_upper (c : code_unit) : bool := ((65 <=? c) && (c <=? 90))%N.
Definition is_lower (c : code_unit) : bool := ((97 <=? c) && (c <=? 122))%N.

Definition lower_char (c : code_unit) : code_unit :=
  if is_upper c then (c + 32)%N else c.
Definition upper_char (c : code_unit) : code_unit :=
  if is_lower c then (c - 32)%N else c.

Definition is_ascii_unit (c : code_unit) : bool := (c <? 128)%N.

(** The text is made of ASCII code units only. *)
Fixpoint is_ascii (s : string) : bool :=
  match s with
  | EmptyString => true
  | String c s' => is_ascii_unit c && is_ascii s'
  end.

(** The case mappings of ASCII text: among the ASCII characters only the
    letters have another case, and no mapping there depends on what stands
    around a character. *)
Fixpoint ascii_lower (s : string) : string :=
  match s with
  | EmptyString => EmptyString
  | String c s' => String (lower_char c) (ascii_lower s')
  end.

Fixpoint ascii_upper (s : string) : string :=
  match s with
  | EmptyString => EmptyString
  | String c s' => String (upper_char c) (ascii_upper s')
  end.

(** The case mappings of the host for text that is not all ASCII: what
    [String.prototype.toLowerCase] and [toUpperCase] return there is
    decided by the Unicode tables the engine ships (a mapping may lengthen
    the text, as for the sharp s, or depend on the position in a word, as
    for the final sigma). *)
Class Unicode : Type := {
  unicode_lower : string -> string;
  unicode_upper : string -> string
}.

(** [s.toLowerCase()] and [s.toUpperCase()]. *)
Definition toLowerCase `{Unicode} (s : string) : string :=
  if is_ascii s then ascii_lower s else unicode_lower s.

Definition toUpperCase `{Unicode} (s : string) : string :=
  if is_ascii s then ascii_upper s else unicode_upper s.

(** *** White space *)

(** LineTerminator: LF, CR, LINE SEPARATOR and PARAGRAPH SEPARATOR, the
    code units the regular expression [.] refuses. *)
Definition is_line_terminator (c : code_unit) : bool :=
  ((c =? 10) || (c =? 13) || (c =? 8232) || (c =? 8233))%N.

(** WhiteSpace and LineTerminator, the code units stripped by [trim]: tab,
    VT, FF, the space separators of Unicode (space, no-break space, ogham
    space mark, en quad to hair space, narrow no-break space, medium
    mathematical space, ideographic space), the byte order mark, and the
    line terminators. *)
Definition is_whitespace (c : code_unit) : bool :=
  (((9 <=? c) && (c <=? 13)) || (c =? 32) || (c =? 160) || (c =? 5760)
   || ((8192 <=? c) && (c <=? 8202)) || (c =? 8232) || (c =? 8233)
   || (c =? 8239) || (c =? 8287) || (c =? 12288) || (c =? 65279))%N.

Fixpoint trimStart (s : string) : string :=
  match s with
  | EmptyString => EmptyString
  | String c s' => if is_whitespace c then trimStart s' else s
  end.

Fixpoint trimEnd (s : string) : string :=
  match s with
  | EmptyString => EmptyString
  | String c s' =>
      match trimEnd s' with
      | EmptyString => if is_whitespace c then EmptyString else String c EmptyString
      | r => String c r
      end
  end.

(** [s.trim()]. *)
Definition trim (s : string) : string := trimEnd (trimStart s).

(** [s.charAt(0)] and [s.slice(1)]. *)
Definition charAt0 (s : string) : string :=
  match s with
  | EmptyString => EmptyString
  | String c _ => String c EmptyString
  end.

Definition slice1 (s : string) : string :=
  match s with
  | EmptyString => EmptyString
  | String _ s' => s'
  end.

(** [s.split(' ')]: one field per separator, empty fields kept. *)
Fixpoint split_space (s : string) : list string :=
  match s with
  | EmptyString => [EmptyString]
  | String c s' =>
      if (c =? space)%N then EmptyString :: split_space s'
      else match split_space s' with
           | w :: ws => String c w :: ws
           | [] => [String c EmptyString]
           end
  end.

(** [l.join(' ')]. *)
Fixpoint join_space (l : list string) : string :=
  match l with
  | [] => EmptyString
  | [w] => w
  | w :: ws => w ++ String space (join_space ws)
  end.

(** A string is truthy when it is not empty. *)
Definition truthy (s : string) : bool :=
  match s with
  | EmptyString => false
  | String _ _ => true
  end.

(** The text up to the first line terminator: what a greedy [.+] can take. *)
Fixpoint line_of (s : string) : string :=
  match s with
  | EmptyString => EmptyString
  | String c s' =>
      if is_line_terminator c then EmptyString else String c (line_of s')
  end.

Fixpoint has_line_terminator (s : string) : bool :=
  match s with
  | EmptyString => false
  | String c s' => is_line_terminator c || has_line_terminator s'
  end.

(** [l.includes(s)]. *)
Definition includes (l : list string) (s : string) : bool :=
  existsb (eqb s) l.

End JsString.

Import JsString.
Local Open Scope jsstring_scope.
Local Open Scope list_scope.

(** ** JavaScript values *)

Definition number : Type := Q.
Bind Scope Q_scope with number.

(** What [throw] can carry.  [instanceof Error] holds of the first three. *)
Inductive Thrown : Type :=
| JsError (message : string)      (* new Error(message) *)
| TypeError (message : string)    (* raised by the runtime on undefined.prop *)
| AxiosError (message : string)   (* raised by axios.get: network or HTTP status *)
| NonError (value : string).      (* any thrown value that is not an Error *)

Definition instanceof_Error (e : Thrown) : bool :=
  match e with
  | JsError _ | TypeError _ | AxiosError _ => true
  | NonError _ => false
  end.

Definition result (A : Type) : Type := (Thrown + A)%type.
Definition Ok {A} (a : A) : result A := inr a.
Definition Throw {A} (e : Thrown) : result A := inl e.

(** ** Regular expressions

    The fragment of ECMAScript regular expressions the parser uses, all with
    the [i] flag: literal characters, an optional literal [c?], and the
    capturing group [(.+)].  Matching is the backtracking search of
    [RegExp.prototype.exec]: start positions from left to right, quantifiers
    greedy. *)

Module RegExp.
Import JsString.

Inductive atom : Type :=
| Lit (c : code_unit)       (* c   *)
| Opt (c : code_unit)       (* c?  *)
| Group.                (* (.+) *)

Definition regex := list atom.

(** The literal text [s] as a pattern. *)
Fixpoint lit (s : string) : regex :=
  match s with
  | EmptyString => []
  | String c s' => Lit c :: lit s'
  end.

(** Character comparison under the [i] flag (without the [u] flag): two
    code units match when they canonicalize to the same one.  The
    characters of the patterns are ASCII; an ASCII letter canonicalizes to
    its capital, and a code unit that is not ASCII never canonicalizes to an
    ASCII one, so a pattern character matches itself and, for a letter, its
    other case. *)
Definition eqb_ci (c a : code_unit) : bool :=
  (upper_char c =? upper_char a)%N.

(** Greedy [(.+)] followed by the continuation [k]: the longest run of
    characters other than line terminators after which [k] succeeds. *)
Fixpoint dot_plus {R : Type} (k : string -> option R) (s : string)
  : option (string * R) :=
  match s with
  | EmptyString => None
  | String a s' =>
      if is_line_terminator a then None
      else match dot_plus k s' with
           | Some (cap, r) => Some (String a cap, r)
           | None =>
               match k s' with
               | Some r => Some (String a EmptyString, r)
               | None => None
               end
           end
  end.

(** A match of [p] at the start of [s]; the result is group 1
    ([None] when the pattern has no group: [match[1]] is undefined). *)
Fixpoint match_here (p : regex) (s : string) : option (option string) :=
  match p with
  | [] => Some None
  | Lit c :: p' =>
      match s with
      | String a s' => if eqb_ci c a then match_here p' s' else None
      | EmptyString => None
      end
  | Opt c :: p' =>
      match s with
      | String a s' =>
          if eqb_ci c a then
            match match_here p' s' with
            | Some r => Some r
            | None => match_here p' s
            end
          else match_here p' s
      | EmptyString => match_here p' s
      end
  | Group :: p' =>
      match dot_plus (match_here p') s with
      | Some (cap, _) => Some (Some cap)
      | None => None
      end
  end.

(** [s.match(p)] for a pattern without the [g] flag: the first start
    position, from the left, at which the pattern matches. *)
Fixpoint exec (p : regex) (s : string) : option (option string) :=
  match match_here p s with
  | Some r => Some r
  | None =>
      match s with
      | EmptyString => None
      | String _ s' => exec p s'
      end
  end.

(** [p.test(s)]. *)
Definition test (p : regex) (s : string) : bool :=
  match exec p s with
  | Some _ => true
  | None => false
  end.

End RegExp.

(** ** types.ts *)

Inductive WeatherCommand : Type :=
| current | today | weather | forecast | temperature | conditions.

Record ParsedVoiceCommand : Type := {
  command : WeatherCommand;
  location : option string;
  isLocationSpecific : bool
}.

(** ** types.ts: weather records *)

Record WeatherData : Type := {
  wd_location : string;
  wd_temperature : number;
  wd_description : string;
  wd_humidity : number;
  wd_windSpeed : number;
  wd_windDirection : option number;
  wd_pressure : option number;
  wd_visibility : option number;
  wd_uvIndex : option number;
  wd_feelsLike : option number
}.

Record ApiMain : Type := {
  temp : number;
  feels_like : number;
  humidity : number;
  pressure : number
}.

Record ApiWeather : Type := {
  main_group : string;      (* weather[i].main *)
  description : string
}.

Record ApiWind : Type := {
  speed : number;
  deg : option number
}.

Record ApiSys : Type := { country : string }.

Record WeatherApiResponse : Type := {
  main : ApiMain;
  weather_list : list ApiWeather;     (* the field [weather] *)
  wind : ApiWind;
  visibility : option number;
  name : string;
  sys : ApiSys
}.

Record GeocodingResponse : Type := {
  geo_name : string;
  lat : number;
  lon : number;
  geo_country : string;
  geo_state : option string
}.

(** Modelled from the spec: the declaration of [LocationCoordinates] is not
    in the types.ts at hand; the fields are those the code reads and writes,
    "(latitude, longitude, accuracy)" in the data model. *)
Record LocationCoordinates : Type := {
  latitude : number;
  longitude : number;
  accuracy : number
}.

(** ** A state and exception monad

    [M S A] is a computation over a state [S] that returns an [A] or throws;
    the state reached is kept in both cases, as effects made before a
    [throw] are not undone. *)

Definition M (S A : Type) : Type := S -> result A * S.

Definition ret {S A} (a : A) : M S A := fun s => (Ok a, s).
Definition throw {S A} (e : Thrown) : M S A := fun s => (Throw e, s).

Definition bind {S A B} (m : M S A) (f : A -> M S B) : M S B :=
  fun s =>
    match m s with
    | (inr a, s') => f a s'
    | (inl e, s') => (inl e, s')
    end.

(** [try { m } catch (error) { handler error }]. *)
Definition try_catch {S A} (m : M S A) (handler : Thrown -> M S A) : M S A :=
  fun s =>
    match m s with
    | (inr a, s') => (inr a, s')
    | (inl e, s') => handler e s'
    end.

Definition lift_result {S A} (r : result A) : M S A := fun s => (r, s).
Definition modify {S} (f : S -> S) : M S unit := fun s => (Ok tt, f s).

Declare Scope js_scope.
Delimit Scope js_scope with js.
Notation "'let*' x ':=' m 'in' k" := (bind m (fun x => k))
  (at level 10, x name, m at level 100, k at level 200) : js_scope.
Notation "'do' m 'then' k" := (bind m (fun _ => k))
  (at level 10, m at level 100, k at level 200) : js_scope.

(** ** Double-precision arithmetic

    The one operation of the code that is not exact on doubles is the
    division [data.visibility / 1000]. *)

Module Double.

(** [2^e]. *)
Definition pow2 (e : Z) : Q :=
  match e with
  | Z0 => 1
  | Zpos p => inject_Z (Z.pow_pos 2 p)
  | Zneg p => 1 # (Pos.pow 2 p)
  end.

(** [floor (log2 q)], for [q > 0]. *)
Definition ilog2 (q : Q) : Z :=
  if Qle_bool 1 q then Z.log2 (Qfloor q) else (- Z.log2_up (Qceiling (/ q)))%Z.

(** The integer nearest to [q], the even one of two. *)
Definition round_half_even (q : Q) : Z :=
  let f := Qfloor q in
  match (q - inject_Z f ?= 1 # 2)%Q with
  | Lt => f
  | Gt => (f + 1)%Z
  | Eq => if Z.even f then f else (f + 1)%Z
  end.

(** The double nearest to [q > 0]: a significand of 53 bits, exponents down
    to that of the subnormal numbers, ties to even.  (The largest double sets
    no limit here: the code only divides a double by 1000.) *)
Definition nearest (q : Q) : Q :=
  let e := Z.max (ilog2 q - 52) (-1074) in
  (inject_Z (round_half_even (q / pow2 e)) * pow2 e)%Q.

Definition to_double (q : Q) : Q :=
  match (q ?= 0)%Q with
  | Eq => 0%Q
  | Gt => nearest q
  | Lt => (- nearest (- q))%Q
  end.

(** [x / y] on doubles: the exact quotient, rounded to the nearest double. *)
Definition div (x y : number) : number := to_double (x / y).

End Double.

(** ** WeatherService.ts *)

Module Http.

(** The two requests the service sends with [axios.get]. *)
Inductive Request : Type :=
| GeoDirect (q : string) (limit : Z) (appid : string)
| GetWeather (lat lon : number) (appid units : string).

(** The remote side: what each request answers, or the error axios throws. *)
Record Client : Type := {
  geo_direct : string -> Z -> string -> result (list GeocodingResponse);
  get_weather : number -> number -> string -> string -> result WeatherApiResponse
}.

Definition Log : Type := list Request.

End Http.

Module WeatherService.
Import JsString Http.
Local Open Scope js_scope.

Definition dquote : string := String 34%N EmptyString.

(** [Math.round]: the nearest integer, ties toward plus infinity. *)
Definition Math_round (x : number) : number :=
  inject_Z (Qfloor (x + (1 # 2))).

(** A number is truthy when it is not zero. *)
Definition truthy_number (x : number) : bool := negb (Qeq_bool x 0).

Section Transform.
Context {unicode : Unicode}.

Definition capitalizeWord (word : string) : string :=
  toUpperCase (charAt0 word) ++ slice1 word.

Definition capitalizeDescription (description : string) : string :=
  join_space (map capitalizeWord (split_space description)).

Definition undefined_description : Thrown :=
  TypeError "Cannot read properties of undefined (reading 'description')".

(** [data.weather[0].description]: reading a property of [undefined]
    throws when the array is empty. *)
Definition weather0_description (data : WeatherApiResponse) : result string :=
  match nth_error (weather_list data) 0 with
  | Some w => Ok (description w)
  | None => Throw undefined_description
  end.

Definition transformWeatherData (data : WeatherApiResponse) : result WeatherData :=
  match weather0_description data with
  | inl e => Throw e
  | inr d =>
      Ok {| wd_location := name data ++ ", " ++ country (sys data);
            wd_temperature := Math_round (temp (main data));
            wd_description := capitalizeDescription d;
            wd_humidity := humidity (main data);
            wd_windSpeed := Math_round (speed (wind data));
            wd_windDirection := deg (wind data);
            wd_pressure := Some (pressure (main data));
            wd_visibility :=
              match visibility data with
              | Some v =>
                  if truthy_number v then Some (Math_round (Double.div v 1000)) else None
              | None => None
              end;
            wd_uvIndex := None;
            wd_feelsLike := Some (Math_round (feels_like (main data))) |}
  end.

End Transform.

Record Service : Type := { apiKey : string; client : Client }.

Definition axios_get_geo (svc : Service) (q : string) (limit : Z)
  : M Log (list GeocodingResponse) :=
  fun log => (geo_direct (client svc) q limit (apiKey svc),
              log ++ [GeoDirect q limit (apiKey svc)]).

Definition axios_get_weather (svc : Service) (lat lon : number) (units : string)
  : M Log WeatherApiResponse :=
  fun log => (get_weather (client svc) lat lon (apiKey svc) units,
              log ++ [GetWeather lat lon (apiKey svc) units]).

Definition fetch_failed : Thrown := JsError "Failed to fetch weather data".

Definition city_not_found (cityName : string) : Thrown :=
  JsError ("City " ++ dquote ++ cityName ++ dquote ++ " not found").

(** The [catch] blocks also write the error to the console, which is not
    modelled. *)
Definition getWeatherByCoordinates `{Unicode} (svc : Service)
           (coordinates : LocationCoordinates) : M Log WeatherData :=
  try_catch
    (let* response :=
       axios_get_weather svc (latitude coordinates) (longitude coordinates) "imperial" in
     lift_result (transformWeatherData response))
    (fun error => throw fetch_failed).

(** The first branch is [geoResponse.data.length === 0], the second takes
    [lat] and [lon] of [geoResponse.data[0]]. *)
Definition getWeatherByCity `{Unicode} (svc : Service) (cityName : string)
  : M Log WeatherData :=
  try_catch
    (let* geoResponse := axios_get_geo svc cityName 1 in
     match geoResponse with
     | [] => throw (city_not_found cityName)
     | first :: _ =>
         let* weatherResponse :=
           axios_get_weather svc (lat first) (lon first) "imperial" in
         lift_result (transformWeatherData weatherResponse)
     end)
    (fun error =>
       if instanceof_Error error then throw error else throw fetch_failed).

End WeatherService.

(** ** WeatherApp.ts: the command parser *)

Module Parser.
Import JsString RegExp.

Definition apostrophe : code_unit := 39%N.

(** [/what'?s the weather/i] and the like. *)
Definition whats_the_weather : regex :=
  lit "what" ++ [Opt apostrophe] ++ lit "s the weather".
Definition hows_the_weather : regex :=
  lit "how" ++ [Opt apostrophe] ++ lit "s the weather".
Definition todays_weather : regex :=
  lit "today" ++ [Opt apostrophe] ++ lit "s weather".

Definition weatherPatterns : list regex :=
  [ whats_the_weather;
    lit "current weather";
    lit "weather conditions";
    hows_the_weather;
    lit "weather today";
    todays_weather ].

Definition weather_in : regex := lit "weather in " ++ [Group].
Definition x_weather : regex := Group :: lit " weather".
Definition whats_the_weather_in : regex := whats_the_weather ++ lit " in " ++ [Group].
Definition hows_the_weather_in : regex := hows_the_weather ++ lit " in " ++ [Group].
Definition weather_for : regex := lit "weather for " ++ [Group].
Definition tell_me_the_weather_in : regex := lit "tell me the weather in " ++ [Group].

Definition genericTerms : list string :=
  ["here"; "there"; "this place"; "my location"; "current location"].

Section Locations.
Context {unicode : Unicode}.

Definition isGenericLocation (location : string) : bool :=
  includes genericTerms (toLowerCase location).

(** One turn of the [for] loop over the location patterns: [Some location]
    when the body returns, [None] when the loop goes on. *)
Definition try_pattern (pattern : regex) (lowerText : string) : option string :=
  match exec pattern lowerText with
  | Some (Some m1) =>
      if truthy m1 then
        let location := trim m1 in
        if negb (isGenericLocation location) then Some location else None
      else None
  | _ => None
  end.

Fixpoint first_location (patterns : list regex) (lowerText : string) : option string :=
  match patterns with
  | [] => None
  | pattern :: rest =>
      match try_pattern pattern lowerText with
      | Some location => Some location
      | None => first_location rest lowerText
      end
  end.

End Locations.

Definition city_command (location : string) : ParsedVoiceCommand :=
  {| command := weather; location := Some location; isLocationSpecific := true |}.

Definition current_command : ParsedVoiceCommand :=
  {| command := current; location := None; isLocationSpecific := false |}.

End Parser.

(** The app variant with the current-location fallback. *)
Module WeatherApp1.
Import JsString RegExp Parser.

Definition locationPatterns : list regex :=
  [ weather_in; x_weather; whats_the_weather_in; hows_the_weather_in ].

Definition parseVoiceCommand `{Unicode} (text : string) : result ParsedVoiceCommand :=
  let lowerText := trim (toLowerCase text) in
  match first_location locationPatterns lowerText with
  | Some location => Ok (city_command location)
  | None =>
      if existsb (fun pattern => test pattern lowerText) weatherPatterns
      then Ok current_command
      else Throw (JsError "Unrecognized weather command")
  end.

(** *** Session state and handlers *)

Inductive Units : Type := metric | imperial.

(** Modelled from the spec: the [SessionState] of this variant, whose
    declaration (with the field [lastLocation]) is not in the types.ts at
    hand: "lastLocationCoordinates: optional", "lastWeatherRecord:
    optional", "lastUpdateTimestamp: optional instant".  Instants are the
    integers [Date.now()] returns (milliseconds). *)
Record SessionState : Type := {
  lastLocation : option LocationCoordinates;
  lastWeatherData : option WeatherData;
  lastUpdateTime : option Z;
  preferredUnits : Units
}.

(** What the location stream hands to its callback. *)
Record LocationData : Type := {
  ld_lat : number;
  ld_lng : number;
  ld_accuracy : number
}.

(** What a handler does to the outside, in order.  The glasses' sinks are
    write-only: one effect stands for each of the app's display routines. *)
Inductive Effect : Type :=
| WelcomeScreen                      (* showWelcomeScreen *)
| DashboardTitle                     (* writeToMain(app title) *)
| DashboardGettingWeather            (* writeToMain('Getting weather...') *)
| DisplayWeather (w : WeatherData)   (* displayWeatherData *)
| ErrorScreen (message : string)     (* showError *)
| SubscribeLocation                  (* session.location.subscribeToStream *)
| Request (r : Http.Request).        (* a request sent by the weather service *)

(** The host, as one command meets it: what the location stream delivers
    to the subscription of the command, and the successive readings of
    [Date.now()].  Two behaviours of the stream are modelled: it stays
    silent and never delivers anything ([None]), or it delivers one update
    whose weather request is answered before the 10 s timer fires, and
    nothing after it ([Some update]).  A stream that delivers an update once
    the timer has fired, or several updates, is not modelled: the
    subscription is never cancelled, so in the code each further update
    sends one more weather request and writes the last location once more,
    whatever the command has shown by then. *)
Record Host : Type := {
  location_update : option LocationData;
  clock : nat -> Z
}.

Record App : Type := {
  sessionStates : gmap string SessionState;
  effects : list Effect;
  clock_reads : nat
}.

Definition message_of (e : Thrown) : string :=
  match e with
  | JsError m | TypeError m | AxiosError m => m
  | NonError _ => EmptyString
  end.

Section Handlers.
Context {unicode : Unicode}.
Variable weatherService : WeatherService.Service.
Variable host : Host.
Local Open Scope js_scope.

Definition emit (e : Effect) : M App unit :=
  modify (fun app =>
    {| sessionStates := sessionStates app;
       effects := effects app ++ [e];
       clock_reads := clock_reads app |}).

Definition Date_now : M App Z :=
  fun app =>
    (Ok (clock host (clock_reads app)),
     {| sessionStates := sessionStates app;
        effects := effects app;
        clock_reads := S (clock_reads app) |}).

(** A call into the weather service; its requests join the effects. *)
Definition call_service {A} (m : M Http.Log A) : M App A :=
  fun app =>
    let '(r, log) := m [] in
    (r, {| sessionStates := sessionStates app;
           effects := effects app ++ map Request log;
           clock_reads := clock_reads app |}).

(** [this.sessionStates.get(sessionId)]. *)
Definition get_session (sessionId : string) : M App (option SessionState) :=
  fun app => (Ok (sessionStates app !! sessionId), app).

(** [if (sessionState) { sessionState.f = ... }]: the object held by the
    map is updated in place, nothing happens without one. *)
Definition update_session (sessionId : string) (f : SessionState -> SessionState)
  : M App unit :=
  modify (fun app =>
    {| sessionStates := alter f sessionId (sessionStates app);
       effects := effects app;
       clock_reads := clock_reads app |}).

Definition showWelcomeScreen : M App unit := emit WelcomeScreen.
Definition displayWeatherData (w : WeatherData) : M App unit := emit (DisplayWeather w).
Definition showError (message : string) : M App unit := emit (ErrorScreen message).

Definition onSession (sessionId : string) : M App unit :=
  do modify (fun app =>
       {| sessionStates :=
            <[sessionId :=
                {| lastLocation := None; lastWeatherData := None;
                   lastUpdateTime := None; preferredUnits := imperial |}]>
              (sessionStates app);
          effects := effects app;
          clock_reads := clock_reads app |}) then
  do showWelcomeScreen then
  emit DashboardTitle.

Definition onStop (sessionId : string) : M App unit :=
  modify (fun app =>
    {| sessionStates := delete sessionId (sessionStates app);
       effects := effects app;
       clock_reads := clock_reads app |}).

Definition location_timeout : Thrown :=
  JsError "Location request timed out. Please try again or specify a city name.".

(** The promise is settled by the callback of the subscription when the
    stream delivers its update, and by the timer when the stream is silent. *)
Definition getCurrentLocationWeather (sessionId : string) : M App WeatherData :=
  do emit SubscribeLocation then
  match location_update host with
  | Some locationData =>
      let coordinates :=
        {| latitude := ld_lat locationData;
           longitude := ld_lng locationData;
           accuracy := ld_accuracy locationData |} in
      let* weatherData :=
        call_service (WeatherService.getWeatherByCoordinates weatherService coordinates) in
      do update_session sessionId (fun st =>
           {| lastLocation := Some coordinates;
              lastWeatherData := lastWeatherData st;
              lastUpdateTime := lastUpdateTime st;
              preferredUnits := preferredUnits st |}) then
      ret weatherData
  | None => throw location_timeout
  end.

(** [command.isLocationSpecific && command.location]. *)
Definition city_of (command : ParsedVoiceCommand) : option string :=
  if isLocationSpecific command then
    match location command with
    | Some l => if truthy l then Some l else None
    | None => None
    end
  else None.

Definition handleWeatherCommand (sessionId : string) (command : ParsedVoiceCommand)
  : M App unit :=
  do emit DashboardGettingWeather then
  try_catch
    (let* weatherData :=
       match city_of command with
       | Some city => call_service (WeatherService.getWeatherByCity weatherService city)
       | None => getCurrentLocationWeather sessionId
       end in
     do displayWeatherData weatherData then
     let* sessionState := get_session sessionId in
     match sessionState with
     | Some _ =>
         let* t := Date_now in
         update_session sessionId (fun st =>
           {| lastLocation := lastLocation st;
              lastWeatherData := Some weatherData;
              lastUpdateTime := Some t;
              preferredUnits := preferredUnits st |})
     | None => ret tt
     end)
    (fun error =>
       showError (if instanceof_Error error then message_of error
                  else "Failed to get weather data")).

Definition fiveMinutes : Z := 5 * 60 * 1000.

(** [sessionState.lastUpdateTime || 0]. *)
Definition lastUpdate_or_0 (st : SessionState) : Z :=
  match lastUpdateTime st with
  | Some t => t
  | None => 0
  end.

Definition getCurrentWeather (sessionId : string) : M App unit :=
  let fresh := handleWeatherCommand sessionId current_command in
  let* sessionState := get_session sessionId in
  match sessionState with
  | Some st =>
      match lastLocation st with
      | Some _ =>
          let* now := Date_now in
          let lastUpdate := lastUpdate_or_0 st in
          if (now - lastUpdate <? fiveMinutes)%Z then
            match lastWeatherData st with
            | Some w => displayWeatherData w
            | None => fresh
            end
          else fresh
      | None => fresh
      end
  | None => fresh
  end.

Definition not_understood : string :=
  "Sorry, I didn't understand that. Try saying " ++ WeatherService.dquote
  ++ "what's the weather" ++ WeatherService.dquote ++ " or "
  ++ WeatherService.dquote ++ "weather in [city name]" ++ WeatherService.dquote ++ ".".

(** The transcription handler. *)
Definition onTranscription (sessionId text : string) (isFinal : bool) : M App unit :=
  if negb isFinal then ret tt
  else
    try_catch
      (let* command := lift_result (parseVoiceCommand text) in
       handleWeatherCommand sessionId command)
      (fun error => showError not_understood).

Inductive Button : Type := select | back | other_button.

(** The button handler, for [data.action === 'press']. *)
Definition onButtonPress (sessionId : string) (button : Button) (press : bool)
  : M App unit :=
  if press then
    match button with
    | select => getCurrentWeather sessionId
    | back => showWelcomeScreen
    | other_button => ret tt
    end
  else ret tt.

End Handlers.

End WeatherApp1.


(** The app variant that requires a city. *)
Module WeatherApp2.
Import JsString RegExp Parser.

Definition locationPatterns : list regex :=
  [ weather_in; x_weather; whats_the_weather_in; hows_the_weather_in;
    weather_for; tell_me_the_weather_in ].

Definition parseVoiceCommand `{Unicode} (text : string) : result ParsedVoiceCommand :=
  let lowerText := trim (toLowerCase text) in
  match first_location locationPatterns lowerText with
  | Some location => Ok (city_command location)
  | None => Throw (JsError "Please specify a city name")
  end.

End WeatherApp2.

(** ** Reference formulations and sample data *)

Module Samples.
Import JsString Http WeatherService.

(** The description with every character that starts a word upper-cased:
    a word starts at the beginning of the text and after each space.  The
    upper-case form of a character is [toUpperCase] of the text made of it
    alone, as [charAt(0).toUpperCase()] computes it. *)
Fixpoint capitalize_scan `{Unicode} (word_start : bool) (s : string) : string :=
  match s with
  | EmptyString => EmptyString
  | String c s' =>
      (if word_start then toUpperCase (String c EmptyString) else String c EmptyString)
      ++ capitalize_scan ((c =? space)%N) s'
  end.

(** Case tables that know the ASCII letters only: a host to run the
    examples on, all of which are ASCII text. *)
Definition ascii_tables : Unicode :=
  {| unicode_lower := ascii_lower; unicode_upper := ascii_upper |}.

(** Kilometres by integer division of the metres. *)
Definition whole_km (metres : number) : number :=
  inject_Z (Qfloor (metres / 1000)).

(** The weather payload of the end-to-end example. *)
Definition tokyo_payload : WeatherApiResponse :=
  {| main := {| temp := 724 # 10; feels_like := 701 # 10;
                humidity := 55; pressure := 1012 |};
     weather_list := [ {| main_group := "Clear"; description := "clear sky" |} ];
     wind := {| speed := 52 # 10; deg := None |};
     visibility := None;
     name := "Tokyo";
     sys := {| country := "JP" |} |}.

Definition tokyo_record : WeatherData :=
  {| wd_location := "Tokyo, JP";
     wd_temperature := 72;
     wd_description := "Clear Sky";
     wd_humidity := 55;
     wd_windSpeed := 5;
     wd_windDirection := None;
     wd_pressure := Some 1012%Q;
     wd_visibility := None;
     wd_uvIndex := None;
     wd_feelsLike := Some 70%Q |}.

Definition with_visibility (v : option number) (data : WeatherApiResponse)
  : WeatherApiResponse :=
  {| main := main data; weather_list := weather_list data; wind := wind data;
     visibility := v; name := name data; sys := sys data |}.

Definition with_weather (ws : list ApiWeather) (data : WeatherApiResponse)
  : WeatherApiResponse :=
  {| main := main data; weather_list := ws; wind := wind data;
     visibility := visibility data; name := name data; sys := sys data |}.

Definition tokyo_geo : GeocodingResponse :=
  {| geo_name := "Tokyo"; lat := 3568 # 100; lon := 13969 # 100;
     geo_country := "JP"; geo_state := None |}.

(** A remote side that knows Tokyo only. *)
Definition tokyo_client : Client :=
  {| geo_direct := fun q _ _ =>
       if eqb q "tokyo" then Ok [tokyo_geo] else Ok [];
     get_weather := fun _ _ _ _ => Ok tokyo_payload |}.

(** A remote side that cannot be reached. *)
Definition unreachable_client : Client :=
  {| geo_direct := fun _ _ _ => Throw (AxiosError "Network Error");
     get_weather := fun _ _ _ _ => Throw (AxiosError "Network Error") |}.

(** Geocoding answers, the weather endpoint refuses the key. *)
Definition unauthorized_client : Client :=
  {| geo_direct := fun _ _ _ => Ok [tokyo_geo];
     get_weather := fun _ _ _ _ =>
       Throw (AxiosError "Request failed with status code 401") |}.

Definition service_of (c : Client) : Service := {| apiKey := "key"; client := c |}.

Definition somewhere : LocationCoordinates :=
  {| latitude := 3568 # 100; longitude := 13969 # 100; accuracy := 10 |}.

End Samples.

Module SessionSamples.
Import WeatherApp1 Samples.

(** The freshness rule in the specification's words: the session has a
    last location, the last weather record [w] and a last update less than
    five minutes before [now]. *)
Definition cache_usable (st : option SessionState) (now : Z) (w : WeatherData) : Prop :=
  exists (s : SessionState) (coordinates : LocationCoordinates) (t : Z),
    st = Some s /\
    lastLocation s = Some coordinates /\
    lastWeatherData s = Some w /\
    lastUpdateTime s = Some t /\
    (now - t < 5 * 60 * 1000)%Z.

(** A session record is stamped when its weather record comes with the time
    of its update. *)
Definition stamped (s : SessionState) : Prop :=
  lastWeatherData s <> None -> lastUpdateTime s <> None.

(** The sessions of the app are all stamped: the handlers write the weather
    record and the time together, so this holds of every state they reach. *)
Definition timestamped (app : App) : Prop :=
  forall (sessionId : string) (s : SessionState),
    sessionStates app !! sessionId = Some s -> stamped s.

(** A computation that keeps the sessions stamped. *)
Definition keeps {A : Type} (m : M App A) : Prop :=
  forall app : App, timestamped app -> timestamped (snd (m app)).

Definition no_sessions : App :=
  {| sessionStates := ∅; effects := []; clock_reads := 0 |}.

(** The state a handler leaves when all it did was display [w] after one
    reading of the clock. *)
Definition served_from_cache (app : App) (w : WeatherData) : App :=
  {| sessionStates := sessionStates app;
     effects := effects app ++ [DisplayWeather w];
     clock_reads := S (clock_reads app) |}.

(** The effects a handler added to those of [app]. *)
Definition added_effects (app app' : App) (added : list Effect) : Prop :=
  effects app' = effects app ++ added.

Definition noon : Z := 1700000000000.

Definition steady_host : Host :=
  {| location_update :=
       Some {| ld_lat := 3568 # 100; ld_lng := 13969 # 100; ld_accuracy := 10 |};
     clock := fun n => (noon + Z.of_nat n)%Z |}.

Definition session_updated_at (t : Z) : SessionState :=
  {| lastLocation := Some somewhere;
     lastWeatherData := Some tokyo_record;
     lastUpdateTime := Some t;
     preferredUnits := imperial |}.

Definition app_updated_at (t : Z) : App :=
  {| sessionStates := {[ "session-1" := session_updated_at t ]};
     effects := [];
     clock_reads := 0 |}.

Definition four_minutes : Z := 4 * 60 * 1000.
Definition six_minutes : Z := 6 * 60 * 1000.

End SessionSamples.

(** ** Further reference formulations *)

Module Chars.
Import JsString.

(** Every character of the text satisfies [P]. *)
Fixpoint all_chars (P : code_unit -> bool) (s : string) : bool :=
  match s with
  | EmptyString => true
  | String c s' => P c && all_chars P s'
  end.

(** A character that [toLowerCase] leaves alone. *)
Definition is_lower_cased (c : code_unit) : bool := (lower_char c =? c)%N.

(** The capitalised form of ASCII text, character by character. *)
Fixpoint capitalize_ascii (word_start : bool) (s : string) : string :=
  match s with
  | EmptyString => EmptyString
  | String c s' =>
      String (if word_start then upper_char c else c)
             (capitalize_ascii ((c =? space)%N) s')
  end.

End Chars.

Module Numbers.

(** A number with no fractional part. *)
Definition is_whole (x : number) : Prop := exists z : Z, x = inject_Z z.

(** [r] is the whole number nearest to [x], the upper one of two. *)
Definition near (r x : number) : Prop := (r - (1 # 2) <= x /\ x < r + (1 # 2))%Q.

End Numbers.

Module Sessions.
Import WeatherApp1 WeatherService.

(** The two updates the handlers make to a session record. *)
Definition record_location (coordinates : LocationCoordinates) (st : SessionState)
  : SessionState :=
  {| lastLocation := Some coordinates;
     lastWeatherData := lastWeatherData st;
     lastUpdateTime := lastUpdateTime st;
     preferredUnits := preferredUnits st |}.

Definition record_weather (w : WeatherData) (t : Z) (st : SessionState) : SessionState :=
  {| lastLocation := lastLocation st;
     lastWeatherData := Some w;
     lastUpdateTime := Some t;
     preferredUnits := preferredUnits st |}.

Definition coordinates_of (locationData : LocationData) : LocationCoordinates :=
  {| latitude := ld_lat locationData;
     longitude := ld_lng locationData;
     accuracy := ld_accuracy locationData |}.

(** The app with other effects, its sessions and clock as they were. *)
Definition with_effects (app : App) (es : list Effect) : App :=
  {| sessionStates := sessionStates app; effects := es; clock_reads := clock_reads app |}.

(** The fetch that [handleWeatherCommand] makes for a command. *)
Definition fetch_for `{Unicode} (svc : Service) (host : Host) (sessionId : string)
           (command : ParsedVoiceCommand) : M App WeatherData :=
  match city_of command with
  | Some city => call_service (getWeatherByCity svc city)
  | None => getCurrentLocationWeather svc host sessionId
  end.

(** [m] relates every state to the state it leaves, by [R]. *)
Definition stepwise (R : App -> App -> Prop) {A : Type} (m : M App A) : Prop :=
  forall app : App, R app (snd (m app)).

(** Only the session [sessionId] may differ between the two states. *)
Definition others_kept (sessionId : string) (app app' : App) : Prop :=
  forall other : string,
    other <> sessionId -> sessionStates app' !! other = sessionStates app !! other.

(** The same sessions exist in both states. *)
Definition same_sessions (app app' : App) : Prop :=
  dom (sessionStates app') = dom (sessionStates app).

(** Every session that had a last location still has one. *)
Definition locations_kept (app app' : App) : Prop :=
  forall (sessionId : string) (s : SessionState),
    sessionStates app !! sessionId = Some s -> lastLocation s <> None ->
    exists s' : SessionState,
      sessionStates app' !! sessionId = Some s' /\ lastLocation s' <> None.

(** A computation that returns, whatever the state. *)
Definition never_throws (m : M App unit) : Prop :=
  forall app : App, fst (m app) = Ok tt.

End Sessions.

(** ** WeatherApp.ts, the variant that requires a city: session handlers *)

Module WeatherApp2Handlers.
Import JsString WeatherApp1.
Local Open Scope js_scope.

(** [SessionState] as types.ts declares it. *)
Record SessionState : Type := {
  lastWeatherData : option WeatherData;
  lastUpdateTime : option Z;
  preferredUnits : Units
}.

(** The effects are those of the other variant; the host gives the clock. *)
Record App : Type := {
  sessionStates : gmap string SessionState;
  effects : list Effect;
  clock_reads : nat
}.

Section Handlers.
Context {unicode : Unicode}.
Variable weatherService : WeatherService.Service.
Variable clock : nat -> Z.

Definition emit (e : Effect) : M App unit :=
  modify (fun app =>
    {| sessionStates := sessionStates app;
       effects := effects app ++ [e];
       clock_reads := clock_reads app |}).

Definition Date_now : M App Z :=
  fun app =>
    (Ok (clock (clock_reads app)),
     {| sessionStates := sessionStates app;
        effects := effects app;
        clock_reads := S (clock_reads app) |}).

Definition call_service {A} (m : M Http.Log A) : M App A :=
  fun app =>
    let '(r, log) := m [] in
    (r, {| sessionStates := sessionStates app;
           effects := effects app ++ map Request log;
           clock_reads := clock_reads app |}).

Definition get_session (sessionId : string) : M App (option SessionState) :=
  fun app => (Ok (sessionStates app !! sessionId), app).

Definition update_session (sessionId : string) (f : SessionState -> SessionState)
  : M App unit :=
  modify (fun app =>
    {| sessionStates := alter f sessionId (sessionStates app);
       effects := effects app;
       clock_reads := clock_reads app |}).

Definition showWelcomeScreen : M App unit := emit WelcomeScreen.
Definition displayWeatherData (w : WeatherData) : M App unit := emit (DisplayWeather w).
Definition showError (message : string) : M App unit := emit (ErrorScreen message).

Definition onSession (sessionId : string) : M App unit :=
  do modify (fun app =>
       {| sessionStates :=
            <[sessionId :=
                {| lastWeatherData := None; lastUpdateTime := None;
                   preferredUnits := imperial |}]>
              (sessionStates app);
          effects := effects app;
          clock_reads := clock_reads app |}) then
  do showWelcomeScreen then
  emit DashboardTitle.

Definition onStop (sessionId : string) : M App unit :=
  modify (fun app =>
    {| sessionStates := delete sessionId (sessionStates app);
       effects := effects app;
       clock_reads := clock_reads app |}).

Definition city_required : Thrown := JsError "Please specify a city name".

(** The guard [!command.isLocationSpecific || !command.location] lets
    through what [city_of] accepts. *)
Definition handleWeatherCommand (sessionId : string) (command : ParsedVoiceCommand)
  : M App unit :=
  do emit DashboardGettingWeather then
  try_catch
    (match city_of command with
     | None => throw city_required
     | Some city =>
         let* weatherData :=
           call_service (WeatherService.getWeatherByCity weatherService city) in
         do displayWeatherData weatherData then
         let* sessionState := get_session sessionId in
         match sessionState with
         | Some _ =>
             let* t := Date_now in
             update_session sessionId (fun st =>
               {| lastWeatherData := Some weatherData;
                  lastUpdateTime := Some t;
                  preferredUnits := preferredUnits st |})
         | None => ret tt
         end
     end)
    (fun error =>
       showError (if instanceof_Error error then message_of error
                  else "Failed to get weather data")).

Definition need_city : string :=
  "Sorry, I need a city name. Try saying " ++ WeatherService.dquote
  ++ "weather in [city name]" ++ WeatherService.dquote ++ " like "
  ++ WeatherService.dquote ++ "weather in New York" ++ WeatherService.dquote ++ ".".

Definition onTranscription (sessionId text : string) (isFinal : bool) : M App unit :=
  if negb isFinal then ret tt
  else
    try_catch
      (let* command := lift_result (WeatherApp2.parseVoiceCommand text) in
       handleWeatherCommand sessionId command)
      (fun error => showError need_city).

(** The button handler: only the back button does anything. *)
Definition onButtonPress (sessionId : string) (button : Button) (press : bool)
  : M App unit :=
  if press then
    match button with
    | back => showWelcomeScreen
    | _ => ret tt
    end
  else ret tt.

End Handlers.

End WeatherApp2Handlers.

(** ** index.ts: start-up *)

Module Index.
Import JsString.

Definition requiredEnvVars : list string :=
  ["MENTRAOS_API_KEY"; "MENTRAOS_PACKAGE_NAME"; "OPENWEATHER_API_KEY"].

(** [process.env[varName]] as a condition: set, and not the empty string. *)
Definition env_truthy (env : gmap string string) (varName : string) : bool :=
  match env !! varName with
  | Some v => truthy v
  | None => false
  end.

Definition missingEnvVars (env : gmap string string) : list string :=
  List.filter (fun varName => negb (env_truthy env varName)) requiredEnvVars.

(** [process.env[varName]!]: the value, asserted to be there. *)
Definition env_value (env : gmap string string) (varName : string) : string :=
  match env !! varName with
  | Some v => v
  | None => EmptyString
  end.

(** [process.env.PORT || '3000'], the text handed to [parseInt]. *)
Definition port_text (env : gmap string string) : string :=
  if env_truthy env "PORT" then env_value env "PORT" else "3000".

(** The configuration of the app; the port is kept as the text that
    [parseInt(_, 10)] reads. *)
Record Config : Type := {
  packageName : string;
  cfg_apiKey : string;
  weatherApiKey : string;
  port : string
}.

Inductive ConsoleLine : Type :=
| MissingHeader                      (* 'Missing required environment variables:' *)
| MissingVariable (varName : string) (* '   - <varName>' *)
| CheckEnvFile                       (* 'Please check your .env file ...' *)
| Starting                           (* 'Starting WeatherToday! app...' *)
| PackageLine (packageName : string)
| PortLine (port : string)
| RunningLine                        (* 'WeatherToday! is running successfully!' *)
| UsersCanAsk
| FailedToStart.                     (* 'Failed to start WeatherToday! app:' *)

Inductive Outcome : Type :=
| Exit (code : Z)                    (* process.exit(code) *)
| Running (config : Config).         (* app.start() returned *)

(** [process.env.PORT || 3000], as it is printed. *)
Definition port_shown (env : gmap string string) : string := port_text env.

(** [main], with [start] standing for [app.start()] of the host library;
    the constructor of the app is taken to return. *)
Definition main (env : gmap string string) (start : Config -> result unit)
  : list ConsoleLine * Outcome :=
  match missingEnvVars env with
  | first :: others =>
      (MissingHeader :: map MissingVariable (first :: others) ++ [CheckEnvFile], Exit 1)
  | [] =>
      let config :=
        {| packageName := env_value env "MENTRAOS_PACKAGE_NAME";
           cfg_apiKey := env_value env "MENTRAOS_API_KEY";
           weatherApiKey := env_value env "OPENWEATHER_API_KEY";
           port := port_text env |} in
      let announced :=
        [Starting; PackageLine (env_value env "MENTRAOS_PACKAGE_NAME");
         PortLine (port_shown env)] in
      match start config with
      | inr _ => (announced ++ [RunningLine; UsersCanAsk], Running config)
      | inl _ => (announced ++ [FailedToStart], Exit 1)
      end
  end.

End Index.

Module MoreSamples.

Definition no_sessions2 : WeatherApp2Handlers.App :=
  {| WeatherApp2Handlers.sessionStates := ∅;
     WeatherApp2Handlers.effects := [];
     WeatherApp2Handlers.clock_reads := 0 |}.

(** A complete environment, without PORT. *)
Definition full_env : gmap string string :=
  {[ "MENTRAOS_API_KEY" := "mentra-key";
     "MENTRAOS_PACKAGE_NAME" := "com.example.weathertoday";
     "OPENWEATHER_API_KEY" := "weather-key" ]}.

(** An environment with the weather key empty and the package name unset. *)
Definition poor_env : gmap string string :=
  {[ "MENTRAOS_API_KEY" := "mentra-key"; "OPENWEATHER_API_KEY" := "" ]}.

End MoreSamples.

Module Shapes.
Import JsString RegExp.

(** The text ends with a character that is not white space. *)
Fixpoint ends_solid (s : string) : bool :=
  match s with
  | EmptyString => false
  | String c EmptyString => negb (is_whitespace c)
  | String _ s' => ends_solid s'
  end.

(** The text begins with a character that is not white space. *)
Definition begins_solid (s : string) : bool :=
  match s with
  | EmptyString => false
  | String c _ => negb (is_whitespace c)
  end.

(** A pattern without a group. *)
Fixpoint group_free (p : regex) : bool :=
  match p with
  | [] => true
  | Group :: _ => false
  | _ :: p' => group_free p'
  end.

End Shapes.

(** * Properties *)

(** ** The model at work *)

Module Examples.
Import JsString RegExp Parser Http WeatherService WeatherApp1 Samples SessionSamples.

#[local] Existing Instance ascii_tables.

Example trim_strips_both_ends :
  trim (String 9%N "  New York " ++ String 10%N EmptyString) = "New York".
Proof. reflexivity. Qed.

(** The no-break space and the line separator are white space too. *)
Example trim_strips_unicode_spaces :
  trim (String 160%N "Paris" ++ String 8232%N EmptyString) = "Paris".
Proof. reflexivity. Qed.

Example split_keeps_empty_fields : split_space "a  b " = ["a"; ""; "b"; ""].
Proof. reflexivity. Qed.

Example group_backtracks :
  exec x_weather "new york weather forecast" = Some (Some "new york").
Proof. reflexivity. Qed.

Example group_is_greedy :
  exec x_weather "a weather b weather" = Some (Some "a weather b").
Proof. reflexivity. Qed.

Example match_is_leftmost :
  exec weather_in "the weather in oslo in weather in june" = Some (Some "oslo in weather in june").
Proof. reflexivity. Qed.

Example group_stops_at_line_end :
  exec weather_in ("weather in oslo" ++ String 10%N "tomorrow") = Some (Some "oslo") /\
  exec weather_in ("weather in oslo" ++ String 8232%N "tomorrow") = Some (Some "oslo").
Proof. split; reflexivity. Qed.

Example apostrophe_is_optional :
  test whats_the_weather "whats the weather" = true /\
  test whats_the_weather "what's the weather" = true /\
  test whats_the_weather "what is the weather" = false.
Proof. repeat split. Qed.

Example flag_i_ignores_case : exec weather_in "WEATHER IN ROME" = Some (Some "ROME").
Proof. reflexivity. Qed.

(** A code unit that is not ASCII matches no character of a pattern: the
    long s (383) does not stand for the s of "what's". *)
Example flag_i_is_ascii_only :
  test whats_the_weather ("what" ++ String 383%N " the weather") = false.
Proof. reflexivity. Qed.

(** The division of doubles: 72057594037928496 / 1000 is the double
    72057594037928.5, which [Math.round] takes to 72057594037929. *)
Example division_rounds_to_double :
  (Double.div 72057594037928496 1000 == 144115188075857 # 2)%Q /\
  Math_round (Double.div 72057594037928496 1000) = 72057594037929%Q /\
  Math_round (Double.div 5000 1000) = 5%Q.
Proof. repeat split. Qed.

Example Math_round_ties_upward :
  Math_round (5 # 2) = 3%Q /\ Math_round (- (5 # 2)) = (-2)%Q /\ Math_round (724 # 10) = 72%Q.
Proof. repeat split. Qed.

(** The end-to-end example of the specification: the final transcription
    "Weather in Tokyo" is parsed to the city "tokyo", geocoded with limit 1,
    fetched at the coordinates found, and displayed. *)
Example weather_in_tokyo_end_to_end :
  effects (snd (onTranscription (service_of tokyo_client) steady_host "session-1"
                                "Weather in Tokyo" true (app_updated_at 0)))
  = [ DashboardGettingWeather;
      Request (GeoDirect "tokyo" 1 "key");
      Request (GetWeather (3568 # 100) (13969 # 100) "key" "imperial");
      DisplayWeather tokyo_record ].
Proof. vm_compute. reflexivity. Qed.

End Examples.

(** ** Strings *)

Module StringFacts.
Import JsString.

Lemma append_cons (c : code_unit) (a b : string) :
  (String c a ++ b)%str = String c (a ++ b).
Proof. reflexivity. Qed.

Lemma append_assoc (a b c : string) : ((a ++ b) ++ c)%str = (a ++ (b ++ c))%str.
Proof.
  induction a as [|x a IH]; [reflexivity|].
  rewrite !append_cons, IH. reflexivity.
Qed.

Lemma eqb_refl (s : string) : eqb s s = true.
Proof.
  induction s as [|c s IH]; [reflexivity|].
  cbn [eqb]. rewrite N.eqb_refl, IH. reflexivity.
Qed.

Lemma eqb_eq (a b : string) : eqb a b = true <-> a = b.
Proof.
  split; [|intros ->; apply eqb_refl].
  revert b. induction a as [|c a IH]; intros [|d b]; cbn [eqb]; try discriminate.
  - reflexivity.
  - intros H. apply andb_true_iff in H as [Hc Ha].
    apply N.eqb_eq in Hc. rewrite Hc, (IH b Ha). reflexivity.
Qed.

Lemma trimEnd_idempotent (s : string) : trimEnd (trimEnd s) = trimEnd s.
Proof.
  induction s as [|c s IH]; [reflexivity|].
  cbn [trimEnd]. destruct (trimEnd s) as [|d r] eqn:E.
  - destruct (is_whitespace c) eqn:Ec; [reflexivity|].
    cbn [trimEnd]. rewrite Ec. reflexivity.
  - cbn [trimEnd]. cbn [trimEnd] in IH. rewrite IH. reflexivity.
Qed.

(** The two halves of [trim] can be taken in either order. *)
Lemma trimStart_trimEnd (s : string) : trimStart (trimEnd s) = trimEnd (trimStart s).
Proof.
  induction s as [|c s IH]; [reflexivity|].
  cbn [trimEnd trimStart]. destruct (is_whitespace c) eqn:Ec.
  - rewrite <- IH. destruct (trimEnd s) as [|d r]; [reflexivity|].
    cbn [trimStart]. rewrite Ec. reflexivity.
  - cbn [trimEnd]. destruct (trimEnd s) as [|d r]; cbn [trimStart]; rewrite Ec; reflexivity.
Qed.

Lemma trim_trimEnd (s : string) : trim (trimEnd s) = trim s.
Proof.
  unfold trim. rewrite trimStart_trimEnd, trimEnd_idempotent. reflexivity.
Qed.

Lemma trim_nonempty (s : string) : trim s <> EmptyString -> trimEnd s <> EmptyString.
Proof.
  unfold trim. rewrite <- trimStart_trimEnd. intros H E. rewrite E in H. apply H. reflexivity.
Qed.

(** White space is stripped from the end only: a prefix is untouched when
    something is left of what follows it. *)
Lemma trimEnd_app (a b : string) :
  trimEnd b <> EmptyString -> trimEnd (a ++ b) = (a ++ trimEnd b)%str.
Proof.
  intros Hb. induction a as [|c a IH]; [reflexivity|].
  rewrite !append_cons. cbn [trimEnd]. rewrite IH.
  destruct (a ++ trimEnd b)%str as [|d r] eqn:E; [|reflexivity].
  destruct a; [|discriminate]. change (trimEnd b = EmptyString) in E. congruence.
Qed.

Lemma has_line_terminator_trimEnd (s : string) :
  has_line_terminator s = false -> has_line_terminator (trimEnd s) = false.
Proof.
  induction s as [|c s IH]; [reflexivity|].
  cbn [has_line_terminator trimEnd]. intros H.
  apply orb_false_iff in H as [Hc Hs]. specialize (IH Hs).
  destruct (trimEnd s) as [|d r].
  - destruct (is_whitespace c); [reflexivity|].
    cbn [has_line_terminator]. rewrite Hc. reflexivity.
  - cbn [has_line_terminator] in *. rewrite Hc, IH. reflexivity.
Qed.

(** *** ASCII text *)

Lemma is_ascii_app (a b : string) :
  is_ascii (a ++ b) = is_ascii a && is_ascii b.
Proof.
  induction a as [|c a IH]; [reflexivity|].
  rewrite append_cons. cbn [is_ascii]. rewrite IH, andb_assoc. reflexivity.
Qed.

Lemma ascii_lower_app (a b : string) :
  ascii_lower (a ++ b) = (ascii_lower a ++ ascii_lower b)%str.
Proof.
  induction a as [|c a IH]; [reflexivity|].
  rewrite !append_cons. cbn [ascii_lower]. rewrite append_cons, IH. reflexivity.
Qed.

(** Facts about one code unit: by cases on the comparisons that classify
    it. *)
Ltac compare_units :=
  repeat match goal with
         | |- context [(?x <=? ?y)%N] => destruct (N.leb_spec x y)
         | |- context [(?x <? ?y)%N] => destruct (N.ltb_spec x y)
         | |- context [(?x =? ?y)%N] => destruct (N.eqb_spec x y)
         end;
  cbn [andb orb negb]; try reflexivity; try lia.

Ltac unit_cases c :=
  unfold lower_char, upper_char, is_upper, is_lower;
  destruct (N.leb_spec 65 c); destruct (N.leb_spec c 90);
  destruct (N.leb_spec 97 c); destruct (N.leb_spec c 122);
  cbn [andb orb negb]; try lia;
  unfold is_line_terminator, is_ascii_unit, space;
  compare_units.

Lemma line_terminator_lower (c : code_unit) :
  is_line_terminator (lower_char c) = is_line_terminator c.
Proof. unit_cases c. Qed.

Lemma has_line_terminator_ascii_lower (s : string) :
  has_line_terminator (ascii_lower s) = has_line_terminator s.
Proof.
  induction s as [|c s IH]; [reflexivity|].
  cbn [ascii_lower has_line_terminator]. rewrite line_terminator_lower, IH. reflexivity.
Qed.

Section Tables.
Context {unicode : Unicode}.

(** On ASCII text the case mappings are those of the letters. *)
Lemma toLowerCase_ascii (s : string) :
  is_ascii s = true -> toLowerCase s = ascii_lower s.
Proof. intros H. unfold toLowerCase. rewrite H. reflexivity. Qed.

Lemma toUpperCase_ascii (s : string) :
  is_ascii s = true -> toUpperCase s = ascii_upper s.
Proof. intros H. unfold toUpperCase. rewrite H. reflexivity. Qed.

(** The normal form of "weather in X", for ASCII X. *)
Lemma normalise_weather_in (X : string) :
  is_ascii X = true ->
  trim (toLowerCase X) <> EmptyString ->
  trim (toLowerCase ("weather in " ++ X))
  = ("weather in " ++ trimEnd (toLowerCase X))%str.
Proof.
  intros HA HX.
  rewrite (toLowerCase_ascii X HA) in *.
  rewrite toLowerCase_ascii by (rewrite is_ascii_app, HA; reflexivity).
  rewrite ascii_lower_app.
  change (ascii_lower "weather in ") with "weather in ".
  unfold trim at 1.
  change (trimStart ("weather in " ++ ascii_lower X))
    with ("weather in " ++ ascii_lower X)%str.
  apply trimEnd_app. apply trim_nonempty. exact HX.
Qed.

End Tables.

End StringFacts.

(** ** The regular-expression matcher *)

Module RegExpFacts.
Import JsString RegExp.

Lemma eqb_ci_refl (c : code_unit) : eqb_ci c c = true.
Proof. unfold eqb_ci. apply N.eqb_refl. Qed.

(** A literal prefix of the pattern consumes the same prefix of the text. *)
Lemma match_here_lit (l : string) (p : regex) (s : string) :
  match_here (lit l ++ p) (l ++ s) = match_here p s.
Proof.
  induction l as [|c l IH]; simpl.
  - reflexivity.
  - rewrite eqb_ci_refl. exact IH.
Qed.

(** When what follows always matches, the group takes the rest of the line. *)
Lemma dot_plus_greedy {R : Type} (k : string -> option R) (r : R) (s : string) :
  (forall s', k s' = Some r) ->
  dot_plus k s =
  match line_of s with
  | EmptyString => None
  | X => Some (X, r)
  end.
Proof.
  intros Hk. induction s as [|a s IH]; simpl.
  - reflexivity.
  - destruct (is_line_terminator a); [reflexivity|].
    rewrite IH, Hk. destruct (line_of s); reflexivity.
Qed.

Lemma match_here_lit_group (l rest : string) :
  line_of rest <> EmptyString ->
  match_here (lit l ++ [Group]) (l ++ rest) = Some (Some (line_of rest)).
Proof.
  intros HX. rewrite match_here_lit.
  change (match_here [Group] rest)
    with (match dot_plus (match_here []) rest with
          | Some (cap, _) => Some (Some cap)
          | None => None
          end).
  rewrite (dot_plus_greedy (match_here []) None rest) by reflexivity.
  destruct (line_of rest); congruence.
Qed.

(** A match at the first position is the one [exec] reports. *)
Lemma exec_at_start (p : regex) (s : string) (r : option string) :
  match_here p s = Some r -> exec p s = Some r.
Proof. intros H. destruct s; simpl; rewrite H; reflexivity. Qed.

Lemma line_of_no_terminator (s : string) :
  has_line_terminator s = false -> line_of s = s.
Proof.
  induction s as [|a s IH]; simpl; [reflexivity|].
  destruct (is_line_terminator a); simpl; [discriminate|].
  intros H. rewrite IH by exact H. reflexivity.
Qed.

End RegExpFacts.

(** ** The command parser *)

Module ParserFacts.
Import JsString RegExp Parser RegExpFacts.

Section Tables.
Context {unicode : Unicode}.

Lemma includes_In (l : list string) (s : string) :
  includes l s = true <-> In s l.
Proof.
  unfold includes. rewrite existsb_exists. split.
  - intros [x [Hin Heq]]. apply StringFacts.eqb_eq in Heq. subst. exact Hin.
  - intros Hin. exists s. split; [exact Hin | apply StringFacts.eqb_refl].
Qed.

(** The guard of the loop body: what a turn returns is not generic. *)
Lemma try_pattern_not_generic (p : regex) (t l : string) :
  try_pattern p t = Some l -> isGenericLocation l = false.
Proof.
  unfold try_pattern. intros H.
  destruct (exec p t) as [[m1|]|]; try discriminate.
  destruct (truthy m1); try discriminate.
  destruct (isGenericLocation (trim m1)) eqn:E; simpl in H; try discriminate.
  injection H as <-. exact E.
Qed.

Lemma first_location_not_generic (ps : list regex) (t l : string) :
  first_location ps t = Some l -> isGenericLocation l = false.
Proof.
  induction ps as [|p ps IH]; simpl; [discriminate|].
  destruct (try_pattern p t) as [l'|] eqn:E.
  - intros H. injection H as <-. eapply try_pattern_not_generic; eauto.
  - exact IH.
Qed.

(** A turn of the loop returns the trimmed capture when it is usable. *)
Lemma try_pattern_capture (p : regex) (t X : string) :
  exec p t = Some (Some X) ->
  X <> EmptyString ->
  isGenericLocation (trim X) = false ->
  try_pattern p t = Some (trim X).
Proof.
  intros Hexec HX HG. unfold try_pattern. rewrite Hexec.
  destruct X as [|c X]; [congruence|]. cbn [truthy].
  rewrite HG. reflexivity.
Qed.

(** "weather in (.+)" is the first pattern of both variants: its capture,
    when usable, is the city. *)
Lemma parse_captured_weather_in (text X : string) :
  exec weather_in (trim (toLowerCase text)) = Some (Some X) ->
  X <> EmptyString ->
  isGenericLocation (trim X) = false ->
  WeatherApp1.parseVoiceCommand text = Ok (city_command (trim X)) /\
  WeatherApp2.parseVoiceCommand text = Ok (city_command (trim X)).
Proof.
  intros Hexec HX HG.
  unfold WeatherApp1.parseVoiceCommand, WeatherApp2.parseVoiceCommand.
  unfold WeatherApp1.locationPatterns, WeatherApp2.locationPatterns.
  cbn [first_location].
  rewrite (try_pattern_capture _ _ _ Hexec HX HG). split; reflexivity.
Qed.

(** At the start of the text the capture is the rest of the line. *)
Lemma exec_weather_in_prefix (rest : string) :
  line_of rest <> EmptyString ->
  exec weather_in ("weather in " ++ rest) = Some (Some (line_of rest)).
Proof.
  intros HX. apply exec_at_start.
  exact (match_here_lit_group "weather in " rest HX).
Qed.

Lemma parse_normalised_weather_in (text rest : string) :
  trim (toLowerCase text) = ("weather in " ++ rest)%str ->
  line_of rest <> EmptyString ->
  isGenericLocation (trim (line_of rest)) = false ->
  WeatherApp1.parseVoiceCommand text = Ok (city_command (trim (line_of rest))) /\
  WeatherApp2.parseVoiceCommand text = Ok (city_command (trim (line_of rest))).
Proof.
  intros Hnorm HX HG. apply parse_captured_weather_in; [|exact HX|exact HG].
  rewrite Hnorm. apply exec_weather_in_prefix. exact HX.
Qed.

Lemma parse1_location (text : string) (cmd : ParsedVoiceCommand) (c : string) :
  WeatherApp1.parseVoiceCommand text = Ok cmd -> location cmd = Some c ->
  isGenericLocation c = false.
Proof.
  unfold WeatherApp1.parseVoiceCommand.
  destruct (first_location _ _) as [l|] eqn:E.
  - intros H Hc. injection H as <-. simpl in Hc. injection Hc as <-.
    eapply first_location_not_generic; eauto.
  - destruct (existsb _ _); intros H Hc; [|discriminate].
    injection H as <-. discriminate.
Qed.

Lemma parse2_location (text : string) (cmd : ParsedVoiceCommand) (c : string) :
  WeatherApp2.parseVoiceCommand text = Ok cmd -> location cmd = Some c ->
  isGenericLocation c = false.
Proof.
  unfold WeatherApp2.parseVoiceCommand.
  destruct (first_location _ _) as [l|] eqn:E; [|discriminate].
  intros H Hc. injection H as <-. simpl in Hc. injection Hc as <-.
  eapply first_location_not_generic; eauto.
Qed.

End Tables.

End ParserFacts.

Import JsString RegExp Parser.

Section ParserClaims.
Context {unicode : Unicode}.

(** C1, as amended.  Whenever [/weather in (.+)/i] matches the normalised
    text (lower-cased, then trimmed) with a capture [X] that is not empty
    and whose trimmed form is not a generic term, both app variants return
    the location-specific command whose city is [X.trim()].  When the
    normalised text begins with "weather in ", [X] is the rest of its first
    line.  In particular, for every [X] of ASCII characters without a line
    terminator whose lower-cased and trimmed form is neither empty nor a
    generic term, "weather in X" yields the city [X.toLowerCase().trim()]. *)
Theorem parse_weather_in :
  (forall text X : string,
      exec weather_in (trim (toLowerCase text)) = Some (Some X) ->
      X <> EmptyString ->
      isGenericLocation (trim X) = false ->
      WeatherApp1.parseVoiceCommand text = Ok (city_command (trim X)) /\
      WeatherApp2.parseVoiceCommand text = Ok (city_command (trim X))) /\
  (forall text rest : string,
      trim (toLowerCase text) = ("weather in " ++ rest)%str ->
      line_of rest <> EmptyString ->
      isGenericLocation (trim (line_of rest)) = false ->
      WeatherApp1.parseVoiceCommand text = Ok (city_command (trim (line_of rest))) /\
      WeatherApp2.parseVoiceCommand text = Ok (city_command (trim (line_of rest)))) /\
  (forall X : string,
      is_ascii X = true ->
      has_line_terminator X = false ->
      trim (toLowerCase X) <> EmptyString ->
      isGenericLocation (trim (toLowerCase X)) = false ->
      WeatherApp1.parseVoiceCommand ("weather in " ++ X)
        = Ok (city_command (trim (toLowerCase X))) /\
      WeatherApp2.parseVoiceCommand ("weather in " ++ X)
        = Ok (city_command (trim (toLowerCase X)))).
Proof.
  split; [|split].
  - intros text X. apply ParserFacts.parse_captured_weather_in.
  - intros text rest. apply ParserFacts.parse_normalised_weather_in.
  - intros X HA HLT HX HG.
    pose proof (StringFacts.normalise_weather_in X HA HX) as Hnorm.
    assert (line_of (trimEnd (toLowerCase X)) = trimEnd (toLowerCase X)) as Hline.
    { apply RegExpFacts.line_of_no_terminator.
      apply StringFacts.has_line_terminator_trimEnd.
      rewrite (StringFacts.toLowerCase_ascii X HA).
      rewrite StringFacts.has_line_terminator_ascii_lower. exact HLT. }
    rewrite <- (StringFacts.trim_trimEnd (toLowerCase X)), <- Hline in HG |- *.
    apply (ParserFacts.parse_normalised_weather_in _ _ Hnorm); [|exact HG].
    rewrite Hline. apply StringFacts.trim_nonempty. exact HX.
Qed.

(** C2: four of the six current-location phrasings are taken by the
    location pattern [/(.+) weather/i], which is tried first, and come back
    as city lookups; only "weather conditions" and "weather today" reach the
    fallback. *)
Theorem general_phrasings_parse :
  WeatherApp1.parseVoiceCommand "what's the weather" = Ok (city_command "what's the") /\
  WeatherApp1.parseVoiceCommand "current weather" = Ok (city_command "current") /\
  WeatherApp1.parseVoiceCommand "weather conditions" = Ok current_command /\
  WeatherApp1.parseVoiceCommand "how's the weather" = Ok (city_command "how's the") /\
  WeatherApp1.parseVoiceCommand "weather today" = Ok current_command /\
  WeatherApp1.parseVoiceCommand "today's weather" = Ok (city_command "today's").
Proof. repeat split; reflexivity. Qed.

(** C6: a command returned by either variant never carries a generic term
    as its city, and "weather in G" yields no city lookup for a generic
    term G: both variants throw. *)
Theorem city_is_never_generic :
  (forall (text : string) (cmd : ParsedVoiceCommand) (c : string),
      WeatherApp1.parseVoiceCommand text = Ok cmd \/
      WeatherApp2.parseVoiceCommand text = Ok cmd ->
      location cmd = Some c ->
      ~ In (toLowerCase c) genericTerms) /\
  (forall G : string, In G genericTerms ->
      WeatherApp1.parseVoiceCommand ("weather in " ++ G)
        = Throw (JsError "Unrecognized weather command") /\
      WeatherApp2.parseVoiceCommand ("weather in " ++ G)
        = Throw (JsError "Please specify a city name")).
Proof.
  split.
  - intros text cmd c Hparse Hc Hin.
    assert (isGenericLocation c = false) as HG.
    { destruct Hparse as [H|H].
      - eapply ParserFacts.parse1_location; eauto.
      - eapply ParserFacts.parse2_location; eauto. }
    apply ParserFacts.includes_In in Hin.
    unfold isGenericLocation in HG. congruence.
  - intros G HG. simpl in HG.
    repeat (destruct HG as [<-|HG]; [split; reflexivity|]).
    contradiction.
Qed.

End ParserClaims.

(** Instances of the above, on a host whose case tables are
    [Samples.ascii_tables]. *)
Section ParserInstances.
#[local] Existing Instance Samples.ascii_tables.

Lemma parse_weather_in_witness :
  (WeatherApp1.parseVoiceCommand "Tell me the weather in Paris"
     = Ok (city_command "paris") /\
   WeatherApp2.parseVoiceCommand "Tell me the weather in Paris"
     = Ok (city_command "paris")) /\
  (WeatherApp1.parseVoiceCommand "  Weather in New York " = Ok (city_command "new york") /\
   WeatherApp2.parseVoiceCommand "  Weather in New York " = Ok (city_command "new york")) /\
  (WeatherApp1.parseVoiceCommand ("weather in " ++ "Tokyo") = Ok (city_command "tokyo") /\
   WeatherApp2.parseVoiceCommand ("weather in " ++ "Tokyo") = Ok (city_command "tokyo")).
Proof.
  split; [|split].
  - apply (proj1 parse_weather_in "Tell me the weather in Paris" "paris").
    + reflexivity.
    + discriminate.
    + reflexivity.
  - apply (proj1 (proj2 parse_weather_in) "  Weather in New York " "new york").
    + reflexivity.
    + discriminate.
    + reflexivity.
  - apply (proj2 (proj2 parse_weather_in) "Tokyo").
    + reflexivity.
    + reflexivity.
    + discriminate.
    + reflexivity.
Defined.

(** C1 as the specification words it fails: the generic test is made on
    the trimmed capture.  In "weather in  here" the pattern captures " here",
    which is not empty and is not one of the generic terms, yet no command
    with the city "here" comes back: both variants throw. *)
Lemma weather_in_padded_here_rejected :
  exec weather_in (trim (toLowerCase "weather in  here")) = Some (Some " here") /\
  " here" <> EmptyString /\
  ~ In (toLowerCase " here") genericTerms /\
  trim " here" = "here" /\
  WeatherApp1.parseVoiceCommand "weather in  here"
    = Throw (JsError "Unrecognized weather command") /\
  WeatherApp2.parseVoiceCommand "weather in  here"
    = Throw (JsError "Please specify a city name").
Proof.
  repeat split; try reflexivity; try discriminate.
  intros H. cbn in H. repeat (destruct H as [H|H]; [discriminate H|]). exact H.
Qed.

Lemma city_is_never_generic_witness :
  ~ In (toLowerCase "tokyo") genericTerms /\
  WeatherApp2.parseVoiceCommand ("weather in " ++ "my location")
    = Throw (JsError "Please specify a city name").
Proof.
  split.
  - apply (proj1 city_is_never_generic "Weather in Tokyo" (city_command "tokyo") "tokyo").
    + left. reflexivity.
    + reflexivity.
  - apply (proj2 city_is_never_generic "my location").
    simpl. right. right. right. left. reflexivity.
Defined.

End ParserInstances.

(** ** The weather service *)

Module ServiceFacts.
Import JsString Http WeatherService Samples.

Section Tables.
Context {unicode : Unicode}.

(** [Math.round] gives the integer nearest to its argument. *)
Lemma Math_round_nearest (x : number) :
  (Math_round x - (1 # 2) <= x)%Q /\ (x < Math_round x + (1 # 2))%Q.
Proof.
  unfold Math_round.
  pose proof (Qfloor_le (x + (1 # 2))) as Hle.
  pose proof (Qlt_floor (x + (1 # 2))) as Hlt.
  rewrite inject_Z_plus in Hlt. change (inject_Z 1) with 1%Q in Hlt.
  split; lra.
Qed.

Lemma split_space_nonempty (s : string) : split_space s <> [].
Proof.
  induction s as [|c s IH]; simpl; [discriminate|].
  destruct ((c =? space)%N); [discriminate|].
  destruct (split_space s); discriminate.
Qed.

Lemma join_space_cons (w : string) (ws : list string) :
  ws <> [] -> join_space (w :: ws) = (w ++ String space (join_space ws))%str.
Proof. destruct ws; [congruence | reflexivity]. Qed.

Lemma join_space_push (c : code_unit) (w : string) (ws : list string) :
  join_space (String c w :: ws) = String c (join_space (w :: ws)).
Proof. destruct ws; reflexivity. Qed.

Lemma join_space_prepend (u w : string) (ws : list string) :
  join_space ((u ++ w)%str :: ws) = (u ++ join_space (w :: ws))%str.
Proof.
  induction u as [|c u IH]; [reflexivity|].
  rewrite !StringFacts.append_cons, join_space_push, IH. reflexivity.
Qed.

Lemma capitalizeWord_cons (c : code_unit) (w : string) :
  capitalizeWord (String c w) = (toUpperCase (String c EmptyString) ++ w)%str.
Proof. reflexivity. Qed.

(** Splitting at the spaces and joining with spaces gives the text back. *)
Lemma join_split_space (s : string) : join_space (split_space s) = s.
Proof.
  induction s as [|c s IH]; simpl; [reflexivity|].
  destruct ((c =? space)%N) eqn:E.
  - apply N.eqb_eq in E. subst c.
    rewrite join_space_cons by apply split_space_nonempty.
    rewrite IH. reflexivity.
  - pose proof (split_space_nonempty s) as Hne.
    destruct (split_space s) as [|w ws]; [congruence|].
    rewrite join_space_push, IH. reflexivity.
Qed.

(** The capitalised description, and the same with the first word left
    as it is, as scans of the text. *)
Lemma capitalize_as_scan (s : string) :
  capitalizeDescription s = capitalize_scan true s /\
  match split_space s with
  | w :: ws => join_space (w :: map capitalizeWord ws)
  | [] => EmptyString
  end = capitalize_scan false s.
Proof.
  unfold capitalizeDescription.
  induction s as [|c s [IH1 IH2]]; [split; reflexivity|].
  pose proof (split_space_nonempty s) as Hne.
  cbn [split_space capitalize_scan].
  destruct ((c =? space)%N) eqn:E.
  - apply N.eqb_eq in E. subst c. cbn [map].
    assert (map capitalizeWord (split_space s) <> []) as Hne'.
    { destruct (split_space s); [congruence | discriminate]. }
    change (capitalizeWord EmptyString) with EmptyString.
    rewrite !join_space_cons by exact Hne'.
    rewrite IH1. split; reflexivity.
  - destruct (split_space s) as [|w ws]; [congruence|].
    cbn [map]. rewrite capitalizeWord_cons, join_space_prepend, join_space_push, IH2.
    split; reflexivity.
Qed.

Lemma transform_nonempty (data : WeatherApiResponse) (w : ApiWeather)
      (ws : list ApiWeather) :
  weather_list data = w :: ws ->
  transformWeatherData data =
  Ok {| wd_location := (name data ++ ", " ++ country (sys data))%str;
        wd_temperature := Math_round (temp (main data));
        wd_description := capitalizeDescription (description w);
        wd_humidity := humidity (main data);
        wd_windSpeed := Math_round (speed (wind data));
        wd_windDirection := deg (wind data);
        wd_pressure := Some (pressure (main data));
        wd_visibility :=
          match visibility data with
          | Some v => if truthy_number v then Some (Math_round (Double.div v 1000)) else None
          | None => None
          end;
        wd_uvIndex := None;
        wd_feelsLike := Some (Math_round (feels_like (main data))) |}.
Proof.
  intros H. unfold transformWeatherData, weather0_description.
  rewrite H. reflexivity.
Qed.

Lemma transform_empty (data : WeatherApiResponse) :
  weather_list data = [] ->
  transformWeatherData data = Throw undefined_description.
Proof.
  intros H. unfold transformWeatherData, weather0_description.
  rewrite H. reflexivity.
Qed.

Lemma truthy_number_nonzero (v : number) :
  ~ (v == 0)%Q -> truthy_number v = true.
Proof.
  intros H. unfold truthy_number.
  destruct (Qeq_bool v 0) eqn:E; [|reflexivity].
  apply Qeq_bool_eq in E. contradiction.
Qed.

(** No geocoding match: the city error leaves the function as thrown,
    after the one geocoding request. *)
Lemma city_no_match (svc : Service) (cityName : string) (log : Log) :
  geo_direct (client svc) cityName 1 (apiKey svc) = Ok [] ->
  getWeatherByCity svc cityName log =
  (Throw (city_not_found cityName), log ++ [GeoDirect cityName 1 (apiKey svc)]).
Proof.
  intros H. unfold getWeatherByCity, try_catch, bind, axios_get_geo.
  rewrite H. reflexivity.
Qed.

Lemma city_geo_fails (svc : Service) (cityName : string) (e : Thrown) (log : Log) :
  geo_direct (client svc) cityName 1 (apiKey svc) = Throw e ->
  getWeatherByCity svc cityName log =
  (Throw (if instanceof_Error e then e else fetch_failed),
   log ++ [GeoDirect cityName 1 (apiKey svc)]).
Proof.
  intros H. unfold getWeatherByCity, try_catch, bind, axios_get_geo.
  rewrite H. unfold Throw. destruct (instanceof_Error e); reflexivity.
Qed.

Lemma city_weather_fails (svc : Service) (cityName : string)
      (first : GeocodingResponse) (others : list GeocodingResponse)
      (e : Thrown) (log : Log) :
  geo_direct (client svc) cityName 1 (apiKey svc) = Ok (first :: others) ->
  get_weather (client svc) (lat first) (lon first) (apiKey svc) "imperial" = Throw e ->
  getWeatherByCity svc cityName log =
  (Throw (if instanceof_Error e then e else fetch_failed),
   (log ++ [GeoDirect cityName 1 (apiKey svc)])
     ++ [GetWeather (lat first) (lon first) (apiKey svc) "imperial"]).
Proof.
  intros Hg Hw.
  unfold getWeatherByCity, try_catch, bind, axios_get_geo, axios_get_weather.
  rewrite Hg. unfold Ok. rewrite Hw.
  unfold Throw. destruct (instanceof_Error e); reflexivity.
Qed.

Lemma coordinates_weather_fails (svc : Service) (coordinates : LocationCoordinates)
      (e : Thrown) (log : Log) :
  get_weather (client svc) (latitude coordinates) (longitude coordinates)
              (apiKey svc) "imperial" = Throw e ->
  getWeatherByCoordinates svc coordinates log =
  (Throw fetch_failed,
   log ++ [GetWeather (latitude coordinates) (longitude coordinates)
                      (apiKey svc) "imperial"]).
Proof.
  intros Hw.
  unfold getWeatherByCoordinates, try_catch, bind, axios_get_weather.
  rewrite Hw. reflexivity.
Qed.

Lemma city_not_found_distinct (cityName : string) :
  city_not_found cityName <> fetch_failed.
Proof. unfold city_not_found, fetch_failed. intros H. discriminate H. Qed.

End Tables.

End ServiceFacts.

(** ** Division of doubles *)

Module DoubleFacts.
Import Double WeatherService.

Lemma pow2_pos (e : Z) : (0 < pow2 e)%Q.
Proof.
  destruct e as [|p|p]; cbn [pow2]; [reflexivity | | reflexivity].
  rewrite Z.pow_pos_fold. change 0%Q with (inject_Z 0). rewrite <- Zlt_Qlt.
  apply Z.pow_pos_nonneg; lia.
Qed.

(** Below the first power of two, [pow2] is the reciprocal of one. *)
Lemma pow2_neg (p : positive) : (pow2 (Zneg p) * inject_Z (2 ^ Zpos p) == 1)%Q.
Proof.
  cbn [pow2]. unfold Qeq, Qmult, inject_Z. cbn [Qnum Qden].
  rewrite Pos.mul_1_r, Pos2Z.inj_pow. lia.
Qed.

Lemma pow2_small (e : Z) : (e <= -9)%Z -> (pow2 e <= 1 # 512)%Q.
Proof.
  intros He. destruct e as [|p|p]; try lia.
  cbn [pow2]. unfold Qle. cbn [Qnum Qden].
  assert (2 ^ 9 <= 2 ^ Zpos p)%Z as H by (apply Z.pow_le_mono_r; lia).
  rewrite Pos2Z.inj_pow. change (2 ^ 9)%Z with 512%Z in H. lia.
Qed.

Lemma Qfloor_unique (x : Q) (n : Z) :
  (inject_Z n <= x)%Q -> (x < inject_Z (n + 1))%Q -> Qfloor x = n.
Proof.
  intros Hle Hlt.
  pose proof (Qfloor_le x) as H1. pose proof (Qlt_floor x) as H2.
  assert (n < Qfloor x + 1)%Z as Ha.
  { rewrite Zlt_Qlt. eapply Qle_lt_trans; [exact Hle | exact H2]. }
  assert (Qfloor x < n + 1)%Z as Hb.
  { rewrite Zlt_Qlt. eapply Qle_lt_trans; [exact H1 | exact Hlt]. }
  lia.
Qed.

Lemma round_half_even_near (x : Q) :
  (x - (1 # 2) <= inject_Z (round_half_even x) <= x + (1 # 2))%Q.
Proof.
  unfold round_half_even.
  pose proof (Qfloor_le x) as H1. pose proof (Qlt_floor x) as H2.
  rewrite inject_Z_plus in H2. change (inject_Z 1) with 1%Q in H2.
  destruct (x - inject_Z (Qfloor x) ?= 1 # 2)%Q eqn:E.
  - apply Qeq_alt in E. destruct (Z.even (Qfloor x));
      [|rewrite inject_Z_plus; change (inject_Z 1) with 1%Q]; split; lra.
  - apply Qlt_alt in E. split; lra.
  - apply Qgt_alt in E. rewrite inject_Z_plus. change (inject_Z 1) with 1%Q. split; lra.
Qed.

Lemma round_half_even_whole (x : Q) (k : Z) :
  (x == inject_Z k)%Q -> round_half_even x = k.
Proof.
  intros H. unfold round_half_even.
  assert (Qfloor x = k) as -> by (rewrite H; apply Qfloor_Z).
  assert ((x - inject_Z k ?= 1 # 2)%Q = Lt) as ->; [|reflexivity].
  apply -> Qlt_alt. lra.
Qed.

(** The rounding error is at most half a unit in the last place. *)
Lemma nearest_error (q : Q) (e : Z) :
  e = Z.max (ilog2 q - 52) (-1074) ->
  (q - pow2 e * (1 # 2) <= nearest q <= q + pow2 e * (1 # 2))%Q.
Proof.
  intros He. unfold nearest. cbv zeta. rewrite <- He.
  pose proof (pow2_pos e) as HP.
  pose proof (round_half_even_near (q / pow2 e)) as [H1 H2].
  set (m := inject_Z (round_half_even (q / pow2 e))) in *.
  assert (q == (q / pow2 e) * pow2 e)%Q as Hq by (field; lra).
  set (x := (q / pow2 e)%Q) in *.
  split; nra.
Qed.

Lemma ilog2_bound (q : Q) : (0 < q)%Q -> (q < inject_Z (2 ^ 44))%Q -> (ilog2 q <= 43)%Z.
Proof.
  intros Hpos Hlt. unfold ilog2. destruct (Qle_bool 1 q) eqn:E.
  - apply Qle_bool_iff in E.
    assert (0 < Qfloor q)%Z as Hf.
    { assert (Qfloor 1 <= Qfloor q)%Z by (apply Qfloor_resp_le; exact E).
      change (Qfloor 1) with 1%Z in H. lia. }
    assert (Qfloor q < 2 ^ 44)%Z as Hf'.
    { rewrite Zlt_Qlt. eapply Qle_lt_trans; [apply Qfloor_le | exact Hlt]. }
    apply Z.log2_lt_pow2 in Hf'; lia.
  - pose proof (Z.log2_up_nonneg (Qceiling (/ q))). lia.
Qed.

Lemma half_integer_exact (q : Q) (k : Z) (e : Z) :
  (q * 2 == inject_Z k)%Q -> (e <= -1)%Z ->
  (inject_Z (round_half_even (q / pow2 e)) * pow2 e == q)%Q.
Proof.
  intros Hk He. destruct e as [|p|p]; try lia.
  pose proof (pow2_neg p) as Hinv. pose proof (pow2_pos (Zneg p)) as HP.
  assert (2 ^ Zpos p = 2 * 2 ^ (Zpos p - 1))%Z as Hpow.
  { rewrite <- Z.pow_succ_r by lia. f_equal. lia. }
  rewrite Hpow, inject_Z_mult in Hinv. change (inject_Z 2) with 2%Q in Hinv.
  set (P := pow2 (Zneg p)) in *. set (I := inject_Z (2 ^ (Zpos p - 1))) in *.
  assert (q / P == inject_Z (k * 2 ^ (Zpos p - 1)))%Q as Hx.
  { rewrite inject_Z_mult, <- Hk. fold I.
    transitivity ((q / P) * (P * (2 * I)))%Q; [rewrite Hinv; ring | field; lra]. }
  rewrite (round_half_even_whole _ _ Hx), <- Hx. field. lra.
Qed.

(** A whole number of metres below 2^53 gives the kilometres that exact
    division would give. *)
Lemma round_whole_metres (z : Z) :
  (0 < z < 2 ^ 53)%Z ->
  Math_round (div (inject_Z z) 1000) = Math_round (inject_Z z / 1000).
Proof.
  intros [Hz0 Hz1]. unfold Math_round, div. f_equal.
  set (q := (inject_Z z / 1000)%Q).
  assert (q == inject_Z z * (1 # 1000))%Q as Hq by (unfold q; field).
  assert (0 < inject_Z z)%Q as HzQ by (change 0%Q with (inject_Z 0); rewrite <- Zlt_Qlt; exact Hz0).
  assert (inject_Z z < inject_Z (2 ^ 53))%Q as HzQ' by (rewrite <- Zlt_Qlt; exact Hz1).
  assert (0 < q)%Q as Hpos by lra.
  assert (q < inject_Z (2 ^ 44))%Q as H44.
  { change (inject_Z (2 ^ 53)) with (9007199254740992 # 1)%Q in HzQ'.
    change (inject_Z (2 ^ 44)) with (17592186044416 # 1)%Q. lra. }
  unfold to_double.
  assert ((q ?= 0)%Q = Gt) as -> by (apply -> Qgt_alt; exact Hpos).
  set (e := Z.max (ilog2 q - 52) (-1074)).
  pose proof (ilog2_bound q Hpos H44) as Hlog.
  assert (e <= -9)%Z as He by (unfold e; lia).
  pose proof (nearest_error q e eq_refl) as [Hlo Hhi].
  pose proof (pow2_small e He) as Hsmall. pose proof (pow2_pos e) as HP.
  set (n := Qfloor (q + (1 # 2))).
  pose proof (Qfloor_le (q + (1 # 2))) as Hn1. pose proof (Qlt_floor (q + (1 # 2))) as Hn2.
  fold n in Hn1, Hn2. rewrite inject_Z_plus in Hn2. change (inject_Z 1) with 1%Q in Hn2.
  (* the same bounds on the metres, as integers *)
  assert (2000 * n <= 2 * z + 1000 <= 2000 * n + 1998)%Z as [Hlow Hup].
  { assert (inject_Z (2000 * n) <= inject_Z (2 * z + 1000))%Q as H1.
    { rewrite !inject_Z_plus, !inject_Z_mult.
      change (inject_Z 2000) with 2000%Q. change (inject_Z 2) with 2%Q.
      change (inject_Z 1000) with 1000%Q. lra. }
    assert (inject_Z (2 * z + 1000) < inject_Z (2000 * n + 2000))%Q as H2.
    { rewrite !inject_Z_plus, !inject_Z_mult.
      change (inject_Z 2000) with 2000%Q. change (inject_Z 2) with 2%Q.
      change (inject_Z 1000) with 1000%Q. lra. }
    rewrite <- Zle_Qle in H1. rewrite <- Zlt_Qlt in H2. lia. }
  assert (inject_Z (2 * z + 1000) <= inject_Z (2000 * n + 1998))%Q as HupQ
      by (rewrite <- Zle_Qle; exact Hup).
  rewrite !inject_Z_plus, !inject_Z_mult in HupQ.
  change (inject_Z 2000) with 2000%Q in HupQ. change (inject_Z 2) with 2%Q in HupQ.
  change (inject_Z 1000) with 1000%Q in HupQ. change (inject_Z 1998) with 1998%Q in HupQ.
  apply Qfloor_unique; [|rewrite inject_Z_plus; change (inject_Z 1) with 1%Q; lra].
  (* the lower bound: exact at the tie, a thousandth of room elsewhere *)
  destruct (Z.eq_dec (2 * z + 1000)%Z (2000 * n)%Z) as [Htie|Hfree].
  - assert (q * 2 == inject_Z (2 * n - 1))%Q as Hhalf.
    { rewrite Hq. unfold Qeq, Qmult, inject_Z. cbn [Qnum Qden]. lia. }
    assert (nearest q == q)%Q as ->.
    { unfold nearest. cbv zeta. fold e. apply (half_integer_exact q (2 * n - 1) e Hhalf). lia. }
    exact Hn1.
  - assert (inject_Z (2000 * n + 2) <= inject_Z (2 * z + 1000))%Q as H
        by (rewrite <- Zle_Qle; lia).
    rewrite !inject_Z_plus, !inject_Z_mult in H.
    change (inject_Z 2000) with 2000%Q in H. change (inject_Z 2) with 2%Q in H.
    change (inject_Z 1000) with 1000%Q in H. lra.
Qed.

End DoubleFacts.

Import Http WeatherService Samples.

Section ServiceClaims.
Context {unicode : Unicode}.

(** C3: when geocoding answers with an empty list, [getWeatherByCity] throws
    the error that names the city, which is not the generic fetch error, and
    the geocoding request is the only request sent. *)
Theorem empty_geocoding_is_city_not_found
        (svc : Service) (cityName : string) (log : Log) :
  geo_direct (client svc) cityName 1 (apiKey svc) = Ok [] ->
  getWeatherByCity svc cityName log =
    (Throw (JsError ("City " ++ dquote ++ cityName ++ dquote ++ " not found")),
     log ++ [GeoDirect cityName 1 (apiKey svc)]) /\
  JsError ("City " ++ dquote ++ cityName ++ dquote ++ " not found") <> fetch_failed.
Proof.
  intros H. split.
  - exact (ServiceFacts.city_no_match svc cityName log H).
  - exact (ServiceFacts.city_not_found_distinct cityName).
Qed.

(** C4: a transport failure inside [getWeatherByCity] does not come out as
    the generic fetch error.  With the remote side out of reach the lookup
    of "tokyo" throws the network error of axios as it is, and with the
    weather endpoint refusing the key it throws the status error of axios as
    it is; neither is "Failed to fetch weather data".  On the same two
    failures [getWeatherByCoordinates] throws the generic error, and the
    city-not-found error goes through unchanged, as the claim says. *)
Theorem city_transport_failure_not_wrapped :
  getWeatherByCity (service_of unreachable_client) "tokyo" [] =
    (Throw (AxiosError "Network Error"), [GeoDirect "tokyo" 1 "key"]) /\
  fst (getWeatherByCity (service_of unauthorized_client) "tokyo" [])
    = Throw (AxiosError "Request failed with status code 401") /\
  AxiosError "Network Error" <> fetch_failed /\
  AxiosError "Request failed with status code 401" <> fetch_failed /\
  fst (getWeatherByCoordinates (service_of unreachable_client) somewhere [])
    = Throw fetch_failed /\
  fst (getWeatherByCoordinates (service_of unauthorized_client) somewhere [])
    = Throw fetch_failed /\
  fst (getWeatherByCity (service_of tokyo_client) "atlantis" [])
    = Throw (city_not_found "atlantis").
Proof. repeat split; try reflexivity; discriminate. Qed.

(** C5, as amended.  For every payload whose weather array is not empty,
    [transformWeatherData] returns a record with location "<name>,
    <country>", temperature and feels-like the rounded raw values, humidity
    the raw value, wind speed the rounded raw value and wind direction the
    raw degree when there is one; the payload of the end-to-end example
    gives the record expected there. *)
Theorem transform_fields :
  (forall (data : WeatherApiResponse) (w : ApiWeather) (ws : list ApiWeather),
      weather_list data = w :: ws ->
      exists r : WeatherData,
        transformWeatherData data = Ok r /\
        wd_location r = (name data ++ ", " ++ country (sys data))%str /\
        wd_temperature r = Math_round (temp (main data)) /\
        wd_feelsLike r = Some (Math_round (feels_like (main data))) /\
        wd_humidity r = humidity (main data) /\
        wd_windSpeed r = Math_round (speed (wind data)) /\
        wd_windDirection r = deg (wind data)) /\
  transformWeatherData tokyo_payload = Ok tokyo_record.
Proof.
  split.
  - intros data w ws H. eexists. split.
    + exact (ServiceFacts.transform_nonempty data w ws H).
    + cbn. repeat split; reflexivity.
  - reflexivity.
Qed.

(** C7, as amended.  For every payload with a non-empty weather array: the
    record has no visibility when the payload has none, and when the payload
    has a visibility other than zero the record has one, [Math.round] of the
    metres divided by 1000 as doubles; for a whole number of metres below
    2^53 this is the metres divided by 1000 and rounded to the nearest
    integer, the upper one of two; 5000 metres give 5, 1500 metres give 2. *)
Theorem visibility_in_km :
  (forall (data : WeatherApiResponse) (w : ApiWeather) (ws : list ApiWeather),
      weather_list data = w :: ws ->
      exists r : WeatherData,
        transformWeatherData data = Ok r /\
        (visibility data = None -> wd_visibility r = None) /\
        (forall v : number,
            visibility data = Some v -> ~ (v == 0)%Q ->
            wd_visibility r = Some (Math_round (Double.div v 1000))) /\
        (forall metres : Z,
            visibility data = Some (inject_Z metres) -> (0 < metres < 2 ^ 53)%Z ->
            wd_visibility r = Some (Math_round (inject_Z metres / 1000)))) /\
  (exists r : WeatherData,
      transformWeatherData (with_visibility (Some 5000%Q) tokyo_payload) = Ok r /\
      wd_visibility r = Some 5%Q) /\
  (exists r : WeatherData,
      transformWeatherData (with_visibility (Some 1500%Q) tokyo_payload) = Ok r /\
      wd_visibility r = Some 2%Q) /\
  (exists r : WeatherData,
      transformWeatherData (with_visibility None tokyo_payload) = Ok r /\
      wd_visibility r = None).
Proof.
  split; [|split; [|split]].
  - intros data w ws H. eexists. split.
    + exact (ServiceFacts.transform_nonempty data w ws H).
    + cbn. split; [|split].
      * intros ->. reflexivity.
      * intros v -> Hv. rewrite (ServiceFacts.truthy_number_nonzero v Hv). reflexivity.
      * intros metres -> Hm.
        assert (~ (inject_Z metres == 0)%Q) as Hv.
        { intros E. unfold Qeq in E. cbn [inject_Z Qnum Qden] in E.
          destruct Hm as [Hm _]. lia. }
        rewrite (ServiceFacts.truthy_number_nonzero _ Hv).
        rewrite (DoubleFacts.round_whole_metres metres Hm). reflexivity.
  - eexists. split; reflexivity.
  - eexists. split; reflexivity.
  - eexists. split; reflexivity.
Qed.

(** C9: the capitalised description is the raw description with the first
    character of every word upper-cased and everything else as it was, the
    words being the fields between single spaces, joined again by single
    spaces: every character at the start of the text or after a space is
    replaced by its upper-case form, the others are copied.  "light rain"
    becomes "Light Rain". *)
Theorem capitalizeDescription_spec :
  (forall description : string,
      capitalizeDescription description = capitalize_scan true description) /\
  capitalizeDescription "light rain" = "Light Rain".
Proof.
  split.
  - intros d. exact (proj1 (ServiceFacts.capitalize_as_scan d)).
  - reflexivity.
Qed.

(** C10: [transformWeatherData] reads the first element of the weather
    array only.  With a non-empty array the read is in bounds and a record
    is returned, whatever follows the first element; with an empty array the
    read throws, so the transform and both fetch entry points fail. *)
Theorem weather_array_first_element :
  (forall (data : WeatherApiResponse) (w : ApiWeather) (ws : list ApiWeather),
      weather_list data = w :: ws ->
      weather0_description data = Ok (description w) /\
      exists r : WeatherData,
        transformWeatherData data = Ok r /\
        wd_description r = capitalizeDescription (description w)) /\
  (forall (data : WeatherApiResponse) (w : ApiWeather) (ws ws' : list ApiWeather),
      transformWeatherData (with_weather (w :: ws) data)
      = transformWeatherData (with_weather (w :: ws') data)) /\
  (forall data : WeatherApiResponse,
      weather_list data = [] ->
      transformWeatherData data = Throw undefined_description) /\
  (forall (svc : Service) (coordinates : LocationCoordinates)
          (data : WeatherApiResponse) (log : Log),
      get_weather (client svc) (latitude coordinates) (longitude coordinates)
                  (apiKey svc) "imperial" = Ok data ->
      weather_list data = [] ->
      fst (getWeatherByCoordinates svc coordinates log) = Throw fetch_failed) /\
  (forall (svc : Service) (cityName : string) (first : GeocodingResponse)
          (others : list GeocodingResponse) (data : WeatherApiResponse) (log : Log),
      geo_direct (client svc) cityName 1 (apiKey svc) = Ok (first :: others) ->
      get_weather (client svc) (lat first) (lon first) (apiKey svc) "imperial" = Ok data ->
      weather_list data = [] ->
      fst (getWeatherByCity svc cityName log) = Throw undefined_description).
Proof.
  repeat split.
  - unfold weather0_description. rewrite H. reflexivity.
  - eexists. split.
    + exact (ServiceFacts.transform_nonempty data w ws H).
    + reflexivity.
  - intros data H. exact (ServiceFacts.transform_empty data H).
  - intros svc coordinates data log Hw He.
    unfold getWeatherByCoordinates, try_catch, bind, axios_get_weather, lift_result.
    rewrite Hw. unfold Ok. cbv beta iota.
    rewrite (ServiceFacts.transform_empty data He). reflexivity.
  - intros svc cityName first others data log Hg Hw He.
    unfold getWeatherByCity, try_catch, bind, axios_get_geo, axios_get_weather, lift_result.
    rewrite Hg. unfold Ok. cbv beta iota. rewrite Hw. unfold Ok. cbv beta iota.
    rewrite (ServiceFacts.transform_empty data He). reflexivity.
Qed.

End ServiceClaims.

Section ServiceInstances.
#[local] Existing Instance Samples.ascii_tables.

Lemma empty_geocoding_is_city_not_found_witness :
  getWeatherByCity (service_of tokyo_client) "Zzzznotreal" [] =
    (Throw (JsError ("City " ++ dquote ++ "Zzzznotreal" ++ dquote ++ " not found")),
     [] ++ [GeoDirect "Zzzznotreal" 1 "key"]) /\
  JsError ("City " ++ dquote ++ "Zzzznotreal" ++ dquote ++ " not found") <> fetch_failed.
Proof.
  apply (empty_geocoding_is_city_not_found (service_of tokyo_client) "Zzzznotreal" []).
  reflexivity.
Defined.

(** C5 as the specification words it fails: a payload whose weather array
    is empty is not transformed into a record, the transform throws. *)
Lemma transform_of_empty_weather_throws :
  transformWeatherData (with_weather [] tokyo_payload) = Throw undefined_description /\
  forall r : WeatherData, transformWeatherData (with_weather [] tokyo_payload) <> Ok r.
Proof. split; [reflexivity | intros r; discriminate]. Qed.

Lemma transform_fields_witness :
  exists r : WeatherData,
    transformWeatherData tokyo_payload = Ok r /\
    wd_location r = "Tokyo, JP" /\
    wd_temperature r = Math_round (724 # 10) /\
    wd_feelsLike r = Some (Math_round (701 # 10)) /\
    wd_humidity r = 55%Q /\
    wd_windSpeed r = Math_round (52 # 10) /\
    wd_windDirection r = None.
Proof.
  apply (proj1 transform_fields tokyo_payload
               {| main_group := "Clear"; description := "clear sky" |} []).
  reflexivity.
Defined.

(** C7 as the specification words it fails: 1500 metres become 2
    kilometres, the nearest integer, where integer division gives 1. *)
Lemma visibility_1500_rounds_up :
  transformWeatherData (with_visibility (Some 1500%Q) tokyo_payload)
    = Ok {| wd_location := "Tokyo, JP";
            wd_temperature := 72;
            wd_description := "Clear Sky";
            wd_humidity := 55;
            wd_windSpeed := 5;
            wd_windDirection := None;
            wd_pressure := Some 1012%Q;
            wd_visibility := Some 2%Q;
            wd_uvIndex := None;
            wd_feelsLike := Some 70%Q |} /\
  whole_km 1500 = 1%Q /\
  Some 2%Q <> Some (whole_km 1500).
Proof. repeat split; try reflexivity. discriminate. Qed.

Lemma visibility_in_km_witness :
  exists r : WeatherData,
    transformWeatherData (with_visibility (Some 9999%Q) tokyo_payload) = Ok r /\
    (visibility (with_visibility (Some 9999%Q) tokyo_payload) = None ->
     wd_visibility r = None) /\
    (forall v : number,
        visibility (with_visibility (Some 9999%Q) tokyo_payload) = Some v ->
        ~ (v == 0)%Q ->
        wd_visibility r = Some (Math_round (Double.div v 1000))) /\
    (forall metres : Z,
        visibility (with_visibility (Some 9999%Q) tokyo_payload) = Some (inject_Z metres) ->
        (0 < metres < 2 ^ 53)%Z ->
        wd_visibility r = Some (Math_round (inject_Z metres / 1000))).
Proof.
  apply (proj1 visibility_in_km (with_visibility (Some 9999%Q) tokyo_payload)
               {| main_group := "Clear"; description := "clear sky" |} []).
  reflexivity.
Defined.

Lemma weather_array_first_element_witness :
  weather0_description tokyo_payload = Ok "clear sky" /\
  exists r : WeatherData,
    transformWeatherData tokyo_payload = Ok r /\
    wd_description r = capitalizeDescription "clear sky".
Proof.
  apply (proj1 weather_array_first_element tokyo_payload
               {| main_group := "Clear"; description := "clear sky" |} []).
  reflexivity.
Defined.

End ServiceInstances.

(** ** The session cache *)

Module AppFacts.
Import WeatherApp1 SessionSamples.

Section Tables.
Context {unicode : Unicode}.

(** *** Every handler keeps the sessions stamped *)

Create HintDb keeps discriminated.

Lemma keeps_ret {A} (a : A) : keeps (ret a).
Proof. intros app H. exact H. Qed.

Lemma keeps_throw {A} (e : Thrown) : keeps (@throw App A e).
Proof. intros app H. exact H. Qed.

Lemma keeps_lift_result {A} (r : result A) : keeps (@lift_result App A r).
Proof. intros app H. exact H. Qed.

Lemma keeps_bind {A B} (m : M App A) (f : A -> M App B) :
  keeps m -> (forall a, keeps (f a)) -> keeps (bind m f).
Proof.
  intros Hm Hf app H. unfold bind.
  specialize (Hm app H). destruct (m app) as [[e|a] app1]; simpl in *.
  - exact Hm.
  - apply Hf. exact Hm.
Qed.

Lemma keeps_try_catch {A} (m : M App A) (handler : Thrown -> M App A) :
  keeps m -> (forall e, keeps (handler e)) -> keeps (try_catch m handler).
Proof.
  intros Hm Hh app H. unfold try_catch.
  specialize (Hm app H). destruct (m app) as [[e|a] app1]; simpl in *.
  - apply Hh. exact Hm.
  - exact Hm.
Qed.

Lemma keeps_emit (e : Effect) : keeps (emit e).
Proof. intros app H. exact H. Qed.

Lemma keeps_Date_now (host : Host) : keeps (Date_now host).
Proof. intros app H. exact H. Qed.

Lemma keeps_get_session (sessionId : string) : keeps (get_session sessionId).
Proof. intros app H. exact H. Qed.

Lemma keeps_call_service {A} (m : M Http.Log A) : keeps (call_service m).
Proof.
  intros app H. unfold call_service. destruct (m []) as [r log]. exact H.
Qed.

Lemma keeps_update_session (sessionId : string) (f : SessionState -> SessionState) :
  (forall s, stamped s -> stamped (f s)) -> keeps (update_session sessionId f).
Proof.
  intros Hf app H sid s. unfold update_session, modify. simpl.
  rewrite lookup_alter. destruct (decide (sessionId = sid)) as [->|Hne].
  - destruct (sessionStates app !! sid) as [s0|] eqn:E; simpl; [|discriminate].
    intros Hs. injection Hs as <-. apply Hf. exact (H sid s0 E).
  - apply H.
Qed.

#[local] Hint Resolve keeps_ret keeps_throw keeps_lift_result keeps_emit
  keeps_Date_now keeps_get_session keeps_call_service : keeps.

Ltac keeps_step :=
  first [ apply keeps_bind; [|intros ?]
        | apply keeps_try_catch; [|intros ?]
        | apply keeps_update_session
        | solve [auto with keeps] ].

Lemma keeps_getCurrentLocationWeather (svc : Service) (host : Host) (sessionId : string) :
  keeps (getCurrentLocationWeather svc host sessionId).
Proof.
  unfold getCurrentLocationWeather. keeps_step; [keeps_step|].
  destruct (location_update host); repeat keeps_step.
Qed.

Lemma keeps_handleWeatherCommand (svc : Service) (host : Host) (sessionId : string)
      (command : ParsedVoiceCommand) :
  keeps (handleWeatherCommand svc host sessionId command).
Proof.
  unfold handleWeatherCommand, displayWeatherData, showError.
  keeps_step; [keeps_step|]. keeps_step; [|keeps_step].
  keeps_step.
  - destruct (city_of command); [keeps_step|].
    apply keeps_getCurrentLocationWeather.
  - keeps_step; [keeps_step|]. keeps_step; [keeps_step|].
    match goal with o : option SessionState |- _ => destruct o end; repeat keeps_step.
    intros s0 _ _. discriminate.
Qed.

Lemma keeps_getCurrentWeather (svc : Service) (host : Host) (sessionId : string) :
  keeps (getCurrentWeather svc host sessionId).
Proof.
  pose proof (keeps_handleWeatherCommand svc host sessionId current_command) as Hfresh.
  unfold getCurrentWeather, displayWeatherData. keeps_step; [keeps_step|].
  match goal with o : option SessionState |- _ => destruct o as [st|] end; [|exact Hfresh].
  destruct (lastLocation st); [|exact Hfresh].
  keeps_step; [keeps_step|].
  match goal with |- context [Z.ltb ?a ?b] => destruct (Z.ltb a b) end; [|exact Hfresh].
  destruct (lastWeatherData st); [keeps_step | exact Hfresh].
Qed.

(** The empty app is stamped and every handler keeps it so: the states the
    app reaches are all stamped. *)
Lemma handlers_keep_timestamps (svc : Service) (host : Host) (sessionId : string) :
  timestamped no_sessions /\
  keeps (onSession sessionId) /\
  keeps (onStop sessionId) /\
  (forall text isFinal, keeps (onTranscription svc host sessionId text isFinal)) /\
  (forall button press, keeps (onButtonPress svc host sessionId button press)).
Proof.
  split; [|split; [|split; [|split]]].
  - intros sid s H. unfold no_sessions in H. simpl in H.
    rewrite lookup_empty in H. discriminate.
  - unfold onSession, showWelcomeScreen. keeps_step; [|repeat keeps_step].
    intros app H sid s. unfold modify. simpl.
    rewrite lookup_insert. destruct (decide (sessionId = sid)) as [->|Hne].
    + intros Hs. injection Hs as <-. intros Hw. simpl in Hw. congruence.
    + apply H.
  - intros app H sid s. unfold onStop, modify. simpl.
    rewrite lookup_delete. destruct (decide (sessionId = sid)); [discriminate|].
    apply H.
  - intros text isFinal. unfold onTranscription, showError.
    destruct (negb isFinal); [keeps_step|].
    keeps_step; [|keeps_step]. keeps_step; [keeps_step|].
    apply keeps_handleWeatherCommand.
  - intros button press. unfold onButtonPress, showWelcomeScreen.
    destruct press; [|keeps_step].
    destruct button; [apply keeps_getCurrentWeather | keeps_step | keeps_step].
Qed.

(** *** The decision of [getCurrentWeather] *)

(** A command handled never throws: it ends by a display or by the error
    screen; for the current-location command it first subscribes to the
    location stream. *)
Lemma handle_current_subscribes (svc : Service) (host : Host)
      (sessionId : string) (app : App) :
  exists (tail : list Effect) (app' : App),
    handleWeatherCommand svc host sessionId current_command app = (Ok tt, app') /\
    effects app' = effects app ++ DashboardGettingWeather :: SubscribeLocation :: tail.
Proof.
  unfold handleWeatherCommand, getCurrentLocationWeather, displayWeatherData,
    showError, call_service, update_session, get_session, Date_now,
    emit, modify, try_catch, bind, ret, throw, Ok, Throw.
  cbn [city_of current_command isLocationSpecific].
  cbv beta iota.
  destruct (location_update host) as [locationData|]; cbn [effects sessionStates clock_reads].
  - destruct (getWeatherByCoordinates svc _ []) as [[e|w] log];
      cbn [effects sessionStates clock_reads].
    + do 2 eexists. split; [reflexivity|]. cbn [effects].
      rewrite <- !app_assoc. reflexivity.
    + destruct (alter _ sessionId (sessionStates app) !! sessionId);
        do 2 eexists; (split; [reflexivity|]); cbn [effects];
        rewrite <- !app_assoc; reflexivity.
  - do 2 eexists. split; [reflexivity|]. cbn [effects].
    rewrite <- !app_assoc. reflexivity.
Qed.

Lemma getCurrentWeather_hit (svc : Service) (host : Host) (sessionId : string)
      (app : App) (w : WeatherData) :
  cache_usable (sessionStates app !! sessionId) (clock host (clock_reads app)) w ->
  getCurrentWeather svc host sessionId app = (Ok tt, served_from_cache app w).
Proof.
  intros (s & coordinates & t & Hs & Hloc & Hw & Ht & Hfresh).
  unfold getCurrentWeather, get_session, bind, Date_now, displayWeatherData,
    emit, modify, Ok, lastUpdate_or_0.
  rewrite Hs, Hloc, Ht. cbv beta iota.
  assert ((clock host (clock_reads app) - t <? fiveMinutes)%Z = true) as ->.
  { apply Z.ltb_lt. unfold fiveMinutes. exact Hfresh. }
  rewrite Hw. reflexivity.
Qed.

Lemma getCurrentWeather_miss (svc : Service) (host : Host) (sessionId : string)
      (app : App) :
  timestamped app ->
  (forall w, ~ cache_usable (sessionStates app !! sessionId)
                            (clock host (clock_reads app)) w) ->
  exists app0 : App,
    sessionStates app0 = sessionStates app /\ effects app0 = effects app /\
    getCurrentWeather svc host sessionId app
    = handleWeatherCommand svc host sessionId current_command app0.
Proof.
  intros Hstamped Hmiss.
  unfold getCurrentWeather, get_session, bind, Date_now, Ok.
  destruct (sessionStates app !! sessionId) as [s|] eqn:Hs;
    [|exists app; auto].
  destruct (lastLocation s) as [coordinates|] eqn:Hloc; [|exists app; auto].
  cbv beta iota.
  destruct (clock host (clock_reads app) - lastUpdate_or_0 s <? fiveMinutes)%Z eqn:Hlt;
    [|eexists; split; [|split; [|reflexivity]]; reflexivity].
  destruct (lastWeatherData s) as [w|] eqn:Hw;
    [|eexists; split; [|split; [|reflexivity]]; reflexivity].
  exfalso.
  assert (lastUpdateTime s <> None) as Ht.
  { apply (Hstamped sessionId s Hs). rewrite Hw. discriminate. }
  unfold lastUpdate_or_0 in Hlt.
  destruct (lastUpdateTime s) as [t|] eqn:Et; [|congruence].
  apply (Hmiss w). exists s, coordinates, t.
  apply Z.ltb_lt in Hlt. unfold fiveMinutes in Hlt. auto.
Qed.

Lemma cache_usable_dec (st : option SessionState) (now : Z) :
  (exists w, cache_usable st now w) \/ (forall w, ~ cache_usable st now w).
Proof.
  destruct st as [s|];
    [|right; intros w (s & c & t & H & _); discriminate].
  destruct (lastLocation s) as [c|] eqn:Hloc;
    [|right; intros w (s' & c' & t & H & Hl & _); injection H as <-; congruence].
  destruct (lastWeatherData s) as [w|] eqn:Hw;
    [|right; intros w (s' & c' & t & H & _ & Hw' & _); injection H as <-; congruence].
  destruct (lastUpdateTime s) as [t|] eqn:Ht;
    [|right; intros w' (s' & c' & t & H & _ & _ & Ht' & _); injection H as <-; congruence].
  destruct (Z_lt_dec (now - t) (5 * 60 * 1000)) as [Hlt|Hge].
  - left. exists w, s, c, t. auto.
  - right. intros w' (s' & c' & t' & H & _ & _ & Ht' & Hlt). injection H as <-.
    rewrite Ht in Ht'. injection Ht' as <-. contradiction.
Qed.

End Tables.

End AppFacts.

Import WeatherApp1 SessionSamples.

Section CacheClaim.
Context {unicode : Unicode}.

(** C8: in a state the handlers can reach, [getCurrentWeather] displays the
    stored record, and does nothing else, exactly when the session has a
    last location and a last weather record and the last update is less than
    five minutes old; in every other case it runs the current-location
    command, which subscribes to the location stream for a fresh
    resolution. *)
Theorem current_weather_cache
        (svc : Service) (host : Host) (sessionId : string) (app : App) :
  timestamped app ->
  (forall w : WeatherData,
      cache_usable (sessionStates app !! sessionId) (clock host (clock_reads app)) w ->
      getCurrentWeather svc host sessionId app = (Ok tt, served_from_cache app w)) /\
  ((forall w : WeatherData,
       ~ cache_usable (sessionStates app !! sessionId) (clock host (clock_reads app)) w) ->
   exists (app0 : App) (tail : list Effect) (app' : App),
     sessionStates app0 = sessionStates app /\ effects app0 = effects app /\
     getCurrentWeather svc host sessionId app
     = handleWeatherCommand svc host sessionId current_command app0 /\
     getCurrentWeather svc host sessionId app = (Ok tt, app') /\
     added_effects app app' (DashboardGettingWeather :: SubscribeLocation :: tail)) /\
  (forall w : WeatherData,
      cache_usable (sessionStates app !! sessionId) (clock host (clock_reads app)) w <->
      added_effects app (snd (getCurrentWeather svc host sessionId app))
                    [DisplayWeather w]).
Proof.
  intros Hstamped.
  assert (forall w : WeatherData,
      cache_usable (sessionStates app !! sessionId) (clock host (clock_reads app)) w ->
      getCurrentWeather svc host sessionId app = (Ok tt, served_from_cache app w)) as Hhit.
  { intros w. apply AppFacts.getCurrentWeather_hit. }
  assert ((forall w : WeatherData,
       ~ cache_usable (sessionStates app !! sessionId) (clock host (clock_reads app)) w) ->
   exists (app0 : App) (tail : list Effect) (app' : App),
     sessionStates app0 = sessionStates app /\ effects app0 = effects app /\
     getCurrentWeather svc host sessionId app
     = handleWeatherCommand svc host sessionId current_command app0 /\
     getCurrentWeather svc host sessionId app = (Ok tt, app') /\
     added_effects app app' (DashboardGettingWeather :: SubscribeLocation :: tail))
    as Hmiss.
  { intros Hno.
    destruct (AppFacts.getCurrentWeather_miss svc host sessionId app Hstamped Hno)
      as (app0 & Hst & Heff & Hrun).
    destruct (AppFacts.handle_current_subscribes svc host sessionId app0)
      as (tail & app' & Hh & He).
    exists app0, tail, app'. repeat split; try assumption.
    - rewrite Hrun. exact Hh.
    - unfold added_effects. rewrite He, Heff. reflexivity. }
  split; [exact Hhit|]. split; [exact Hmiss|].
  intros w. split.
  - intros Hu. rewrite (Hhit w Hu). reflexivity.
  - intros Hadded.
    destruct (AppFacts.cache_usable_dec (sessionStates app !! sessionId)
                (clock host (clock_reads app))) as [[w' Hu]|Hno].
    + pose proof (Hhit w' Hu) as Hrun. rewrite Hrun in Hadded.
      unfold added_effects, served_from_cache in Hadded. cbn in Hadded.
      apply app_inv_head in Hadded. injection Hadded as ->. exact Hu.
    + destruct (Hmiss Hno) as (app0 & tail & app' & _ & _ & _ & Hrun & He).
      rewrite Hrun in Hadded. unfold added_effects in *. cbn in Hadded.
      rewrite He in Hadded. apply app_inv_head in Hadded. discriminate.
Qed.

End CacheClaim.

Section CacheInstances.
#[local] Existing Instance Samples.ascii_tables.

Lemma current_weather_cache_witness :
  getCurrentWeather (service_of tokyo_client) steady_host "session-1"
                    (app_updated_at (noon - four_minutes))
    = (Ok tt, served_from_cache (app_updated_at (noon - four_minutes)) tokyo_record) /\
  exists (app0 : App) (tail : list Effect) (app' : App),
    sessionStates app0 = sessionStates (app_updated_at (noon - six_minutes)) /\
    effects app0 = effects (app_updated_at (noon - six_minutes)) /\
    getCurrentWeather (service_of tokyo_client) steady_host "session-1"
                      (app_updated_at (noon - six_minutes))
    = handleWeatherCommand (service_of tokyo_client) steady_host "session-1"
                           current_command app0 /\
    getCurrentWeather (service_of tokyo_client) steady_host "session-1"
                      (app_updated_at (noon - six_minutes)) = (Ok tt, app') /\
    added_effects (app_updated_at (noon - six_minutes)) app'
                  (DashboardGettingWeather :: SubscribeLocation :: tail).
Proof.
  assert (forall t, timestamped (app_updated_at t)) as Hstamped.
  { intros t sid s H. unfold app_updated_at in H. simpl in H.
    apply lookup_singleton_Some in H as [_ <-]. intros _. discriminate. }
  split.
  - apply (proj1 (current_weather_cache (service_of tokyo_client) steady_host "session-1"
                    (app_updated_at (noon - four_minutes)) (Hstamped _)) tokyo_record).
    exists (session_updated_at (noon - four_minutes)), somewhere, (noon - four_minutes)%Z.
    split; [vm_compute; reflexivity|]. repeat split.
  - apply (proj1 (proj2 (current_weather_cache (service_of tokyo_client) steady_host
                           "session-1" (app_updated_at (noon - six_minutes))
                           (Hstamped _)))).
    intros w (s & coordinates & t & Hs & _ & _ & Ht & Hlt).
    vm_compute in Hs. injection Hs as <-.
    injection Ht as <-.
    vm_compute in Hlt. discriminate Hlt.
Defined.

End CacheInstances.

(** * Further properties of the code *)

(** ** Normalisation of the transcript *)

Module NormalFacts.
Import JsString Chars StringFacts.

Lemma lower_char_idempotent (c : code_unit) : lower_char (lower_char c) = lower_char c.
Proof. unit_cases c. Qed.

Lemma lower_upper_char (c : code_unit) : lower_char (upper_char c) = lower_char c.
Proof. unit_cases c. Qed.

Lemma upper_char_idempotent (c : code_unit) : upper_char (upper_char c) = upper_char c.
Proof. unit_cases c. Qed.

(** White space lies below the letters or above them. *)
Lemma whitespace_range (c : code_unit) :
  is_whitespace c = true -> (c <= 32 \/ 160 <= c)%N.
Proof.
  unfold is_whitespace.
  rewrite !orb_true_iff, !andb_true_iff, !N.leb_le, !N.eqb_eq. lia.
Qed.

Lemma whitespace_lower (c : code_unit) : is_whitespace (lower_char c) = is_whitespace c.
Proof.
  unfold lower_char. destruct (is_upper c) eqn:E; [|reflexivity].
  unfold is_upper in E. apply andb_true_iff in E as [H1 H2].
  apply N.leb_le in H1, H2.
  destruct (is_whitespace (c + 32)%N) eqn:Ha; destruct (is_whitespace c) eqn:Hb;
    try reflexivity;
    try (apply whitespace_range in Ha; lia); apply whitespace_range in Hb; lia.
Qed.

Lemma space_upper (c : code_unit) : (upper_char c =? space)%N = (c =? space)%N.
Proof. unit_cases c. Qed.

Lemma ascii_unit_lower (c : code_unit) : is_ascii_unit (lower_char c) = is_ascii_unit c.
Proof. unit_cases c. Qed.

Lemma ascii_unit_upper (c : code_unit) : is_ascii_unit (upper_char c) = is_ascii_unit c.
Proof. unit_cases c. Qed.

Lemma ascii_lower_idempotent (s : string) : ascii_lower (ascii_lower s) = ascii_lower s.
Proof.
  induction s as [|c s IH]; [reflexivity|].
  cbn [ascii_lower]. rewrite lower_char_idempotent, IH. reflexivity.
Qed.

Lemma ascii_lower_upper (s : string) : ascii_lower (ascii_upper s) = ascii_lower s.
Proof.
  induction s as [|c s IH]; [reflexivity|].
  cbn [ascii_lower ascii_upper]. rewrite lower_upper_char, IH. reflexivity.
Qed.

Lemma is_ascii_lower (s : string) : is_ascii (ascii_lower s) = is_ascii s.
Proof.
  induction s as [|c s IH]; [reflexivity|].
  cbn [ascii_lower is_ascii]. rewrite ascii_unit_lower, IH. reflexivity.
Qed.

Lemma is_ascii_upper (s : string) : is_ascii (ascii_upper s) = is_ascii s.
Proof.
  induction s as [|c s IH]; [reflexivity|].
  cbn [ascii_upper is_ascii]. rewrite ascii_unit_upper, IH. reflexivity.
Qed.

Lemma trimStart_ascii_lower (s : string) :
  trimStart (ascii_lower s) = ascii_lower (trimStart s).
Proof.
  induction s as [|c s IH]; [reflexivity|].
  cbn [ascii_lower trimStart]. rewrite whitespace_lower.
  destruct (is_whitespace c); [exact IH | reflexivity].
Qed.

Lemma trimEnd_ascii_lower (s : string) :
  trimEnd (ascii_lower s) = ascii_lower (trimEnd s).
Proof.
  induction s as [|c s IH]; [reflexivity|].
  cbn [ascii_lower trimEnd]. rewrite IH, whitespace_lower.
  destruct (trimEnd s) as [|d r]; cbn [ascii_lower]; [|reflexivity].
  destruct (is_whitespace c); reflexivity.
Qed.

(** On ASCII text, lower-casing and trimming can be done in either order. *)
Lemma trim_ascii_lower (s : string) : trim (ascii_lower s) = ascii_lower (trim s).
Proof. unfold trim. rewrite trimStart_ascii_lower, trimEnd_ascii_lower. reflexivity. Qed.

Lemma trimStart_idempotent (s : string) : trimStart (trimStart s) = trimStart s.
Proof.
  induction s as [|c s IH]; [reflexivity|].
  cbn [trimStart]. destruct (is_whitespace c) eqn:E; [exact IH|].
  cbn [trimStart]. rewrite E. reflexivity.
Qed.

Lemma trim_idempotent (s : string) : trim (trim s) = trim s.
Proof.
  unfold trim. rewrite (trimStart_trimEnd (trimStart s)), trimStart_idempotent.
  apply trimEnd_idempotent.
Qed.

Lemma all_chars_trimStart (P : code_unit -> bool) (s : string) :
  all_chars P s = true -> all_chars P (trimStart s) = true.
Proof.
  induction s as [|c s IH]; [reflexivity|].
  cbn [trimStart]. destruct (is_whitespace c); [|auto].
  cbn [all_chars]. intros H. apply andb_true_iff in H as [_ H]. auto.
Qed.

Lemma all_chars_trimEnd (P : code_unit -> bool) (s : string) :
  all_chars P s = true -> all_chars P (trimEnd s) = true.
Proof.
  induction s as [|c s IH]; [reflexivity|].
  cbn [all_chars trimEnd]. intros H. apply andb_true_iff in H as [Hc Hs].
  specialize (IH Hs). destruct (trimEnd s) as [|d r].
  - destruct (is_whitespace c); [reflexivity|]. cbn [all_chars]. rewrite Hc. reflexivity.
  - cbn [all_chars] in *. rewrite Hc, IH. reflexivity.
Qed.

Lemma all_chars_trim (P : code_unit -> bool) (s : string) :
  all_chars P s = true -> all_chars P (trim s) = true.
Proof. intros H. unfold trim. apply all_chars_trimEnd, all_chars_trimStart, H. Qed.

Lemma is_ascii_all_chars (s : string) : is_ascii s = all_chars is_ascii_unit s.
Proof. induction s as [|c s IH]; [reflexivity|]. cbn. rewrite IH. reflexivity. Qed.

Lemma is_ascii_trim (s : string) : is_ascii s = true -> is_ascii (trim s) = true.
Proof. rewrite !is_ascii_all_chars. apply all_chars_trim. Qed.

Lemma ascii_lower_lower_cased (s : string) :
  all_chars is_lower_cased (ascii_lower s) = true.
Proof.
  induction s as [|c s IH]; [reflexivity|].
  cbn [ascii_lower all_chars]. rewrite IH. unfold is_lower_cased.
  rewrite lower_char_idempotent, N.eqb_refl. reflexivity.
Qed.

Lemma lower_cased_fixed (s : string) :
  all_chars is_lower_cased s = true -> ascii_lower s = s.
Proof.
  induction s as [|c s IH]; [reflexivity|].
  cbn [ascii_lower all_chars]. intros H. apply andb_true_iff in H as [Hc Hs].
  apply N.eqb_eq in Hc. rewrite Hc, (IH Hs). reflexivity.
Qed.

Lemma no_terminator_trimStart (s : string) :
  has_line_terminator s = false -> has_line_terminator (trimStart s) = false.
Proof.
  induction s as [|c s IH]; [reflexivity|].
  cbn [trimStart]. destruct (is_whitespace c); [|auto].
  cbn [has_line_terminator]. intros H. apply orb_false_iff in H as [_ H]. auto.
Qed.

Lemma no_terminator_trim (s : string) :
  has_line_terminator s = false -> has_line_terminator (trim s) = false.
Proof.
  intros H. unfold trim.
  apply has_line_terminator_trimEnd, no_terminator_trimStart, H.
Qed.

Section Tables.
Context {unicode : Unicode}.

(** The normal form the parser works on: for ASCII text it is the same
    whatever the case of the letters and the white space around. *)
Lemma normal_of_upper (text : string) :
  is_ascii text = true ->
  trim (toLowerCase (toUpperCase text)) = trim (toLowerCase text).
Proof.
  intros H. rewrite (toUpperCase_ascii text H).
  rewrite toLowerCase_ascii by (rewrite is_ascii_upper; exact H).
  rewrite (toLowerCase_ascii text H), ascii_lower_upper. reflexivity.
Qed.

Lemma normal_of_lower (text : string) :
  is_ascii text = true ->
  trim (toLowerCase (toLowerCase text)) = trim (toLowerCase text).
Proof.
  intros H. rewrite (toLowerCase_ascii text H).
  rewrite toLowerCase_ascii by (rewrite is_ascii_lower; exact H).
  rewrite ascii_lower_idempotent. reflexivity.
Qed.

Lemma normal_of_trim (text : string) :
  is_ascii text = true ->
  trim (toLowerCase (trim text)) = trim (toLowerCase text).
Proof.
  intros H. rewrite (toLowerCase_ascii text H).
  rewrite toLowerCase_ascii by (apply is_ascii_trim; exact H).
  rewrite <- trim_ascii_lower, trim_idempotent. reflexivity.
Qed.

End Tables.

End NormalFacts.

(** ** What a capture is made of *)

Module CaptureFacts.
Import JsString RegExp Parser Chars StringFacts NormalFacts.

Lemma all_chars_tail (P : code_unit -> bool) (a : code_unit) (s : string) :
  all_chars P (String a s) = true -> all_chars P s = true.
Proof. cbn [all_chars]. intros H. apply andb_true_iff in H as [_ H]. exact H. Qed.

(** The group takes characters of the text, none of them a line terminator. *)
Lemma dot_plus_chars {R : Type} (P : code_unit -> bool) (k : string -> option R)
      (s cap : string) (r : R) :
  all_chars P s = true -> dot_plus k s = Some (cap, r) -> all_chars P cap = true.
Proof.
  revert cap r. induction s as [|a s IH]; intros cap r Hs; cbn [dot_plus]; [discriminate|].
  cbn [all_chars] in Hs. apply andb_true_iff in Hs as [Ha Hs].
  destruct (is_line_terminator a); [discriminate|].
  destruct (dot_plus k s) as [[cap' r']|].
  - intros H. injection H as <- <-. cbn [all_chars]. rewrite Ha, (IH cap' r' Hs eq_refl).
    reflexivity.
  - destruct (k s); [|discriminate]. intros H. injection H as <- <-.
    cbn [all_chars]. rewrite Ha. reflexivity.
Qed.

Lemma dot_plus_single_line {R : Type} (k : string -> option R) (s cap : string) (r : R) :
  dot_plus k s = Some (cap, r) -> has_line_terminator cap = false.
Proof.
  revert cap r. induction s as [|a s IH]; intros cap r; cbn [dot_plus]; [discriminate|].
  destruct (is_line_terminator a) eqn:Ea; [discriminate|].
  destruct (dot_plus k s) as [[cap' r']|].
  - intros H. injection H as <- <-. cbn [has_line_terminator].
    rewrite Ea, (IH cap' r' eq_refl). reflexivity.
  - destruct (k s); [|discriminate]. intros H. injection H as <- <-.
    cbn [has_line_terminator]. rewrite Ea. reflexivity.
Qed.

Lemma match_here_chars (P : code_unit -> bool) (p : regex) (s X : string) :
  all_chars P s = true -> match_here p s = Some (Some X) -> all_chars P X = true.
Proof.
  revert s. induction p as [|[c|c|] p IH]; intros s Hs; cbn [match_here].
  - discriminate.
  - destruct s as [|a s]; [discriminate|].
    destruct (eqb_ci c a); [|discriminate]. apply IH. eapply all_chars_tail, Hs.
  - destruct s as [|a s]; [apply IH, Hs|].
    destruct (eqb_ci c a); [|apply IH, Hs].
    destruct (match_here p s) as [r|] eqn:E; [|apply IH, Hs].
    intros H. injection H as ->. apply (IH s); [eapply all_chars_tail, Hs | exact E].
  - destruct (dot_plus (match_here p) s) as [[cap r]|] eqn:E; [|discriminate].
    intros H. injection H as <-. eapply dot_plus_chars; eauto.
Qed.

Lemma match_here_single_line (p : regex) (s X : string) :
  match_here p s = Some (Some X) -> has_line_terminator X = false.
Proof.
  revert s. induction p as [|[c|c|] p IH]; intros s; cbn [match_here].
  - discriminate.
  - destruct s as [|a s]; [discriminate|].
    destruct (eqb_ci c a); [|discriminate]. apply IH.
  - destruct s as [|a s]; [apply IH|].
    destruct (eqb_ci c a); [|apply IH].
    destruct (match_here p s) as [r|] eqn:E; [|apply IH].
    intros H. injection H as ->. exact (IH s E).
  - destruct (dot_plus (match_here p) s) as [[cap r]|] eqn:E; [|discriminate].
    intros H. injection H as <-. eapply dot_plus_single_line; eauto.
Qed.

Lemma exec_chars (P : code_unit -> bool) (p : regex) (s X : string) :
  all_chars P s = true -> exec p s = Some (Some X) -> all_chars P X = true.
Proof.
  induction s as [|a s IH]; intros Hs; cbn [exec].
  - destruct (match_here p EmptyString) eqn:E; [|discriminate].
    intros H. injection H as ->. eapply match_here_chars; eauto.
  - destruct (match_here p (String a s)) eqn:E.
    + intros H. injection H as ->. eapply match_here_chars; eauto.
    + apply IH. eapply all_chars_tail, Hs.
Qed.

Lemma exec_single_line (p : regex) (s X : string) :
  exec p s = Some (Some X) -> has_line_terminator X = false.
Proof.
  induction s as [|a s IH]; cbn [exec].
  - destruct (match_here p EmptyString) eqn:E; [|discriminate].
    intros H. injection H as ->. eapply match_here_single_line; eauto.
  - destruct (match_here p (String a s)) eqn:E; [|exact IH].
    intros H. injection H as ->. eapply match_here_single_line; eauto.
Qed.

Section Tables.
Context {unicode : Unicode}.

(** What the loop returns is the trimmed capture of one of its patterns. *)
Lemma first_location_capture (ps : list regex) (t l : string) :
  first_location ps t = Some l ->
  exists (p : regex) (m1 : string),
    In p ps /\ exec p t = Some (Some m1) /\ l = trim m1.
Proof.
  induction ps as [|p ps IH]; cbn [first_location]; [discriminate|].
  destruct (try_pattern p t) as [l'|] eqn:E.
  - intros H. injection H as <-. unfold try_pattern in E.
    destruct (exec p t) as [[m1|]|] eqn:Ex; try discriminate.
    destruct (truthy m1); [|discriminate].
    destruct (negb (isGenericLocation (trim m1))); [|discriminate].
    injection E as <-. exists p, m1. repeat split; [left; reflexivity | exact Ex].
  - intros H. destruct (IH H) as (q & m1 & Hin & Hex & Hl).
    exists q, m1. repeat split; [right; exact Hin | exact Hex | exact Hl].
Qed.

Lemma first_location_app (ps qs : list regex) (t : string) :
  first_location (ps ++ qs) t =
  match first_location ps t with
  | Some l => Some l
  | None => first_location qs t
  end.
Proof.
  induction ps as [|p ps IH]; [reflexivity|].
  cbn [app first_location]. destruct (try_pattern p t); [reflexivity | exact IH].
Qed.

(** The shape of a city: trimmed, on one line, made of characters of the
    text it was found in. *)
Lemma first_location_shape (ps : list regex) (t l : string) :
  first_location ps t = Some l ->
  trim l = l /\ has_line_terminator l = false /\
  forall P : code_unit -> bool, all_chars P t = true -> all_chars P l = true.
Proof.
  intros H. destruct (first_location_capture _ _ _ H) as (p & m1 & _ & Hex & ->).
  split; [apply trim_idempotent|]. split.
  - apply no_terminator_trim. eapply exec_single_line; eauto.
  - intros P HP. apply all_chars_trim. apply (exec_chars P p t); assumption.
Qed.

(** The city found in an ASCII transcript is ASCII and lower-cased. *)
Lemma first_location_ascii (ps : list regex) (text l : string) :
  is_ascii text = true ->
  first_location ps (trim (toLowerCase text)) = Some l ->
  is_ascii l = true /\ toLowerCase l = l.
Proof.
  intros HA H. rewrite (toLowerCase_ascii text HA) in H.
  destruct (first_location_shape ps _ l H) as (_ & _ & Hchars).
  assert (is_ascii l = true) as Hl.
  { rewrite is_ascii_all_chars. apply Hchars. rewrite <- is_ascii_all_chars.
    apply is_ascii_trim. rewrite is_ascii_lower. exact HA. }
  split; [exact Hl|]. rewrite (toLowerCase_ascii l Hl).
  apply lower_cased_fixed, Hchars, all_chars_trim, ascii_lower_lower_cased.
Qed.

Lemma parse_location (text : string) (cmd : ParsedVoiceCommand) (c : string) :
  WeatherApp1.parseVoiceCommand text = Ok cmd \/
  WeatherApp2.parseVoiceCommand text = Ok cmd ->
  location cmd = Some c ->
  cmd = city_command c /\
  exists ps : list regex,
    (forall p, In p ps -> In p WeatherApp2.locationPatterns) /\
    first_location ps (trim (toLowerCase text)) = Some c.
Proof.
  intros Hparse Hc. destruct Hparse as [H|H].
  - unfold WeatherApp1.parseVoiceCommand in H.
    destruct (first_location _ _) as [l|] eqn:E.
    + injection H as <-. injection Hc as <-. split; [reflexivity|].
      exists WeatherApp1.locationPatterns. split; [|exact E].
      intros p [<-|[<-|[<-|[<-|[]]]]]; cbn; auto.
    + destruct (existsb _ _); [|discriminate]. injection H as <-. discriminate.
  - unfold WeatherApp2.parseVoiceCommand in H.
    destruct (first_location _ _) as [l|] eqn:E; [|discriminate].
    injection H as <-. injection Hc as <-. split; [reflexivity|].
    exists WeatherApp2.locationPatterns. auto.
Qed.

End Tables.

End CaptureFacts.

(** ** More on the command parser *)

Import JsString RegExp Parser Chars.

Section ParserProperties.
Context {unicode : Unicode}.

(** X1: on a transcript of ASCII characters the parsers do not see letter
    case or surrounding white space: upper-casing, lower-casing or trimming
    the transcript changes nothing of what either variant returns. *)
Theorem parse_ignores_case_and_padding (text : string) :
  is_ascii text = true ->
  (WeatherApp1.parseVoiceCommand (toUpperCase text) = WeatherApp1.parseVoiceCommand text /\
   WeatherApp1.parseVoiceCommand (toLowerCase text) = WeatherApp1.parseVoiceCommand text /\
   WeatherApp1.parseVoiceCommand (trim text) = WeatherApp1.parseVoiceCommand text) /\
  (WeatherApp2.parseVoiceCommand (toUpperCase text) = WeatherApp2.parseVoiceCommand text /\
   WeatherApp2.parseVoiceCommand (toLowerCase text) = WeatherApp2.parseVoiceCommand text /\
   WeatherApp2.parseVoiceCommand (trim text) = WeatherApp2.parseVoiceCommand text).
Proof.
  intros H. unfold WeatherApp1.parseVoiceCommand, WeatherApp2.parseVoiceCommand.
  rewrite (NormalFacts.normal_of_upper text H), (NormalFacts.normal_of_lower text H),
    (NormalFacts.normal_of_trim text H).
  repeat split.
Qed.

(** X2: the variant that requires a city recognises every city the other
    variant does, and the same one; where it throws, the other variant
    returns no city either: it answers with the current-location command or
    throws. *)
Theorem variants_agree_on_cities (text : string) :
  (forall c : string,
      WeatherApp1.parseVoiceCommand text = Ok (city_command c) ->
      WeatherApp2.parseVoiceCommand text = Ok (city_command c)) /\
  (forall e : Thrown,
      WeatherApp2.parseVoiceCommand text = Throw e ->
      WeatherApp1.parseVoiceCommand text = Ok current_command \/
      WeatherApp1.parseVoiceCommand text = Throw (JsError "Unrecognized weather command")).
Proof.
  unfold WeatherApp1.parseVoiceCommand, WeatherApp2.parseVoiceCommand.
  change WeatherApp2.locationPatterns
    with (WeatherApp1.locationPatterns ++ [weather_for; tell_me_the_weather_in]).
  rewrite CaptureFacts.first_location_app.
  destruct (first_location WeatherApp1.locationPatterns _) as [l|].
  - split; [auto | discriminate].
  - split.
    + destruct (existsb _ _); discriminate.
    + intros e _. destruct (existsb _ _); auto.
Qed.

(** X3: the city of a returned command is always trimmed and on one line,
    with no line terminator in it and no white space around it; for a
    transcript of ASCII characters it is made of ASCII characters and is
    lower-cased as well: it is a piece of the normalised transcript. *)
Theorem city_is_normalised (text : string) (cmd : ParsedVoiceCommand) (c : string) :
  WeatherApp1.parseVoiceCommand text = Ok cmd \/
  WeatherApp2.parseVoiceCommand text = Ok cmd ->
  location cmd = Some c ->
  trim c = c /\ has_line_terminator c = false /\
  (is_ascii text = true -> is_ascii c = true /\ toLowerCase c = c).
Proof.
  intros Hparse Hc.
  destruct (CaptureFacts.parse_location text cmd c Hparse Hc) as (_ & ps & _ & Hps).
  destruct (CaptureFacts.first_location_shape ps _ c Hps) as (Ht & Hn & _).
  split; [exact Ht|]. split; [exact Hn|].
  intros HA. exact (CaptureFacts.first_location_ascii ps text c HA Hps).
Qed.

End ParserProperties.

Section ParserPropertyInstances.
#[local] Existing Instance Samples.ascii_tables.

Lemma parse_ignores_case_and_padding_witness :
  (WeatherApp1.parseVoiceCommand (toUpperCase "  Weather in Oslo ")
     = WeatherApp1.parseVoiceCommand "  Weather in Oslo " /\
   WeatherApp1.parseVoiceCommand (toLowerCase "  Weather in Oslo ")
     = WeatherApp1.parseVoiceCommand "  Weather in Oslo " /\
   WeatherApp1.parseVoiceCommand (trim "  Weather in Oslo ")
     = WeatherApp1.parseVoiceCommand "  Weather in Oslo ") /\
  (WeatherApp2.parseVoiceCommand (toUpperCase "  Weather in Oslo ")
     = WeatherApp2.parseVoiceCommand "  Weather in Oslo " /\
   WeatherApp2.parseVoiceCommand (toLowerCase "  Weather in Oslo ")
     = WeatherApp2.parseVoiceCommand "  Weather in Oslo " /\
   WeatherApp2.parseVoiceCommand (trim "  Weather in Oslo ")
     = WeatherApp2.parseVoiceCommand "  Weather in Oslo ").
Proof.
  apply (parse_ignores_case_and_padding "  Weather in Oslo "). reflexivity.
Defined.

Lemma city_is_normalised_witness :
  trim "new york" = "new york" /\ has_line_terminator "new york" = false /\
  (is_ascii "  NEW York Weather " = true ->
   is_ascii "new york" = true /\ toLowerCase "new york" = "new york").
Proof.
  apply (city_is_normalised "  NEW York Weather " (city_command "new york") "new york").
  - left. reflexivity.
  - reflexivity.
Defined.

Lemma variants_agree_on_cities_witness :
  WeatherApp2.parseVoiceCommand "Weather in Oslo" = Ok (city_command "oslo") /\
  (WeatherApp1.parseVoiceCommand "hello there" = Ok current_command \/
   WeatherApp1.parseVoiceCommand "hello there"
     = Throw (JsError "Unrecognized weather command")).
Proof.
  split.
  - apply (proj1 (variants_agree_on_cities "Weather in Oslo") "oslo"). reflexivity.
  - apply (proj2 (variants_agree_on_cities "hello there")
                 (JsError "Please specify a city name")).
    reflexivity.
Defined.

End ParserPropertyInstances.

(** ** More on the weather service *)

Module RequestFacts.
Import JsString Http WeatherService Samples Numbers.

Section Tables.
Context {unicode : Unicode}.

(** What [getWeatherByCity] does, by the answers of the remote side. *)
Lemma city_run (svc : Service) (cityName : string) (log : Log) :
  getWeatherByCity svc cityName log =
  match geo_direct (client svc) cityName 1 (apiKey svc) with
  | inl e =>
      (Throw (if instanceof_Error e then e else fetch_failed),
       log ++ [GeoDirect cityName 1 (apiKey svc)])
  | inr [] =>
      (Throw (city_not_found cityName), log ++ [GeoDirect cityName 1 (apiKey svc)])
  | inr (first :: _) =>
      (match get_weather (client svc) (lat first) (lon first) (apiKey svc) "imperial" with
       | inl e => Throw (if instanceof_Error e then e else fetch_failed)
       | inr data =>
           match transformWeatherData data with
           | inl e => Throw (if instanceof_Error e then e else fetch_failed)
           | inr w => Ok w
           end
       end,
       (log ++ [GeoDirect cityName 1 (apiKey svc)])
         ++ [GetWeather (lat first) (lon first) (apiKey svc) "imperial"])
  end.
Proof.
  unfold getWeatherByCity, try_catch, bind, axios_get_geo, axios_get_weather,
    lift_result, throw, Throw, Ok.
  destruct (geo_direct _ _ _ _) as [e|[|first others]]; cbv beta iota.
  - destruct (instanceof_Error e); reflexivity.
  - reflexivity.
  - destruct (get_weather _ _ _ _ _) as [e|data]; cbv beta iota.
    + destruct (instanceof_Error e); reflexivity.
    + destruct (transformWeatherData data) as [e|w]; cbv beta iota; [|reflexivity].
      destruct (instanceof_Error e); reflexivity.
Qed.

Lemma coordinates_run (svc : Service) (coordinates : LocationCoordinates) (log : Log) :
  getWeatherByCoordinates svc coordinates log =
  (match get_weather (client svc) (latitude coordinates) (longitude coordinates)
                     (apiKey svc) "imperial" with
   | inl _ => Throw fetch_failed
   | inr data =>
       match transformWeatherData data with
       | inl _ => Throw fetch_failed
       | inr w => Ok w
       end
   end,
   log ++ [GetWeather (latitude coordinates) (longitude coordinates)
                      (apiKey svc) "imperial"]).
Proof.
  unfold getWeatherByCoordinates, try_catch, bind, axios_get_weather,
    lift_result, throw, Throw, Ok.
  destruct (get_weather _ _ _ _ _) as [e|data]; cbv beta iota; [reflexivity|].
  destruct (transformWeatherData data) as [e|w]; reflexivity.
Qed.

(** The transform throws nothing but an [Error]. *)
Lemma transform_throws_errors (data : WeatherApiResponse) (e : Thrown) :
  transformWeatherData data = Throw e -> instanceof_Error e = true.
Proof.
  unfold transformWeatherData, weather0_description.
  destruct (nth_error (weather_list data) 0); [discriminate|].
  intros H. injection H as <-. reflexivity.
Qed.

Lemma rounded_is_whole (x : number) : is_whole (Math_round x).
Proof. exists (Qfloor (x + (1 # 2))). reflexivity. Qed.

Lemma rounded_is_near (x : number) : near (Math_round x) x.
Proof.
  destruct (ServiceFacts.Math_round_nearest x) as [H1 H2].
  unfold near. split; lra.
Qed.

Lemma capitalize_ascii_idempotent (b : bool) (s : string) :
  capitalize_ascii b (capitalize_ascii b s) = capitalize_ascii b s.
Proof.
  revert b. induction s as [|c s IH]; intros b; [reflexivity|].
  cbn [capitalize_ascii].
  destruct b; [rewrite NormalFacts.space_upper, NormalFacts.upper_char_idempotent|];
    rewrite IH; reflexivity.
Qed.

Lemma capitalize_ascii_length (b : bool) (s : string) :
  length (capitalize_ascii b s) = length s.
Proof.
  revert b. induction s as [|c s IH]; intros b; [reflexivity|].
  cbn [capitalize_ascii length]. rewrite IH. reflexivity.
Qed.

Lemma capitalize_ascii_lower (b : bool) (s : string) :
  ascii_lower (capitalize_ascii b s) = ascii_lower s.
Proof.
  revert b. induction s as [|c s IH]; intros b; [reflexivity|].
  cbn [capitalize_ascii ascii_lower]. rewrite IH.
  destruct b; [rewrite NormalFacts.lower_upper_char|]; reflexivity.
Qed.

Lemma capitalize_ascii_is_ascii (b : bool) (s : string) :
  is_ascii (capitalize_ascii b s) = is_ascii s.
Proof.
  revert b. induction s as [|c s IH]; intros b; [reflexivity|].
  cbn [capitalize_ascii is_ascii]. rewrite IH.
  destruct b; [rewrite NormalFacts.ascii_unit_upper|]; reflexivity.
Qed.

(** On ASCII text the scan is the one that maps character to character. *)
Lemma capitalize_scan_ascii (b : bool) (s : string) :
  is_ascii s = true -> capitalize_scan b s = capitalize_ascii b s.
Proof.
  revert b. induction s as [|c s IH]; intros b; [reflexivity|].
  cbn [is_ascii capitalize_scan capitalize_ascii]. intros H.
  apply andb_true_iff in H as [Hc Hs]. rewrite (IH _ Hs).
  destruct b; [|reflexivity].
  unfold toUpperCase. cbn [is_ascii]. rewrite Hc. reflexivity.
Qed.

Lemma capitalize_scan_app (b : bool) (s1 s2 : string) :
  capitalize_scan b (s1 ++ String space s2)
  = (capitalize_scan b s1 ++ String space (capitalize_scan true s2))%str.
Proof.
  revert b. induction s1 as [|c s1 IH]; intros b.
  - change (EmptyString ++ String space s2)%str with (String space s2).
    cbn [capitalize_scan]. destruct b; reflexivity.
  - rewrite StringFacts.append_cons. cbn [capitalize_scan].
    rewrite IH, StringFacts.append_assoc. reflexivity.
Qed.

End Tables.

End RequestFacts.

Import Http WeatherService Samples Numbers.

Section ServiceProperties.
Context {unicode : Unicode}.

(** X4: a lookup by coordinates sends exactly one request, the weather
    request for those coordinates in imperial units with the service's key,
    and never a geocoding request; it returns the transformed payload, or
    throws the one generic error, whatever went wrong. *)
Theorem coordinates_lookup_outcomes
        (svc : Service) (coordinates : LocationCoordinates) (log : Log) :
  snd (getWeatherByCoordinates svc coordinates log)
    = log ++ [GetWeather (latitude coordinates) (longitude coordinates)
                         (apiKey svc) "imperial"] /\
  (forall e : Thrown,
      fst (getWeatherByCoordinates svc coordinates log) = Throw e -> e = fetch_failed) /\
  (forall w : WeatherData,
      fst (getWeatherByCoordinates svc coordinates log) = Ok w <->
      exists data : WeatherApiResponse,
        get_weather (client svc) (latitude coordinates) (longitude coordinates)
                    (apiKey svc) "imperial" = Ok data /\
        transformWeatherData data = Ok w).
Proof.
  rewrite RequestFacts.coordinates_run. cbn [fst snd].
  split; [reflexivity|].
  destruct (get_weather _ _ _ _ _) as [e0|data].
  - split.
    + intros e H. injection H as <-. reflexivity.
    + intros w. split; [discriminate|]. intros (data & H & _). discriminate.
  - destruct (transformWeatherData data) as [e0|w0] eqn:E.
    + split.
      * intros e H. injection H as <-. reflexivity.
      * intros w. split; [discriminate|].
        intros (data' & H & H'). injection H as <-. rewrite E in H'. discriminate.
    + split.
      * intros e H. discriminate.
      * intros w. split.
        -- intros H. injection H as <-. exists data. auto.
        -- intros (data' & H & H'). injection H as <-. rewrite E in H'.
           injection H' as <-. reflexivity.
Qed.

(** X5: a lookup by city always begins with the geocoding request for the
    city name as given, with limit 1; a weather request follows only when
    geocoding found something, and then for the coordinates of the first
    match; nothing else is ever sent. *)
Theorem city_lookup_requests (svc : Service) (cityName : string) (log : Log) :
  snd (getWeatherByCity svc cityName log)
    = log ++ [GeoDirect cityName 1 (apiKey svc)] \/
  exists (first : GeocodingResponse) (others : list GeocodingResponse),
    geo_direct (client svc) cityName 1 (apiKey svc) = Ok (first :: others) /\
    snd (getWeatherByCity svc cityName log)
      = log ++ [GeoDirect cityName 1 (apiKey svc);
                GetWeather (lat first) (lon first) (apiKey svc) "imperial"].
Proof.
  rewrite RequestFacts.city_run.
  destruct (geo_direct _ _ _ _) as [e|[|first others]]; cbn [snd]; auto.
  right. exists first, others. split; [reflexivity|].
  rewrite <- app_assoc. reflexivity.
Qed.

(** X6: a lookup by city succeeds exactly when geocoding finds a match, the
    weather request for the first match is answered and its payload can be
    transformed; the record returned is that transform, and the matches
    after the first play no part. *)
Theorem city_lookup_success (svc : Service) (cityName : string) (log : Log)
        (w : WeatherData) :
  fst (getWeatherByCity svc cityName log) = Ok w <->
  exists (first : GeocodingResponse) (others : list GeocodingResponse)
         (data : WeatherApiResponse),
    geo_direct (client svc) cityName 1 (apiKey svc) = Ok (first :: others) /\
    get_weather (client svc) (lat first) (lon first) (apiKey svc) "imperial" = Ok data /\
    transformWeatherData data = Ok w.
Proof.
  rewrite RequestFacts.city_run.
  destruct (geo_direct _ _ _ _) as [e|[|first others]]; cbn [fst].
  - split; [discriminate|]. intros (f & o & d & H & _). discriminate.
  - split; [discriminate|]. intros (f & o & d & H & _). discriminate.
  - destruct (get_weather _ _ _ _ _) as [e|data] eqn:Ew.
    + split; [discriminate|].
      intros (f & o & d & H & H' & _). injection H as <- <-.
      rewrite Ew in H'. discriminate.
    + destruct (transformWeatherData data) as [e|w0] eqn:Et.
      * split; [discriminate|].
        intros (f & o & d & H & H' & H''). injection H as <- <-.
        rewrite Ew in H'. injection H' as <-. rewrite Et in H''. discriminate.
      * split.
        -- intros H. injection H as <-. exists first, others, data. auto.
        -- intros (f & o & d & H & H' & H''). injection H as <- <-.
           rewrite Ew in H'. injection H' as <-. rewrite Et in H''.
           injection H'' as <-. reflexivity.
Qed.

(** X7: whatever either lookup throws is an [Error] instance, so a caller
    that shows [error.message] always has a message to show. *)
Theorem lookups_throw_errors (svc : Service) (log : Log) (e : Thrown) :
  (forall cityName : string,
      fst (getWeatherByCity svc cityName log) = Throw e -> instanceof_Error e = true) /\
  (forall coordinates : LocationCoordinates,
      fst (getWeatherByCoordinates svc coordinates log) = Throw e ->
      instanceof_Error e = true).
Proof.
  split.
  - intros cityName. rewrite RequestFacts.city_run.
    assert (forall e0, instanceof_Error (if instanceof_Error e0 then e0 else fetch_failed)
                       = true) as Hre.
    { intros e0. destruct (instanceof_Error e0) eqn:E0; [exact E0 | reflexivity]. }
    destruct (geo_direct _ _ _ _) as [e0|[|first others]]; cbn [fst]; intros H.
    + injection H as <-. apply Hre.
    + injection H as <-. reflexivity.
    + destruct (get_weather _ _ _ _ _) as [e0|data].
      * injection H as <-. apply Hre.
      * destruct (transformWeatherData data) as [e0|w0]; [|discriminate].
        injection H as <-. apply Hre.
  - intros coordinates. rewrite RequestFacts.coordinates_run. cbn [fst].
    destruct (get_weather _ _ _ _ _) as [e0|data].
    + intros H. injection H as <-. reflexivity.
    + destruct (transformWeatherData data) as [e0|w0]; [|discriminate].
      intros H. injection H as <-. reflexivity.
Qed.

(** X8: the temperature, the feels-like temperature, the wind speed and
    the visibility of a transformed record are whole numbers.  The first
    three are within half a unit of the raw value they come from; the
    visibility is [Math.round] of the raw metres divided by 1000 as doubles,
    and for a whole number of metres below 2^53 it is within half a unit of
    the metres divided by 1000. *)
Theorem rounded_fields (data : WeatherApiResponse) (r : WeatherData) :
  transformWeatherData data = Ok r ->
  (is_whole (wd_temperature r) /\ near (wd_temperature r) (temp (main data))) /\
  (is_whole (wd_windSpeed r) /\ near (wd_windSpeed r) (speed (wind data))) /\
  (exists f : number,
      wd_feelsLike r = Some f /\ is_whole f /\ near f (feels_like (main data))) /\
  (forall v : number,
      wd_visibility r = Some v ->
      exists metres : number,
        visibility data = Some metres /\ is_whole v /\
        v = Math_round (Double.div metres 1000)) /\
  (forall (v : number) (metres : Z),
      wd_visibility r = Some v ->
      visibility data = Some (inject_Z metres) -> (0 < metres < 2 ^ 53)%Z ->
      near v (inject_Z metres / 1000)).
Proof.
  unfold transformWeatherData. destruct (weather0_description data) as [e|d]; [discriminate|].
  intros H. injection H as <-. cbn.
  split; [split; [apply RequestFacts.rounded_is_whole | apply RequestFacts.rounded_is_near]|].
  split; [split; [apply RequestFacts.rounded_is_whole | apply RequestFacts.rounded_is_near]|].
  split.
  { eexists. split; [reflexivity|].
    split; [apply RequestFacts.rounded_is_whole | apply RequestFacts.rounded_is_near]. }
  split.
  - intros v. destruct (visibility data) as [metres|]; [|discriminate].
    destruct (truthy_number metres); [|discriminate].
    intros H. injection H as <-. exists metres.
    split; [reflexivity|]. split; [apply RequestFacts.rounded_is_whole | reflexivity].
  - intros v metres Hv Hvis Hm. rewrite Hvis in Hv.
    destruct (truthy_number (inject_Z metres)); [|discriminate].
    injection Hv as <-.
    rewrite (DoubleFacts.round_whole_metres metres Hm).
    apply RequestFacts.rounded_is_near.
Qed.

(** X9: capitalising a description of ASCII characters changes letter
    case only and nothing else: the length is kept, the lower-cased text is
    the same, and a description already capitalised is left as it is. *)
Theorem capitalizeDescription_changes_case_only (description : string) :
  is_ascii description = true ->
  length (capitalizeDescription description) = length description /\
  toLowerCase (capitalizeDescription description) = toLowerCase description /\
  capitalizeDescription (capitalizeDescription description)
  = capitalizeDescription description.
Proof.
  intros H. rewrite !(proj1 (ServiceFacts.capitalize_as_scan _)).
  rewrite (RequestFacts.capitalize_scan_ascii true description H).
  assert (is_ascii (capitalize_ascii true description) = true) as H'
      by (rewrite RequestFacts.capitalize_ascii_is_ascii; exact H).
  rewrite (RequestFacts.capitalize_scan_ascii true _ H').
  rewrite (StringFacts.toLowerCase_ascii _ H'), (StringFacts.toLowerCase_ascii _ H).
  split; [apply RequestFacts.capitalize_ascii_length|].
  split; [apply RequestFacts.capitalize_ascii_lower|].
  apply RequestFacts.capitalize_ascii_idempotent.
Qed.

(** X10: a description is capitalised word group by word group: the
    capitalised form of two texts joined by a space is the two capitalised
    forms joined by a space. *)
Theorem capitalizeDescription_by_words (left right : string) :
  capitalizeDescription (left ++ String space right)
  = (capitalizeDescription left ++ String space (capitalizeDescription right))%str.
Proof.
  rewrite !(proj1 (ServiceFacts.capitalize_as_scan _)).
  apply RequestFacts.capitalize_scan_app.
Qed.

End ServiceProperties.

Section ServicePropertyInstances.
#[local] Existing Instance Samples.ascii_tables.

Lemma coordinates_lookup_outcomes_witness :
  fst (getWeatherByCoordinates (service_of tokyo_client) somewhere []) = Ok tokyo_record.
Proof.
  apply (proj2 (proj2 (coordinates_lookup_outcomes (service_of tokyo_client) somewhere []))
               tokyo_record).
  exists tokyo_payload. split; reflexivity.
Defined.

Lemma lookups_throw_errors_witness :
  instanceof_Error (AxiosError "Network Error") = true.
Proof.
  apply (proj1 (lookups_throw_errors (service_of unreachable_client) []
                                     (AxiosError "Network Error")) "tokyo").
  reflexivity.
Defined.

Lemma rounded_fields_witness :
  (is_whole (wd_temperature tokyo_record) /\ near (wd_temperature tokyo_record) (724 # 10)) /\
  (is_whole (wd_windSpeed tokyo_record) /\ near (wd_windSpeed tokyo_record) (52 # 10)) /\
  (exists f : number,
      wd_feelsLike tokyo_record = Some f /\ is_whole f /\ near f (701 # 10)) /\
  (forall v : number,
      wd_visibility tokyo_record = Some v ->
      exists metres : number,
        visibility tokyo_payload = Some metres /\ is_whole v /\
        v = Math_round (Double.div metres 1000)) /\
  (forall (v : number) (metres : Z),
      wd_visibility tokyo_record = Some v ->
      visibility tokyo_payload = Some (inject_Z metres) -> (0 < metres < 2 ^ 53)%Z ->
      near v (inject_Z metres / 1000)).
Proof.
  apply (rounded_fields tokyo_payload tokyo_record). reflexivity.
Defined.

Lemma capitalizeDescription_changes_case_only_witness :
  length (capitalizeDescription "light rain") = length "light rain" /\
  toLowerCase (capitalizeDescription "light rain") = toLowerCase "light rain" /\
  capitalizeDescription (capitalizeDescription "light rain")
  = capitalizeDescription "light rain".
Proof.
  apply (capitalizeDescription_changes_case_only "light rain"). reflexivity.
Defined.

End ServicePropertyInstances.

(** ** More on the session handlers *)

Module StepFacts.
Import WeatherApp1 Sessions.

Section Stepwise.
Context {unicode : Unicode}.
Variable R : App -> App -> Prop.
Variable allowed : (SessionState -> SessionState) -> Prop.
Variable svc : Service.
Variable host : Host.
Variable sessionId : string.

Hypothesis R_refl : forall app, R app app.
Hypothesis R_trans : forall a b c, R a b -> R b c -> R a c.
Hypothesis R_emit : forall e, stepwise R (emit e).
Hypothesis R_now : stepwise R (Date_now host).
Hypothesis R_call : forall (A : Type) (m : M Log A), stepwise R (call_service m).
Hypothesis R_update :
  forall f, allowed f -> stepwise R (update_session sessionId f).
Hypothesis allowed_location : forall coordinates, allowed (record_location coordinates).
Hypothesis allowed_weather : forall w t, allowed (record_weather w t).

Lemma stepwise_ret {A} (a : A) : stepwise R (ret a).
Proof. intros app. apply R_refl. Qed.

Lemma stepwise_throw {A} (e : Thrown) : stepwise R (@throw App A e).
Proof. intros app. apply R_refl. Qed.

Lemma stepwise_lift_result {A} (r : result A) : stepwise R (@lift_result App A r).
Proof. intros app. apply R_refl. Qed.

Lemma stepwise_get_session (sid : string) : stepwise R (get_session sid).
Proof. intros app. apply R_refl. Qed.

Lemma stepwise_bind {A B} (m : M App A) (f : A -> M App B) :
  stepwise R m -> (forall a, stepwise R (f a)) -> stepwise R (bind m f).
Proof.
  intros Hm Hf app. unfold bind. specialize (Hm app).
  destruct (m app) as [[e|a] app1]; cbn [snd] in *; [exact Hm|].
  eapply R_trans; [exact Hm | apply Hf].
Qed.

Lemma stepwise_try_catch {A} (m : M App A) (handler : Thrown -> M App A) :
  stepwise R m -> (forall e, stepwise R (handler e)) -> stepwise R (try_catch m handler).
Proof.
  intros Hm Hh app. unfold try_catch. specialize (Hm app).
  destruct (m app) as [[e|a] app1]; cbn [snd] in *; [|exact Hm].
  eapply R_trans; [exact Hm | apply Hh].
Qed.

Ltac stepwise_step :=
  first [ apply stepwise_bind; [|intros ?]
        | apply stepwise_try_catch; [|intros ?]
        | apply stepwise_ret | apply stepwise_throw | apply stepwise_lift_result
        | apply stepwise_get_session | apply R_emit | apply R_now | apply R_call
        | apply R_update; first [apply allowed_location | apply allowed_weather] ].

Lemma stepwise_getCurrentLocationWeather :
  stepwise R (getCurrentLocationWeather svc host sessionId).
Proof.
  unfold getCurrentLocationWeather.
  stepwise_step; [stepwise_step|].
  destruct (location_update host); repeat stepwise_step.
Qed.

Lemma stepwise_handleWeatherCommand (command : ParsedVoiceCommand) :
  stepwise R (handleWeatherCommand svc host sessionId command).
Proof.
  unfold handleWeatherCommand, displayWeatherData, showError.
  stepwise_step; [stepwise_step|]. stepwise_step; [|stepwise_step].
  stepwise_step.
  - destruct (city_of command); [stepwise_step|].
    apply stepwise_getCurrentLocationWeather.
  - stepwise_step; [stepwise_step|]. stepwise_step; [stepwise_step|].
    match goal with o : option SessionState |- _ => destruct o end; repeat stepwise_step.
Qed.

Lemma stepwise_getCurrentWeather : stepwise R (getCurrentWeather svc host sessionId).
Proof.
  pose proof (stepwise_handleWeatherCommand current_command) as Hfresh.
  unfold getCurrentWeather, displayWeatherData. stepwise_step; [stepwise_step|].
  match goal with o : option SessionState |- _ => destruct o as [st|] end; [|exact Hfresh].
  destruct (lastLocation st); [|exact Hfresh].
  stepwise_step; [stepwise_step|].
  match goal with |- context [Z.ltb ?a ?b] => destruct (Z.ltb a b) end; [|exact Hfresh].
  destruct (lastWeatherData st); [stepwise_step | exact Hfresh].
Qed.

Lemma stepwise_onTranscription (text : string) (isFinal : bool) :
  stepwise R (onTranscription svc host sessionId text isFinal).
Proof.
  unfold onTranscription, showError.
  destruct (negb isFinal); [stepwise_step|].
  stepwise_step; [|stepwise_step]. stepwise_step; [stepwise_step|].
  apply stepwise_handleWeatherCommand.
Qed.

Lemma stepwise_onButtonPress (button : Button) (press : bool) :
  stepwise R (onButtonPress svc host sessionId button press).
Proof.
  unfold onButtonPress, showWelcomeScreen.
  destruct press; [|stepwise_step].
  destruct button; [apply stepwise_getCurrentWeather | stepwise_step | stepwise_step].
Qed.

End Stepwise.

End StepFacts.

Module SessionFacts.
Import WeatherApp1 Sessions SessionSamples.

Section Tables.
Context {unicode : Unicode}.

Lemma others_kept_refl (sid : string) (app : App) : others_kept sid app app.
Proof. intros other _. reflexivity. Qed.

Lemma others_kept_trans (sid : string) (a b c : App) :
  others_kept sid a b -> others_kept sid b c -> others_kept sid a c.
Proof. intros Hab Hbc other Hne. rewrite (Hbc other Hne). apply Hab, Hne. Qed.

Lemma others_kept_update (sid : string) (f : SessionState -> SessionState) :
  stepwise (others_kept sid) (update_session sid f).
Proof.
  intros app other Hne. unfold update_session, modify. cbn.
  apply lookup_alter_ne. congruence.
Qed.

Lemma same_sessions_update (sid : string) (f : SessionState -> SessionState) :
  stepwise same_sessions (update_session sid f).
Proof.
  intros app. unfold same_sessions, update_session, modify. cbn.
  apply dom_alter_L.
Qed.

Lemma locations_kept_refl (app : App) : locations_kept app app.
Proof. intros sid s Hs Hl. exists s. auto. Qed.

Lemma locations_kept_trans (a b c : App) :
  locations_kept a b -> locations_kept b c -> locations_kept a c.
Proof.
  intros Hab Hbc sid s Hs Hl.
  destruct (Hab sid s Hs Hl) as (s' & Hs' & Hl'). exact (Hbc sid s' Hs' Hl').
Qed.

Lemma locations_kept_update (sid : string) (f : SessionState -> SessionState) :
  (forall s, lastLocation s <> None -> lastLocation (f s) <> None) ->
  stepwise locations_kept (update_session sid f).
Proof.
  intros Hf app other s Hs Hl. unfold update_session, modify. cbn.
  rewrite lookup_alter. destruct (decide (sid = other)) as [->|Hne].
  - rewrite Hs. cbn. exists (f s). auto.
  - exists s. auto.
Qed.

(** The primitives that leave the sessions alone keep whatever holds of a
    state and itself. *)
Lemma quiet_primitives (R : App -> App -> Prop) (host : Host) :
  (forall app app', sessionStates app' = sessionStates app -> R app app') ->
  (forall e, stepwise R (emit e)) /\
  stepwise R (Date_now host) /\
  (forall (A : Type) (m : M Log A), stepwise R (call_service m)).
Proof.
  intros HR. repeat split.
  - intros e app. apply HR. reflexivity.
  - intros app. apply HR. reflexivity.
  - intros A m app. apply HR. unfold call_service. destruct (m []). reflexivity.
Qed.

Lemma others_kept_quiet (sid : string) (app app' : App) :
  sessionStates app' = sessionStates app -> others_kept sid app app'.
Proof. intros H other _. rewrite H. reflexivity. Qed.

Lemma same_sessions_quiet (app app' : App) :
  sessionStates app' = sessionStates app -> same_sessions app app'.
Proof. intros H. unfold same_sessions. rewrite H. reflexivity. Qed.

Lemma locations_kept_quiet (app app' : App) :
  sessionStates app' = sessionStates app -> locations_kept app app'.
Proof. intros H sid s Hs Hl. exists s. rewrite H. auto. Qed.

(** One handler call, seen from the sessions: [onTranscription] and
    [onButtonPress] relate the state before and after by each of the three
    relations. *)
Lemma handlers_others_kept (svc : Service) (host : Host) (sid text : string)
      (isFinal : bool) (button : Button) (press : bool) :
  stepwise (others_kept sid) (onTranscription svc host sid text isFinal) /\
  stepwise (others_kept sid) (onButtonPress svc host sid button press).
Proof.
  destruct (quiet_primitives (others_kept sid) host (others_kept_quiet sid))
    as (Hemit & Hnow & Hcall).
  split.
  - apply (StepFacts.stepwise_onTranscription (others_kept sid) (fun _ => True)
             svc host sid (others_kept_refl sid) (others_kept_trans sid) Hemit Hnow Hcall
             (fun f _ => others_kept_update sid f) (fun _ => I) (fun _ _ => I)).
  - apply (StepFacts.stepwise_onButtonPress (others_kept sid) (fun _ => True)
             svc host sid (others_kept_refl sid) (others_kept_trans sid) Hemit Hnow Hcall
             (fun f _ => others_kept_update sid f) (fun _ => I) (fun _ _ => I)).
Qed.

Lemma same_sessions_trans (a b c : App) :
  same_sessions a b -> same_sessions b c -> same_sessions a c.
Proof. unfold same_sessions. congruence. Qed.

Lemma handlers_same_sessions (svc : Service) (host : Host) (sid text : string)
      (isFinal : bool) (button : Button) (press : bool) :
  stepwise same_sessions (onTranscription svc host sid text isFinal) /\
  stepwise same_sessions (onButtonPress svc host sid button press).
Proof.
  destruct (quiet_primitives same_sessions host same_sessions_quiet)
    as (Hemit & Hnow & Hcall).
  split.
  - apply (StepFacts.stepwise_onTranscription same_sessions (fun _ => True)
             svc host sid (fun app => eq_refl) same_sessions_trans Hemit Hnow Hcall
             (fun f _ => same_sessions_update sid f) (fun _ => I) (fun _ _ => I)).
  - apply (StepFacts.stepwise_onButtonPress same_sessions (fun _ => True)
             svc host sid (fun app => eq_refl) same_sessions_trans Hemit Hnow Hcall
             (fun f _ => same_sessions_update sid f) (fun _ => I) (fun _ _ => I)).
Qed.

Lemma handlers_locations_kept (svc : Service) (host : Host) (sid text : string)
      (isFinal : bool) (button : Button) (press : bool) :
  stepwise locations_kept (onTranscription svc host sid text isFinal) /\
  stepwise locations_kept (onButtonPress svc host sid button press).
Proof.
  destruct (quiet_primitives locations_kept host locations_kept_quiet)
    as (Hemit & Hnow & Hcall).
  assert (forall coordinates s,
             lastLocation s <> None ->
             lastLocation (record_location coordinates s) <> None) as Hloc.
  { intros coordinates s _. discriminate. }
  assert (forall w t s,
             lastLocation s <> None -> lastLocation (record_weather w t s) <> None) as Hw.
  { intros w t s H. exact H. }
  split.
  - apply (StepFacts.stepwise_onTranscription locations_kept
             (fun f => forall s, lastLocation s <> None -> lastLocation (f s) <> None)
             svc host sid locations_kept_refl locations_kept_trans Hemit Hnow Hcall
             (locations_kept_update sid) Hloc Hw).
  - apply (StepFacts.stepwise_onButtonPress locations_kept
             (fun f => forall s, lastLocation s <> None -> lastLocation (f s) <> None)
             svc host sid locations_kept_refl locations_kept_trans Hemit Hnow Hcall
             (locations_kept_update sid) Hloc Hw).
Qed.

End Tables.

End SessionFacts.

Import WeatherApp1 Sessions SessionSamples.

Section SessionProperties.
Context {unicode : Unicode}.

(** X11: a transcription or a button press of one session leaves the state
    of every other session as it was, and neither creates nor removes a
    session. *)
Theorem events_stay_in_their_session
        (svc : Service) (host : Host) (sessionId text : string) (isFinal : bool)
        (button : Button) (press : bool) (app : App) :
  others_kept sessionId app (snd (onTranscription svc host sessionId text isFinal app)) /\
  same_sessions app (snd (onTranscription svc host sessionId text isFinal app)) /\
  others_kept sessionId app (snd (onButtonPress svc host sessionId button press app)) /\
  same_sessions app (snd (onButtonPress svc host sessionId button press app)).
Proof.
  destruct (SessionFacts.handlers_others_kept svc host sessionId text isFinal button press)
    as [Ht Hb].
  destruct (SessionFacts.handlers_same_sessions svc host sessionId text isFinal button press)
    as [Ht' Hb'].
  repeat split; [apply Ht | apply Ht' | apply Hb | apply Hb'].
Qed.

(** X12: once a session has a last location, no transcription and no
    button press takes it away: the session is still there afterwards, with
    a last location. *)
Theorem last_location_is_never_cleared
        (svc : Service) (host : Host) (sessionId text : string) (isFinal : bool)
        (button : Button) (press : bool) (app : App) :
  locations_kept app (snd (onTranscription svc host sessionId text isFinal app)) /\
  locations_kept app (snd (onButtonPress svc host sessionId button press app)).
Proof.
  destruct (SessionFacts.handlers_locations_kept svc host sessionId text isFinal button press)
    as [Ht Hb].
  split; [apply Ht | apply Hb].
Qed.

End SessionProperties.

(** ** What a command does *)

Module CommandFacts.
Import JsString Parser WeatherApp1 Sessions SessionSamples.

Section Tables.
Context {unicode : Unicode}.

(** The current-location fetch, by what the host and the remote side do. *)
Lemma location_run (svc : Service) (host : Host) (sid : string) (app : App) :
  getCurrentLocationWeather svc host sid app =
  match location_update host with
  | None =>
      (Throw location_timeout, with_effects app (effects app ++ [SubscribeLocation]))
  | Some locationData =>
      let coordinates := coordinates_of locationData in
      let request :=
        Request (GetWeather (latitude coordinates) (longitude coordinates)
                            (apiKey svc) "imperial") in
      match fst (getWeatherByCoordinates svc coordinates []) with
      | inl e =>
          (Throw e, with_effects app (effects app ++ [SubscribeLocation; request]))
      | inr w =>
          (Ok w,
           {| sessionStates := alter (record_location coordinates) sid (sessionStates app);
              effects := effects app ++ [SubscribeLocation; request];
              clock_reads := clock_reads app |})
      end
  end.
Proof.
  unfold getCurrentLocationWeather, call_service, update_session, emit, modify,
    bind, ret, throw, Ok, Throw, with_effects.
  cbv beta iota. cbn [effects sessionStates clock_reads].
  destruct (location_update host) as [locationData|]; [|reflexivity].
  fold (coordinates_of locationData).
  rewrite RequestFacts.coordinates_run. cbn [fst]. cbv zeta.
  match goal with |- context [match ?r with inl _ => Throw fetch_failed | inr _ => _ end] =>
    destruct r as [e|data] end.
  - unfold Throw. cbn [effects sessionStates clock_reads map List.app].
    rewrite <- app_assoc. reflexivity.
  - destruct (transformWeatherData data) as [e|w]; unfold Throw, Ok;
      cbn [effects sessionStates clock_reads map List.app];
      rewrite <- app_assoc; reflexivity.
Qed.

(** A command, by what its fetch does. *)
Lemma handle_run (svc : Service) (host : Host) (sid : string)
      (command : ParsedVoiceCommand) (app : App) :
  handleWeatherCommand svc host sid command app =
  match fetch_for svc host sid command
          (with_effects app (effects app ++ [DashboardGettingWeather])) with
  | (inl e, app1) =>
      (Ok tt,
       with_effects app1
         (effects app1 ++ [ErrorScreen (if instanceof_Error e then message_of e
                                        else "Failed to get weather data")]))
  | (inr w, app1) =>
      match sessionStates app1 !! sid with
      | Some _ =>
          (Ok tt,
           {| sessionStates :=
                alter (record_weather w (clock host (clock_reads app1))) sid
                      (sessionStates app1);
              effects := effects app1 ++ [DisplayWeather w];
              clock_reads := S (clock_reads app1) |})
      | None => (Ok tt, with_effects app1 (effects app1 ++ [DisplayWeather w]))
      end
  end.
Proof.
  unfold handleWeatherCommand, fetch_for, displayWeatherData, showError, get_session,
    update_session, Date_now, emit, modify, try_catch, bind, ret, Ok, with_effects.
  cbv beta iota. cbn [effects sessionStates clock_reads].
  match goal with |- context [match ?m ?a with _ => _ end] => destruct (m a) as [[e|w] app1] end.
  - reflexivity.
  - cbn [effects sessionStates clock_reads].
    destruct (sessionStates app1 !! sid); reflexivity.
Qed.

(** The fetch of a command with a city: the requests of the service join the
    effects, the sessions stay as they are. *)
Lemma fetch_city_run (svc : Service) (host : Host) (sid city : string)
      (command : ParsedVoiceCommand) (app : App) :
  city_of command = Some city ->
  fetch_for svc host sid command app =
  (fst (getWeatherByCity svc city []),
   with_effects app (effects app ++ map Request (snd (getWeatherByCity svc city [])))).
Proof.
  intros H. unfold fetch_for, call_service, with_effects. rewrite H.
  destruct (getWeatherByCity svc city []). reflexivity.
Qed.

Lemma handle_never_throws (svc : Service) (host : Host) (sid : string)
      (command : ParsedVoiceCommand) :
  never_throws (handleWeatherCommand svc host sid command).
Proof.
  intros app. rewrite handle_run.
  destruct (fetch_for _ _ _ _ _) as [[e|w] app1]; [reflexivity|].
  destruct (sessionStates app1 !! sid); reflexivity.
Qed.

Lemma current_weather_never_throws (svc : Service) (host : Host) (sid : string) :
  never_throws (getCurrentWeather svc host sid).
Proof.
  intros app. unfold getCurrentWeather, get_session, bind, Date_now, displayWeatherData,
    emit, modify, Ok.
  destruct (sessionStates app !! sid) as [s|]; [|apply handle_never_throws].
  destruct (lastLocation s); [|apply handle_never_throws].
  cbv beta iota.
  destruct (_ <? _)%Z; [|apply handle_never_throws].
  destruct (lastWeatherData s); [reflexivity | apply handle_never_throws].
Qed.

(** The fetch of a command adds effects only; where it throws the sessions
    are as before, where it returns the session at most gained a location. *)
Lemma fetch_outcome (svc : Service) (host : Host) (sid : string)
      (command : ParsedVoiceCommand) (app : App) :
  exists added : list Effect,
    effects (snd (fetch_for svc host sid command app)) = effects app ++ added /\
    clock_reads (snd (fetch_for svc host sid command app)) = clock_reads app /\
    match fst (fetch_for svc host sid command app) with
    | inl _ => sessionStates (snd (fetch_for svc host sid command app)) = sessionStates app
    | inr _ =>
        match sessionStates app !! sid with
        | Some s =>
            exists s1 : SessionState,
              sessionStates (snd (fetch_for svc host sid command app)) !! sid = Some s1 /\
              preferredUnits s1 = preferredUnits s /\
              (city_of command = None \/ lastLocation s <> None ->
               lastLocation s1 <> None)
        | None => sessionStates (snd (fetch_for svc host sid command app)) !! sid = None
        end
    end.
Proof.
  unfold fetch_for. destruct (city_of command) as [city|].
  - unfold call_service. destruct (getWeatherByCity svc city []) as [r log].
    cbn [fst snd effects sessionStates clock_reads].
    exists (map Request log). split; [reflexivity|]. split; [reflexivity|].
    destruct r as [e|w]; [reflexivity|].
    destruct (sessionStates app !! sid) as [s|]; [|reflexivity].
    exists s. repeat split. intros [H|H]; [discriminate | exact H].
  - rewrite location_run. destruct (location_update host) as [locationData|]; cbv zeta.
    + destruct (fst (getWeatherByCoordinates svc _ [])) as [e|w];
        cbn [fst snd with_effects effects sessionStates clock_reads].
      * eexists. split; [reflexivity|]. split; reflexivity.
      * eexists. split; [reflexivity|]. split; [reflexivity|].
        rewrite lookup_alter_eq. destruct (sessionStates app !! sid) as [s|]; [|reflexivity].
        cbn. eexists. split; [reflexivity|]. split; [reflexivity|].
        intros _. discriminate.
    + cbn [fst snd with_effects effects sessionStates clock_reads].
      eexists. split; [reflexivity|]. split; reflexivity.
Qed.

(** How a command ends: the record is displayed and stored with the time, or
    an error is shown and the sessions stay as they were. *)
Lemma handle_outcome (svc : Service) (host : Host) (sid : string)
      (command : ParsedVoiceCommand) (app : App) :
  exists shown : list Effect,
    effects (snd (handleWeatherCommand svc host sid command app))
    = effects app ++ DashboardGettingWeather :: shown /\
    ((exists (before : list Effect) (w : WeatherData),
         shown = before ++ [DisplayWeather w] /\
         forall s : SessionState,
           sessionStates app !! sid = Some s ->
           clock_reads (snd (handleWeatherCommand svc host sid command app))
           = S (clock_reads app) /\
           exists s' : SessionState,
             sessionStates (snd (handleWeatherCommand svc host sid command app)) !! sid
             = Some s' /\
             lastWeatherData s' = Some w /\
             lastUpdateTime s' = Some (clock host (clock_reads app)) /\
             preferredUnits s' = preferredUnits s /\
             (city_of command = None \/ lastLocation s <> None ->
              lastLocation s' <> None)) \/
     (exists (before : list Effect) (message : string),
         shown = before ++ [ErrorScreen message] /\
         sessionStates (snd (handleWeatherCommand svc host sid command app))
         = sessionStates app /\
         clock_reads (snd (handleWeatherCommand svc host sid command app))
         = clock_reads app)).
Proof.
  rewrite handle_run.
  destruct (fetch_outcome svc host sid command
              (with_effects app (effects app ++ [DashboardGettingWeather])))
    as (added & Heff & Hclock & Hsessions).
  destruct (fetch_for _ _ _ _ _) as [[e|w] app1];
    cbn [fst snd with_effects effects sessionStates clock_reads] in *.
  - exists (added ++ [ErrorScreen (if instanceof_Error e then message_of e
                                   else "Failed to get weather data")]).
    split; [rewrite Heff, <- !app_assoc; reflexivity|].
    right. eexists _, _. split; [reflexivity|]. auto.
  - exists (added ++ [DisplayWeather w]).
    destruct (sessionStates app !! sid) as [s|] eqn:Hs.
    + destruct Hsessions as (s1 & Hs1 & Hunits & Hloc). rewrite Hs1.
      cbn [snd effects sessionStates clock_reads].
      split; [rewrite Heff, <- !app_assoc; reflexivity|].
      left. exists added, w. split; [reflexivity|].
      intros s0 Hs0. injection Hs0 as <-. split; [congruence|].
      exists (record_weather w (clock host (clock_reads app1)) s1).
      rewrite lookup_alter_eq, Hs1, Hclock. repeat split; assumption.
    + rewrite Hsessions. cbn [snd with_effects effects].
      split; [rewrite Heff, <- !app_assoc; reflexivity|].
      left. exists added, w. split; [reflexivity|]. discriminate.
Qed.

End Tables.

End CommandFacts.

Module EventFacts.
Import JsString Parser WeatherApp1 Sessions SessionSamples.

Section Tables.
Context {unicode : Unicode}.

Lemma transcription_never_throws (svc : Service) (host : Host) (sid text : string)
      (isFinal : bool) :
  never_throws (onTranscription svc host sid text isFinal).
Proof.
  intros app. unfold onTranscription. destruct (negb isFinal); [reflexivity|].
  unfold try_catch, bind, lift_result, showError, emit, modify.
  destruct (WeatherApp1.parseVoiceCommand text) as [e|command]; [reflexivity|].
  pose proof (CommandFacts.handle_never_throws svc host sid command app) as H.
  destruct (handleWeatherCommand svc host sid command app) as [[e|[]] app1];
    [discriminate H | reflexivity].
Qed.

Lemma button_never_throws (svc : Service) (host : Host) (sid : string)
      (button : Button) (press : bool) :
  never_throws (onButtonPress svc host sid button press).
Proof.
  intros app. unfold onButtonPress. destruct press; [|reflexivity].
  destruct button; [apply CommandFacts.current_weather_never_throws | reflexivity ..].
Qed.

(** The city a command is fetched for is one the parser accepted. *)
Lemma city_of_location (command : ParsedVoiceCommand) (city : string) :
  city_of command = Some city -> location command = Some city /\ city <> EmptyString.
Proof.
  unfold city_of. destruct (isLocationSpecific command); [|discriminate].
  destruct (location command) as [l|]; [|discriminate].
  destruct l as [|c l]; cbn [truthy]; [discriminate|].
  intros H. injection H as <-. split; [reflexivity | discriminate].
Qed.

(** No geocoding request is made on the way to the current location. *)
Lemma location_fetch_no_geocoding (svc : Service) (host : Host) (sid : string) (app : App)
      (q : string) (limit : Z) (key : string) :
  In (Request (GeoDirect q limit key))
     (effects (snd (getCurrentLocationWeather svc host sid app))) ->
  In (Request (GeoDirect q limit key)) (effects app).
Proof.
  rewrite CommandFacts.location_run.
  destruct (location_update host) as [locationData|]; cbv zeta.
  - destruct (fst (getWeatherByCoordinates svc _ [])) as [e|w];
      cbn [snd with_effects effects]; intros H;
      apply in_app_or in H as [H|[H|[H|[]]]]; (exact H || discriminate H).
  - cbn [snd with_effects effects]. intros H.
    apply in_app_or in H as [H|[H|[]]]; [exact H | discriminate H].
Qed.

(** The geocoding queries of a command are its city, with limit 1 and the
    key of the service. *)
Lemma handle_geocoding (svc : Service) (host : Host) (sid : string)
      (command : ParsedVoiceCommand) (app : App) (q : string) (limit : Z) (key : string) :
  In (Request (GeoDirect q limit key))
     (effects (snd (handleWeatherCommand svc host sid command app))) ->
  In (Request (GeoDirect q limit key)) (effects app) \/
  (city_of command = Some q /\ limit = 1%Z /\ key = apiKey svc).
Proof.
  rewrite CommandFacts.handle_run. unfold fetch_for.
  destruct (city_of command) as [city|] eqn:Hcity.
  - unfold call_service. rewrite RequestFacts.city_run.
    assert (forall (log : Log) (last : list Effect),
               (log = [] ++ [GeoDirect city 1 (apiKey svc)] \/
                exists first,
                  log = ([] ++ [GeoDirect city 1 (apiKey svc)])
                          ++ [GetWeather (lat first) (lon first) (apiKey svc) "imperial"]) ->
               (forall x, In x last -> x <> Request (GeoDirect q limit key)) ->
               In (Request (GeoDirect q limit key))
                  (((effects app ++ [DashboardGettingWeather]) ++ map Request log) ++ last) ->
               In (Request (GeoDirect q limit key)) (effects app) \/
               (Some city = Some q /\ limit = 1%Z /\ key = apiKey svc)) as Hscan.
    { intros log last Hlog Hlast H.
      apply in_app_or in H as [H|H]; [|exfalso; exact (Hlast _ H eq_refl)].
      apply in_app_or in H as [H|H].
      - apply in_app_or in H as [H|[H|[]]]; [left; exact H | discriminate H].
      - right. destruct Hlog as [->|[first ->]]; cbn in H.
        + destruct H as [H|[]]. injection H as <- <- <-. auto.
        + destruct H as [H|[H|[]]]; [|discriminate H]. injection H as <- <- <-. auto. }
    destruct (geo_direct _ _ _ _) as [e|[|first others]];
      cbn [with_effects effects sessionStates clock_reads snd].
    + apply Hscan; [left; reflexivity|].
      intros x [<-|[]]. discriminate.
    + apply Hscan; [left; reflexivity|].
      intros x [<-|[]]. discriminate.
    + match goal with |- context [match ?r with inl _ => _ | inr _ => _ end] =>
        destruct r as [e|w] end;
        cbn [with_effects effects sessionStates clock_reads snd].
      * apply Hscan; [right; exists first; reflexivity|].
        intros x [<-|[]]. discriminate.
      * destruct (sessionStates app !! sid);
          cbn [with_effects effects sessionStates clock_reads snd];
          (apply Hscan; [right; exists first; reflexivity|]);
          intros x [<-|[]]; discriminate.
  - pose proof (location_fetch_no_geocoding svc host sid
                  (with_effects app (effects app ++ [DashboardGettingWeather]))
                  q limit key) as Hloc.
    destruct (getCurrentLocationWeather svc host sid _) as [[e|w] app1];
      cbn [snd with_effects effects] in *.
    + intros H. apply in_app_or in H as [H|[H|[]]]; [|discriminate H].
      left. apply Hloc in H. apply in_app_or in H as [H|[H|[]]]; [exact H | discriminate H].
    + destruct (sessionStates app1 !! sid); cbn [snd with_effects effects];
        intros H; apply in_app_or in H as [H|[H|[]]]; try discriminate H;
        left; apply Hloc in H; apply in_app_or in H as [H|[H|[]]];
        (exact H || discriminate H).
Qed.

End Tables.

End EventFacts.

Import JsString Parser WeatherApp1 Sessions SessionSamples.

Section HandlerProperties.
Context {unicode : Unicode}.

(** X13: no handler leaves by an exception: a transcription, a button
    press, a command and a current-weather request all return, whatever the
    parser, the remote side or the location stream do. *)
Theorem handlers_never_throw
        (svc : Service) (host : Host) (sessionId text : string) (isFinal : bool)
        (button : Button) (press : bool) (command : ParsedVoiceCommand) (app : App) :
  fst (onTranscription svc host sessionId text isFinal app) = Ok tt /\
  fst (onButtonPress svc host sessionId button press app) = Ok tt /\
  fst (handleWeatherCommand svc host sessionId command app) = Ok tt /\
  fst (getCurrentWeather svc host sessionId app) = Ok tt.
Proof.
  split; [apply EventFacts.transcription_never_throws|].
  split; [apply EventFacts.button_never_throws|].
  split; [apply CommandFacts.handle_never_throws|].
  apply CommandFacts.current_weather_never_throws.
Qed.

(** X14: a command with a city first writes "getting weather" to the
    dashboard, sends the requests of the city lookup and nothing else, never
    turning to the location stream, and then ends in one of two ways.  Either
    the lookup returned a record: it is displayed last, and the session, if
    there is one, now holds that record with the time read from the clock,
    the rest of it as it was.  Or the lookup threw: an error screen is shown
    last, no session has changed and the clock was not read. *)
Theorem command_ends_in_display_or_error
        (svc : Service) (host : Host) (sessionId city : string)
        (command : ParsedVoiceCommand) (app : App) :
  city_of command = Some city ->
  exists last : Effect,
    effects (snd (handleWeatherCommand svc host sessionId command app))
    = effects app ++ DashboardGettingWeather
        :: map Request (snd (getWeatherByCity svc city [])) ++ [last] /\
    ((exists w : WeatherData,
         fst (getWeatherByCity svc city []) = Ok w /\
         last = DisplayWeather w /\
         others_kept sessionId app (snd (handleWeatherCommand svc host sessionId command app)) /\
         forall s : SessionState,
           sessionStates app !! sessionId = Some s ->
           clock_reads (snd (handleWeatherCommand svc host sessionId command app))
           = S (clock_reads app) /\
           sessionStates (snd (handleWeatherCommand svc host sessionId command app))
             !! sessionId
           = Some (record_weather w (clock host (clock_reads app)) s)) \/
     (exists (e : Thrown) (message : string),
         fst (getWeatherByCity svc city []) = Throw e /\
         last = ErrorScreen message /\
         sessionStates (snd (handleWeatherCommand svc host sessionId command app))
         = sessionStates app /\
         clock_reads (snd (handleWeatherCommand svc host sessionId command app))
         = clock_reads app)).
Proof.
  intros Hcity. rewrite CommandFacts.handle_run.
  rewrite (CommandFacts.fetch_city_run svc host sessionId city command _ Hcity).
  destruct (getWeatherByCity svc city []) as [[e|w] log]; cbn [fst snd];
    cbn [with_effects effects sessionStates clock_reads].
  - eexists. split; [rewrite <- !app_assoc; reflexivity|].
    right. eexists e, _. repeat split.
  - destruct (sessionStates app !! sessionId) as [s|] eqn:Hs;
      cbn [snd with_effects effects sessionStates clock_reads].
    + eexists. split; [rewrite <- !app_assoc; reflexivity|].
      left. exists w. split; [reflexivity|]. split; [reflexivity|]. split.
      * intros other Hne. cbn. apply lookup_alter_ne. congruence.
      * intros s0 Hs0. injection Hs0 as <-. split; [reflexivity|].
        cbn. rewrite lookup_alter_eq, Hs. reflexivity.
    + eexists. split; [rewrite <- !app_assoc; reflexivity|].
      left. exists w. split; [reflexivity|]. split; [reflexivity|]. split.
      * intros other Hne. reflexivity.
      * discriminate.
Qed.

(** X15: every geocoding request a transcription causes asks for a city
    that is not empty, trimmed, on one line and not a generic term, with
    limit 1 and the key of the service; when the transcript is made of ASCII
    characters the city is made of ASCII characters and lower-cased. *)
Theorem geocoding_queries_are_normalised
        (svc : Service) (host : Host) (sessionId text : string) (isFinal : bool)
        (app : App) (q : string) (limit : Z) (key : string) :
  In (Request (GeoDirect q limit key))
     (effects (snd (onTranscription svc host sessionId text isFinal app))) ->
  In (Request (GeoDirect q limit key)) (effects app) \/
  (q <> EmptyString /\ trim q = q /\
   has_line_terminator q = false /\ isGenericLocation q = false /\
   limit = 1%Z /\ key = apiKey svc /\
   (is_ascii text = true -> is_ascii q = true /\ toLowerCase q = q)).
Proof.
  unfold onTranscription. destruct (negb isFinal); [cbn; auto|].
  unfold try_catch, bind, lift_result, showError, emit, modify.
  destruct (WeatherApp1.parseVoiceCommand text) as [e|command] eqn:Hparse.
  - cbn [snd effects]. intros H.
    apply in_app_or in H as [H|[H|[]]]; [auto | discriminate H].
  - pose proof (EventFacts.handle_geocoding svc host sessionId command app q limit key)
      as Hgeo.
    pose proof (CommandFacts.handle_never_throws svc host sessionId command app) as Hok.
    destruct (handleWeatherCommand svc host sessionId command app) as [[e|[]] app1];
      [discriminate Hok|].
    cbn [snd] in *. intros H.
    destruct (Hgeo H) as [Hold|(Hcity & -> & ->)]; [auto|].
    right. apply EventFacts.city_of_location in Hcity as [Hloc Hne].
    destruct (CaptureFacts.parse_location text command q (or_introl Hparse) Hloc)
      as (_ & ps & _ & Hps).
    destruct (CaptureFacts.first_location_shape ps _ q Hps) as (Ht & Hn & _).
    pose proof (ParserFacts.first_location_not_generic ps _ q Hps) as Hg.
    split; [exact Hne|]. split; [exact Ht|]. split; [exact Hn|]. split; [exact Hg|].
    split; [reflexivity|]. split; [reflexivity|].
    intros HA. exact (CaptureFacts.first_location_ascii ps text q HA Hps).
Qed.

(** X16: when the location stream stays silent, so that no update is ever
    delivered to the subscription, a command without a city subscribes to
    the stream and, the timer having fired, shows the time-out message; it
    sends no request and changes no session. *)
Theorem location_timeout_shows_error
        (svc : Service) (host : Host) (sessionId : string)
        (command : ParsedVoiceCommand) (app : App) :
  location_update host = None ->
  city_of command = None ->
  handleWeatherCommand svc host sessionId command app =
  (Ok tt,
   with_effects app
     (effects app ++
      [DashboardGettingWeather; SubscribeLocation;
       ErrorScreen "Location request timed out. Please try again or specify a city name."])).
Proof.
  intros Hhost Hcity. rewrite CommandFacts.handle_run. unfold fetch_for.
  rewrite Hcity, CommandFacts.location_run, Hhost.
  unfold with_effects, Throw, location_timeout.
  cbn [effects sessionStates clock_reads instanceof_Error message_of].
  rewrite <- !app_assoc. reflexivity.
Qed.

(** X17: what a command has just displayed is what the select button
    shows for the next five minutes, without any request: this holds for the
    weather at the current location and equally for the weather of a city
    looked up in a session that has a last location. *)
Theorem displayed_record_is_served_again
        (svc : Service) (host : Host) (sessionId : string)
        (command : ParsedVoiceCommand) (app : App)
        (s : SessionState) (before : list Effect) (w : WeatherData) :
  sessionStates app !! sessionId = Some s ->
  city_of command = None \/ lastLocation s <> None ->
  effects (snd (handleWeatherCommand svc host sessionId command app))
    = before ++ [DisplayWeather w] ->
  (clock host (S (clock_reads app)) - clock host (clock_reads app) < 5 * 60 * 1000)%Z ->
  getCurrentWeather svc host sessionId
                    (snd (handleWeatherCommand svc host sessionId command app))
  = (Ok tt, served_from_cache (snd (handleWeatherCommand svc host sessionId command app)) w).
Proof.
  intros Hs Hloc Hshown Hclock.
  destruct (CommandFacts.handle_outcome svc host sessionId command app)
    as (shown & Heff & [(b & w' & -> & Hstate)|(b & message & -> & _)]).
  - rewrite Hshown in Heff.
    change (effects app ++ DashboardGettingWeather :: b ++ [DisplayWeather w'])
      with (effects app ++ (DashboardGettingWeather :: b) ++ [DisplayWeather w']) in Heff.
    rewrite app_assoc in Heff. apply app_inj_tail in Heff as [_ Hw].
    injection Hw as <-.
    destruct (Hstate s Hs) as (Hreads & s' & Hs' & Hweather & Htime & _ & Hkept).
    apply AppFacts.getCurrentWeather_hit.
    destruct (lastLocation s') as [coordinates|] eqn:Hl; [|exfalso; exact (Hkept Hloc eq_refl)].
    exists s', coordinates, (clock host (clock_reads app)).
    rewrite Hreads. auto.
  - rewrite Hshown in Heff.
    change (effects app ++ DashboardGettingWeather :: b ++ [ErrorScreen message])
      with (effects app ++ (DashboardGettingWeather :: b) ++ [ErrorScreen message]) in Heff.
    rewrite app_assoc in Heff. apply app_inj_tail in Heff as [_ Hw]. discriminate Hw.
Qed.

(** X18: a session begins blank, whatever was stored under its id before,
    and the other sessions are not touched; the first press of the select
    button in it therefore goes to the location stream. *)
Theorem new_session_starts_blank
        (svc : Service) (host : Host) (sessionId : string) (app : App) :
  sessionStates (snd (onSession sessionId app)) !! sessionId
    = Some {| lastLocation := None; lastWeatherData := None;
              lastUpdateTime := None; preferredUnits := imperial |} /\
  others_kept sessionId app (snd (onSession sessionId app)) /\
  exists (tail : list Effect) (app' : App),
    onButtonPress svc host sessionId select true (snd (onSession sessionId app))
      = (Ok tt, app') /\
    effects app'
      = effects app ++ WelcomeScreen :: DashboardTitle
          :: DashboardGettingWeather :: SubscribeLocation :: tail.
Proof.
  assert (sessionStates (snd (onSession sessionId app)) !! sessionId
          = Some {| lastLocation := None; lastWeatherData := None;
                    lastUpdateTime := None; preferredUnits := imperial |}) as Hblank.
  { unfold onSession, showWelcomeScreen, emit, modify, bind. cbn.
    apply lookup_insert_eq. }
  assert (effects (snd (onSession sessionId app))
          = effects app ++ [WelcomeScreen; DashboardTitle]) as Hshown.
  { unfold onSession, showWelcomeScreen, emit, modify, bind. cbn.
    rewrite <- app_assoc. reflexivity. }
  split; [exact Hblank|]. split.
  - intros other Hne. unfold onSession, showWelcomeScreen, emit, modify, bind. cbn.
    apply lookup_insert_ne. congruence.
  - unfold onButtonPress, getCurrentWeather, get_session, bind, Ok.
    rewrite Hblank. cbn [lastLocation].
    destruct (AppFacts.handle_current_subscribes svc host sessionId
                (snd (onSession sessionId app))) as (tail & app' & Hrun & Heff).
    exists tail, app'. split; [exact Hrun|].
    rewrite Heff, Hshown, <- app_assoc. reflexivity.
Qed.

(** X19: a stopped session is gone, nothing is shown and the other
    sessions are not touched; a transcription or a button press that still
    arrives for it does not bring its state back. *)
Theorem stopped_session_stays_stopped
        (svc : Service) (host : Host) (sessionId text : string) (isFinal : bool)
        (button : Button) (press : bool) (app : App) :
  sessionStates (snd (onStop sessionId app)) !! sessionId = None /\
  others_kept sessionId app (snd (onStop sessionId app)) /\
  effects (snd (onStop sessionId app)) = effects app /\
  sessionStates (snd (onTranscription svc host sessionId text isFinal
                                      (snd (onStop sessionId app)))) !! sessionId = None /\
  sessionStates (snd (onButtonPress svc host sessionId button press
                                    (snd (onStop sessionId app)))) !! sessionId = None.
Proof.
  assert (sessionStates (snd (onStop sessionId app)) !! sessionId = None) as Hgone.
  { unfold onStop, modify. cbn. apply lookup_delete_eq. }
  destruct (SessionFacts.handlers_same_sessions svc host sessionId text isFinal button press)
    as [Ht Hb].
  split; [exact Hgone|]. split.
  - intros other Hne. unfold onStop, modify. cbn. apply lookup_delete_ne. congruence.
  - split; [reflexivity|].
    split; apply not_elem_of_dom;
      [rewrite (Ht (snd (onStop sessionId app))) | rewrite (Hb (snd (onStop sessionId app)))];
      apply not_elem_of_dom; exact Hgone.
Qed.

End HandlerProperties.

Section HandlerPropertyInstances.
#[local] Existing Instance Samples.ascii_tables.

Lemma command_ends_in_display_or_error_witness :
  exists last : Effect,
    effects (snd (handleWeatherCommand (service_of tokyo_client) steady_host "session-1"
                                       (city_command "tokyo") (app_updated_at 0)))
    = effects (app_updated_at 0) ++ DashboardGettingWeather
        :: map Request (snd (getWeatherByCity (service_of tokyo_client) "tokyo" []))
        ++ [last] /\
    ((exists w : WeatherData,
         fst (getWeatherByCity (service_of tokyo_client) "tokyo" []) = Ok w /\
         last = DisplayWeather w /\
         others_kept "session-1" (app_updated_at 0)
           (snd (handleWeatherCommand (service_of tokyo_client) steady_host "session-1"
                                      (city_command "tokyo") (app_updated_at 0))) /\
         forall s : SessionState,
           sessionStates (app_updated_at 0) !! "session-1" = Some s ->
           clock_reads (snd (handleWeatherCommand (service_of tokyo_client) steady_host
                                                  "session-1" (city_command "tokyo")
                                                  (app_updated_at 0)))
           = S (clock_reads (app_updated_at 0)) /\
           sessionStates (snd (handleWeatherCommand (service_of tokyo_client) steady_host
                                                    "session-1" (city_command "tokyo")
                                                    (app_updated_at 0)))
             !! "session-1"
           = Some (record_weather w (clock steady_host (clock_reads (app_updated_at 0))) s)) \/
     (exists (e : Thrown) (message : string),
         fst (getWeatherByCity (service_of tokyo_client) "tokyo" []) = Throw e /\
         last = ErrorScreen message /\
         sessionStates (snd (handleWeatherCommand (service_of tokyo_client) steady_host
                                                  "session-1" (city_command "tokyo")
                                                  (app_updated_at 0)))
         = sessionStates (app_updated_at 0) /\
         clock_reads (snd (handleWeatherCommand (service_of tokyo_client) steady_host
                                                "session-1" (city_command "tokyo")
                                                (app_updated_at 0)))
         = clock_reads (app_updated_at 0))).
Proof.
  apply (command_ends_in_display_or_error (service_of tokyo_client) steady_host
           "session-1" "tokyo" (city_command "tokyo") (app_updated_at 0)).
  reflexivity.
Defined.

Lemma geocoding_queries_are_normalised_witness :
  In (Request (GeoDirect "tokyo" 1 "key")) (effects (app_updated_at 0)) \/
  ("tokyo" <> EmptyString /\ trim "tokyo" = "tokyo" /\
   has_line_terminator "tokyo" = false /\ isGenericLocation "tokyo" = false /\
   1%Z = 1%Z /\ "key" = apiKey (service_of tokyo_client) /\
   (is_ascii " Weather in TOKYO" = true ->
    is_ascii "tokyo" = true /\ toLowerCase "tokyo" = "tokyo")).
Proof.
  apply (geocoding_queries_are_normalised (service_of tokyo_client) steady_host
           "session-1" " Weather in TOKYO" true (app_updated_at 0) "tokyo" 1 "key").
  vm_compute. right. left. reflexivity.
Defined.

Lemma location_timeout_shows_error_witness :
  handleWeatherCommand (service_of tokyo_client)
    {| location_update := None; clock := fun _ => noon |}
    "session-1" current_command (app_updated_at 0) =
  (Ok tt,
   with_effects (app_updated_at 0)
     (effects (app_updated_at 0) ++
      [DashboardGettingWeather; SubscribeLocation;
       ErrorScreen "Location request timed out. Please try again or specify a city name."])).
Proof.
  apply (location_timeout_shows_error (service_of tokyo_client)
           {| location_update := None; clock := fun _ => noon |}
           "session-1" current_command (app_updated_at 0)); reflexivity.
Defined.

Lemma displayed_record_is_served_again_witness :
  getCurrentWeather (service_of tokyo_client) steady_host "session-1"
    (snd (handleWeatherCommand (service_of tokyo_client) steady_host "session-1"
                               (city_command "tokyo") (app_updated_at 0)))
  = (Ok tt,
     served_from_cache
       (snd (handleWeatherCommand (service_of tokyo_client) steady_host "session-1"
                                  (city_command "tokyo") (app_updated_at 0)))
       tokyo_record).
Proof.
  apply (displayed_record_is_served_again (service_of tokyo_client) steady_host
           "session-1" (city_command "tokyo") (app_updated_at 0)
           (session_updated_at 0)
           [DashboardGettingWeather;
            Request (GeoDirect "tokyo" 1 "key");
            Request (GetWeather (3568 # 100) (13969 # 100) "key" "imperial")]
           tokyo_record).
  - vm_compute. reflexivity.
  - right. discriminate.
  - vm_compute. reflexivity.
  - reflexivity.
Defined.

End HandlerPropertyInstances.

(** ** The variant that requires a city *)

Module CityVariantFacts.
Import JsString Parser WeatherApp1 Sessions.

Section Tables.
Context {unicode : Unicode}.

(** A command of the city variant, by what the city lookup does. *)
Lemma handle2_run (svc : Service) (clock : nat -> Z) (sid : string)
      (command : ParsedVoiceCommand) (app : WeatherApp2Handlers.App) :
  WeatherApp2Handlers.handleWeatherCommand svc clock sid command app =
  let shown es :=
    {| WeatherApp2Handlers.sessionStates := WeatherApp2Handlers.sessionStates app;
       WeatherApp2Handlers.effects := WeatherApp2Handlers.effects app ++ es;
       WeatherApp2Handlers.clock_reads := WeatherApp2Handlers.clock_reads app |} in
  match city_of command with
  | None =>
      (Ok tt, shown [DashboardGettingWeather; ErrorScreen "Please specify a city name"])
  | Some city =>
      let requests := map Request (snd (getWeatherByCity svc city [])) in
      match fst (getWeatherByCity svc city []) with
      | inl e =>
          (Ok tt,
           shown (DashboardGettingWeather :: requests
                    ++ [ErrorScreen (if instanceof_Error e then message_of e
                                     else "Failed to get weather data")]))
      | inr w =>
          match WeatherApp2Handlers.sessionStates app !! sid with
          | Some _ =>
              (Ok tt,
               {| WeatherApp2Handlers.sessionStates :=
                    alter (fun st =>
                             {| WeatherApp2Handlers.lastWeatherData := Some w;
                                WeatherApp2Handlers.lastUpdateTime :=
                                  Some (clock (WeatherApp2Handlers.clock_reads app));
                                WeatherApp2Handlers.preferredUnits :=
                                  WeatherApp2Handlers.preferredUnits st |})
                          sid (WeatherApp2Handlers.sessionStates app);
                  WeatherApp2Handlers.effects :=
                    WeatherApp2Handlers.effects app
                      ++ DashboardGettingWeather :: requests ++ [DisplayWeather w];
                  WeatherApp2Handlers.clock_reads :=
                    S (WeatherApp2Handlers.clock_reads app) |})
          | None =>
              (Ok tt, shown (DashboardGettingWeather :: requests ++ [DisplayWeather w]))
          end
      end
  end.
Proof.
  unfold WeatherApp2Handlers.handleWeatherCommand, WeatherApp2Handlers.displayWeatherData,
    WeatherApp2Handlers.showError, WeatherApp2Handlers.get_session,
    WeatherApp2Handlers.update_session, WeatherApp2Handlers.Date_now,
    WeatherApp2Handlers.call_service, WeatherApp2Handlers.emit,
    WeatherApp2Handlers.city_required, modify, try_catch, bind, ret, throw, Ok, Throw.
  cbv beta iota zeta.
  cbn [WeatherApp2Handlers.effects WeatherApp2Handlers.sessionStates
       WeatherApp2Handlers.clock_reads].
  destruct (city_of command) as [city|].
  - destruct (getWeatherByCity svc city []) as [[e|w] log]; cbn [fst snd];
      cbn [WeatherApp2Handlers.effects WeatherApp2Handlers.sessionStates
           WeatherApp2Handlers.clock_reads].
    + rewrite <- !app_assoc. reflexivity.
    + destruct (WeatherApp2Handlers.sessionStates app !! sid);
        rewrite <- !app_assoc; reflexivity.
  - cbn [instanceof_Error message_of WeatherApp2Handlers.effects
         WeatherApp2Handlers.sessionStates WeatherApp2Handlers.clock_reads].
    rewrite <- !app_assoc. reflexivity.
Qed.

(** The same for the other variant, when the command has a city. *)
Lemma handle1_city_effects (svc : Service) (host : Host) (sid city : string)
      (command : ParsedVoiceCommand) (app : App) :
  city_of command = Some city ->
  effects (snd (handleWeatherCommand svc host sid command app)) =
  effects app ++ DashboardGettingWeather
    :: map Request (snd (getWeatherByCity svc city []))
    ++ [match fst (getWeatherByCity svc city []) with
        | inl e => ErrorScreen (if instanceof_Error e then message_of e
                                else "Failed to get weather data")
        | inr w => DisplayWeather w
        end].
Proof.
  intros Hcity. rewrite CommandFacts.handle_run.
  rewrite (CommandFacts.fetch_city_run svc host sid city command _ Hcity).
  destruct (getWeatherByCity svc city []) as [[e|w] log]; cbn [fst snd];
    cbn [with_effects effects sessionStates clock_reads].
  - rewrite <- !app_assoc. reflexivity.
  - destruct (sessionStates app !! sid); cbn [snd with_effects effects];
      rewrite <- !app_assoc; reflexivity.
Qed.

End Tables.

End CityVariantFacts.

Import JsString Parser WeatherApp1 Sessions.

Section VariantProperties.
Context {unicode : Unicode}.

(** X20: on a command with a city the two variants show and request the
    same, in the same order; on a command without one the variant that
    requires a city only shows "Please specify a city name", where the other
    variant turns to the location stream. *)
Theorem variants_differ_without_a_city_only
        (svc : Service) (host : Host) (sessionId : string)
        (command : ParsedVoiceCommand) (app1 : App) (app2 : WeatherApp2Handlers.App) :
  (forall city : string,
      city_of command = Some city ->
      exists added : list Effect,
        effects (snd (handleWeatherCommand svc host sessionId command app1))
        = effects app1 ++ added /\
        WeatherApp2Handlers.effects
          (snd (WeatherApp2Handlers.handleWeatherCommand svc (clock host) sessionId
                                                         command app2))
        = WeatherApp2Handlers.effects app2 ++ added) /\
  (city_of command = None ->
   WeatherApp2Handlers.handleWeatherCommand svc (clock host) sessionId command app2
   = (Ok tt,
      {| WeatherApp2Handlers.sessionStates := WeatherApp2Handlers.sessionStates app2;
         WeatherApp2Handlers.effects :=
           WeatherApp2Handlers.effects app2
             ++ [DashboardGettingWeather; ErrorScreen "Please specify a city name"];
         WeatherApp2Handlers.clock_reads := WeatherApp2Handlers.clock_reads app2 |}) /\
   exists tail : list Effect,
     effects (snd (handleWeatherCommand svc host sessionId command app1))
     = effects app1 ++ DashboardGettingWeather :: SubscribeLocation :: tail).
Proof.
  split.
  - intros city Hcity. eexists. split.
    + apply (CityVariantFacts.handle1_city_effects svc host sessionId city command app1 Hcity).
    + rewrite CityVariantFacts.handle2_run, Hcity. cbv zeta.
      destruct (getWeatherByCity svc city []) as [[e|w] log]; cbn [fst snd].
      * reflexivity.
      * destruct (WeatherApp2Handlers.sessionStates app2 !! sessionId); reflexivity.
  - intros Hcity. split.
    + rewrite CityVariantFacts.handle2_run, Hcity. reflexivity.
    + rewrite CommandFacts.handle_run. unfold fetch_for. rewrite Hcity.
      rewrite CommandFacts.location_run.
      destruct (location_update host) as [locationData|]; cbv zeta.
      * destruct (fst (getWeatherByCoordinates svc _ [])) as [e|w]; unfold Throw, Ok;
          cbn [with_effects effects sessionStates clock_reads snd].
        -- eexists. rewrite <- !app_assoc. reflexivity.
        -- destruct (_ !! sessionId); cbn [with_effects effects snd];
             eexists; rewrite <- !app_assoc; reflexivity.
      * unfold Throw. cbn [with_effects effects snd].
        eexists. rewrite <- !app_assoc. reflexivity.
Qed.

(** X21: the variant that requires a city never turns to the location
    stream and never throws, whatever is said; its buttons show at most the
    welcome screen and change no session. *)
Theorem city_variant_never_locates
        (svc : Service) (clock : nat -> Z) (sessionId text : string) (isFinal : bool)
        (button : Button) (press : bool) (app : WeatherApp2Handlers.App) :
  fst (WeatherApp2Handlers.onTranscription svc clock sessionId text isFinal app) = Ok tt /\
  (In SubscribeLocation
      (WeatherApp2Handlers.effects
         (snd (WeatherApp2Handlers.onTranscription svc clock sessionId text isFinal app))) ->
   In SubscribeLocation (WeatherApp2Handlers.effects app)) /\
  WeatherApp2Handlers.sessionStates
    (snd (WeatherApp2Handlers.onButtonPress sessionId button press app))
  = WeatherApp2Handlers.sessionStates app /\
  (WeatherApp2Handlers.effects
     (snd (WeatherApp2Handlers.onButtonPress sessionId button press app))
   = WeatherApp2Handlers.effects app \/
   WeatherApp2Handlers.effects
     (snd (WeatherApp2Handlers.onButtonPress sessionId button press app))
   = WeatherApp2Handlers.effects app ++ [WelcomeScreen]).
Proof.
  assert (forall (log : Log) (last : Effect) (es : list Effect),
             last <> SubscribeLocation ->
             In SubscribeLocation (es ++ DashboardGettingWeather :: map Request log ++ [last]) ->
             In SubscribeLocation es) as Hscan.
  { intros log last es Hlast H. apply in_app_or in H as [H|[H|H]];
      [exact H | discriminate H |].
    apply in_app_or in H as [H|[H|[]]]; [|congruence].
    apply in_map_iff in H as (r & Hr & _). discriminate Hr. }
  unfold WeatherApp2Handlers.onTranscription, WeatherApp2Handlers.onButtonPress.
  split; [|split; [|split]].
  - destruct (negb isFinal); [reflexivity|].
    unfold try_catch, bind, lift_result, WeatherApp2Handlers.showError,
      WeatherApp2Handlers.emit, modify.
    destruct (WeatherApp2.parseVoiceCommand text) as [e|command]; [reflexivity|].
    rewrite CityVariantFacts.handle2_run. cbv zeta.
    destruct (city_of command) as [city|]; [|reflexivity].
    destruct (fst (getWeatherByCity svc city [])); [reflexivity|].
    destruct (_ !! sessionId); reflexivity.
  - destruct (negb isFinal); [cbn; auto|].
    unfold try_catch, bind, lift_result, WeatherApp2Handlers.showError,
      WeatherApp2Handlers.emit, modify.
    destruct (WeatherApp2.parseVoiceCommand text) as [e|command].
    + cbn. intros H. apply in_app_or in H as [H|[H|[]]]; [exact H | discriminate H].
    + rewrite CityVariantFacts.handle2_run. cbv zeta.
      destruct (city_of command) as [city|].
      * destruct (fst (getWeatherByCity svc city [])) as [e|w].
        -- cbn [snd WeatherApp2Handlers.effects]. apply Hscan. discriminate.
        -- destruct (_ !! sessionId); cbn [snd WeatherApp2Handlers.effects];
             apply Hscan; discriminate.
      * cbn [snd WeatherApp2Handlers.effects]. intros H.
        apply in_app_or in H as [H|[H|[H|[]]]]; [exact H | discriminate H ..].
  - destruct press; [|reflexivity]. destruct button; reflexivity.
  - destruct press; [|left; reflexivity].
    destruct button; [left|right|left]; reflexivity.
Qed.

End VariantProperties.

Import MoreSamples.

Section VariantPropertyInstances.
#[local] Existing Instance Samples.ascii_tables.

Lemma variants_differ_without_a_city_only_witness :
  (exists added : list Effect,
      effects (snd (handleWeatherCommand (service_of tokyo_client) steady_host "session-1"
                                         (city_command "tokyo") (app_updated_at 0)))
      = effects (app_updated_at 0) ++ added /\
      WeatherApp2Handlers.effects
        (snd (WeatherApp2Handlers.handleWeatherCommand
                (service_of tokyo_client) (clock steady_host) "session-1"
                (city_command "tokyo") no_sessions2))
      = WeatherApp2Handlers.effects no_sessions2 ++ added) /\
  (WeatherApp2Handlers.handleWeatherCommand
     (service_of tokyo_client) (clock steady_host) "session-1" current_command no_sessions2
   = (Ok tt,
      {| WeatherApp2Handlers.sessionStates := WeatherApp2Handlers.sessionStates no_sessions2;
         WeatherApp2Handlers.effects :=
           WeatherApp2Handlers.effects no_sessions2
             ++ [DashboardGettingWeather; ErrorScreen "Please specify a city name"];
         WeatherApp2Handlers.clock_reads :=
           WeatherApp2Handlers.clock_reads no_sessions2 |}) /\
   exists tail : list Effect,
     effects (snd (handleWeatherCommand (service_of tokyo_client) steady_host "session-1"
                                        current_command (app_updated_at 0)))
     = effects (app_updated_at 0) ++ DashboardGettingWeather :: SubscribeLocation :: tail).
Proof.
  split.
  - apply (proj1 (variants_differ_without_a_city_only
                    (service_of tokyo_client) steady_host "session-1"
                    (city_command "tokyo") (app_updated_at 0) no_sessions2) "tokyo").
    reflexivity.
  - apply (proj2 (variants_differ_without_a_city_only
                    (service_of tokyo_client) steady_host "session-1"
                    current_command (app_updated_at 0) no_sessions2)).
    reflexivity.
Defined.

End VariantPropertyInstances.

(** ** Start-up *)

Module StartFacts.
Import JsString Index.

Lemma env_truthy_spec (env : gmap string string) (varName : string) :
  env_truthy env varName = false <->
  env !! varName = None \/ env !! varName = Some EmptyString.
Proof.
  unfold env_truthy. destruct (env !! varName) as [[|c v]|]; cbn [truthy].
  - split; auto.
  - split; [discriminate|]. intros [H|H]; discriminate.
  - split; auto.
Qed.

Lemma missing_spec (env : gmap string string) (varName : string) :
  In varName (missingEnvVars env) <->
  In varName requiredEnvVars /\
  (env !! varName = None \/ env !! varName = Some EmptyString).
Proof.
  unfold missingEnvVars. rewrite filter_In, negb_true_iff, env_truthy_spec. reflexivity.
Qed.

Lemma env_value_nonempty (env : gmap string string) (varName : string) :
  In varName requiredEnvVars -> missingEnvVars env = [] ->
  env !! varName = Some (env_value env varName) /\ env_value env varName <> EmptyString.
Proof.
  intros Hin Hnone.
  assert (~ In varName (missingEnvVars env)) as Hnot by (rewrite Hnone; intros []).
  rewrite missing_spec in Hnot. unfold env_value.
  destruct (env !! varName) as [[|c v]|]; [exfalso; auto | | exfalso; auto].
  split; [reflexivity | discriminate].
Qed.

End StartFacts.

Import Index.

(** X22: the program starts the app only with the three required
    variables set and not empty, and passes them on as they are, with the
    port text "3000" when PORT is unset or empty; otherwise it names exactly
    the required variables that are unset or empty, in the order of the
    list, exits with code 1 and never starts the app. *)
Theorem startup_checks_configuration
        (env : gmap string string) (start : Config -> result unit) :
  (forall varName : string,
      In varName (missingEnvVars env) <->
      In varName requiredEnvVars /\
      (env !! varName = None \/ env !! varName = Some EmptyString)) /\
  (missingEnvVars env <> [] ->
   main env start
   = (MissingHeader :: map MissingVariable (missingEnvVars env) ++ [CheckEnvFile], Exit 1)) /\
  (forall config : Config,
      snd (main env start) = Running config ->
      start config = Ok tt /\
      env !! "MENTRAOS_PACKAGE_NAME" = Some (packageName config) /\
      env !! "MENTRAOS_API_KEY" = Some (cfg_apiKey config) /\
      env !! "OPENWEATHER_API_KEY" = Some (weatherApiKey config) /\
      packageName config <> EmptyString /\
      cfg_apiKey config <> EmptyString /\
      weatherApiKey config <> EmptyString /\
      (port config = "3000" \/
       env !! "PORT" = Some (port config) /\ port config <> EmptyString)).
Proof.
  split; [apply StartFacts.missing_spec|]. split.
  - unfold main. destruct (missingEnvVars env); [congruence | reflexivity].
  - intros config. unfold main.
    destruct (missingEnvVars env) as [|v missing] eqn:Hmissing; [|discriminate].
    cbv zeta. destruct (start _) as [e|[]] eqn:Hstart; [discriminate|].
    cbn [snd]. intros H. injection H as <-. cbn [packageName cfg_apiKey weatherApiKey port].
    destruct (StartFacts.env_value_nonempty env "MENTRAOS_PACKAGE_NAME") as [Hp Hp'];
      [cbn; auto | exact Hmissing |].
    destruct (StartFacts.env_value_nonempty env "MENTRAOS_API_KEY") as [Ha Ha'];
      [cbn; auto | exact Hmissing |].
    destruct (StartFacts.env_value_nonempty env "OPENWEATHER_API_KEY") as [Hw Hw'];
      [cbn; auto | exact Hmissing |].
    split; [exact Hstart|]. repeat (split; [assumption|]).
    unfold port_text, env_truthy, env_value.
    destruct (env !! "PORT") as [[|c v]|]; cbn [JsString.truthy]; [left | right | left];
      [reflexivity | split; [reflexivity | discriminate] | reflexivity].
Qed.

Import MoreSamples.

Lemma startup_checks_configuration_witness :
  main poor_env (fun _ => Ok tt)
  = (MissingHeader
       :: map MissingVariable (missingEnvVars poor_env) ++ [CheckEnvFile], Exit 1) /\
  (In "OPENWEATHER_API_KEY" requiredEnvVars /\
   (poor_env !! "OPENWEATHER_API_KEY" = None \/
    poor_env !! "OPENWEATHER_API_KEY" = Some EmptyString)).
Proof.
  split.
  - apply (proj1 (proj2 (startup_checks_configuration poor_env (fun _ => Ok tt)))).
    vm_compute. discriminate.
  - apply (proj1 (startup_checks_configuration poor_env (fun _ => Ok tt))
                 "OPENWEATHER_API_KEY").
    vm_compute. right. left. reflexivity.
Defined.

(** ** Cities of one-line transcripts *)

Module SolidFacts.
Import JsString RegExp Parser Chars Shapes StringFacts NormalFacts.

Section Tables.
Context {unicode : Unicode}.

Lemma trimEnd_ends_solid (s : string) :
  trimEnd s <> EmptyString -> ends_solid (trimEnd s) = true.
Proof.
  induction s as [|c s IH]; [intros H; exfalso; apply H; reflexivity|].
  cbn [trimEnd]. destruct (trimEnd s) as [|d r].
  - destruct (is_whitespace c) eqn:E; [congruence|]. intros _. cbn. rewrite E. reflexivity.
  - intros _. change (ends_solid (String c (String d r))) with (ends_solid (String d r)).
    apply IH. discriminate.
Qed.

Lemma trimStart_begins_solid (s : string) :
  trimStart s <> EmptyString -> begins_solid (trimStart s) = true.
Proof.
  induction s as [|c s IH]; [intros H; exfalso; apply H; reflexivity|].
  cbn [trimStart]. destruct (is_whitespace c) eqn:E; [exact IH|].
  intros _. cbn. rewrite E. reflexivity.
Qed.

(** Trimmed text, when there is any, is solid at both ends. *)
Lemma trim_solid (s : string) :
  trim s <> EmptyString -> begins_solid (trim s) = true /\ ends_solid (trim s) = true.
Proof.
  intros H. split.
  - unfold trim in *. rewrite <- trimStart_trimEnd in *. apply trimStart_begins_solid, H.
  - apply trimEnd_ends_solid, H.
Qed.

Lemma ends_solid_tail (a : code_unit) (s : string) :
  s <> EmptyString -> ends_solid (String a s) = ends_solid s.
Proof. destruct s; [congruence | reflexivity]. Qed.

Lemma ends_solid_trimStart (s : string) :
  ends_solid s = true -> ends_solid (trimStart s) = true.
Proof.
  induction s as [|c s IH]; [discriminate|].
  cbn [trimStart]. destruct (is_whitespace c) eqn:E; [|auto].
  destruct s as [|d s]; [cbn; rewrite E; discriminate|].
  intros H. apply IH. exact H.
Qed.

Lemma ends_solid_trimEnd (s : string) :
  ends_solid s = true -> trimEnd s <> EmptyString.
Proof.
  induction s as [|c s IH]; [discriminate|].
  destruct s as [|d s].
  - cbn. destruct (is_whitespace c); [discriminate|]. intros _. discriminate.
  - intros H. change (ends_solid (String d s) = true) in H. specialize (IH H).
    cbn [trimEnd] in *. destruct (trimEnd s) as [|e r].
    + destruct (is_whitespace d); [congruence | discriminate].
    + discriminate.
Qed.

Lemma ends_solid_trim (s : string) : ends_solid s = true -> trim s <> EmptyString.
Proof. intros H. unfold trim. apply ends_solid_trimEnd, ends_solid_trimStart, H. Qed.

Lemma begins_solid_trim (s : string) : begins_solid s = true -> trim s <> EmptyString.
Proof.
  destruct s as [|c s]; [discriminate|]. cbn [begins_solid]. intros H.
  unfold trim. cbn [trimStart]. apply negb_true_iff in H. rewrite H.
  cbn [trimEnd]. destruct (trimEnd s); [rewrite H|]; discriminate.
Qed.

(** Patterns that end with the group: the capture runs to the end. *)
Lemma match_here_empty (q : regex) :
  group_free q = true -> match_here (q ++ [Group]) EmptyString = None.
Proof.
  induction q as [|[c|c|] q IH]; cbn [group_free List.app match_here];
    [reflexivity | reflexivity | exact IH | discriminate].
Qed.

Lemma match_here_to_the_end (q : regex) (s X : string) :
  group_free q = true -> has_line_terminator s = false -> ends_solid s = true ->
  match_here (q ++ [Group]) s = Some (Some X) -> ends_solid X = true.
Proof.
  intros Hq. revert s. induction q as [|[c|c|] q IH]; intros s Hs He;
    cbn [group_free List.app] in *.
  - change (match_here [Group] s)
      with (match dot_plus (match_here []) s with
            | Some (cap, _) => Some (Some cap)
            | None => None
            end).
    rewrite (RegExpFacts.dot_plus_greedy (match_here []) None s) by reflexivity.
    rewrite (RegExpFacts.line_of_no_terminator s Hs).
    destruct s; [discriminate|]. intros H. injection H as <-. exact He.
  - cbn [match_here]. destruct s as [|a s]; [discriminate|].
    destruct (eqb_ci c a); [|discriminate].
    destruct s as [|b s]; [rewrite (match_here_empty q Hq); discriminate|].
    cbn [has_line_terminator] in Hs. apply orb_false_iff in Hs as [_ Hs].
    apply (IH Hq); [exact Hs | exact He].
  - assert (forall s', s' = s -> match_here (q ++ [Group]) s' = Some (Some X) ->
                       ends_solid X = true) as Hskip.
    { intros s' ->. apply (IH Hq); assumption. }
    cbn [match_here]. destruct s as [|a s]; [apply (Hskip _ eq_refl)|].
    destruct (eqb_ci c a); [|apply (Hskip _ eq_refl)].
    destruct (match_here (q ++ [Group]) s) as [r|] eqn:E; [|apply (Hskip _ eq_refl)].
    intros H. injection H as ->.
    destruct s as [|b s]; [rewrite (match_here_empty q Hq) in E; discriminate|].
    cbn [has_line_terminator] in Hs. apply orb_false_iff in Hs as [_ Hs].
    apply (IH Hq (String b s)); [exact Hs | exact He | exact E].
  - discriminate.
Qed.

Lemma exec_to_the_end (q : regex) (s X : string) :
  group_free q = true -> has_line_terminator s = false ->
  (s <> EmptyString -> ends_solid s = true) ->
  exec (q ++ [Group]) s = Some (Some X) -> ends_solid X = true.
Proof.
  intros Hq. induction s as [|a s IH]; intros Hs He; cbn [exec].
  - rewrite (match_here_empty q Hq). discriminate.
  - destruct (match_here (q ++ [Group]) (String a s)) as [r|] eqn:E.
    + intros H. injection H as ->.
      apply (match_here_to_the_end q (String a s) X Hq Hs); [|exact E].
      apply He. discriminate.
    + cbn [has_line_terminator] in Hs. apply orb_false_iff in Hs as [_ Hs].
      apply IH; [exact Hs|]. intros Hne.
      rewrite <- (ends_solid_tail a s Hne). apply He. discriminate.
Qed.

(** Patterns that begin with the group: on one line the match starts at the
    start of the text. *)
Lemma group_first_shift (p : regex) (a : code_unit) (s : string) :
  is_line_terminator a = false ->
  match_here (Group :: p) s <> None -> match_here (Group :: p) (String a s) <> None.
Proof.
  intros Ha. cbn [match_here dot_plus]. rewrite Ha.
  destruct (dot_plus (match_here p) s) as [[cap r]|]; [discriminate | congruence].
Qed.

Lemma group_first_at_start (p : regex) (s : string) :
  has_line_terminator s = false ->
  exec (Group :: p) s <> None -> match_here (Group :: p) s <> None.
Proof.
  induction s as [|a s IH]; intros Hs; cbn [exec].
  - destruct (match_here (Group :: p) EmptyString); congruence.
  - cbn [has_line_terminator] in Hs. apply orb_false_iff in Hs as [Ha Hs].
    destruct (match_here (Group :: p) (String a s)) eqn:E; [discriminate|].
    intros H. exfalso. apply (group_first_shift p a s Ha); [|exact E].
    apply IH; assumption.
Qed.

Lemma exec_from_the_start (p : regex) (s X : string) :
  has_line_terminator s = false -> begins_solid s = true ->
  exec (Group :: p) s = Some (Some X) -> begins_solid X = true.
Proof.
  intros Hs Hb Hexec.
  assert (match_here (Group :: p) s = Some (Some X)) as Hm.
  { pose proof (group_first_at_start p s Hs) as H.
    destruct s as [|a s]; cbn [exec] in Hexec;
      destruct (match_here (Group :: p) _) eqn:E; try exact Hexec;
      exfalso; apply H; try reflexivity; cbn [exec]; rewrite E; congruence. }
  destruct s as [|a s]; [discriminate|].
  cbn [match_here dot_plus] in Hm.
  destruct (is_line_terminator a); [discriminate|].
  destruct (dot_plus (match_here p) s) as [[cap r]|].
  - injection Hm as <-. exact Hb.
  - destruct (match_here p s); [|discriminate]. injection Hm as <-. exact Hb.
Qed.

(** Every location pattern ends with the group, or begins with it. *)
Lemma location_patterns_shape (p : regex) :
  In p WeatherApp2.locationPatterns ->
  (exists q, p = q ++ [Group] /\ group_free q = true) \/ (exists p', p = Group :: p').
Proof.
  intros [<-|[<-|[<-|[<-|[<-|[<-|[]]]]]]].
  - left. exists (lit "weather in "). split; reflexivity.
  - right. exists (lit " weather"). reflexivity.
  - left. exists (whats_the_weather ++ lit " in "). split; reflexivity.
  - left. exists (hows_the_weather ++ lit " in "). split; reflexivity.
  - left. exists (lit "weather for "). split; reflexivity.
  - left. exists (lit "tell me the weather in "). split; reflexivity.
Qed.

Lemma one_line_city_nonempty (ps : list regex) (text l : string) :
  (forall p, In p ps -> In p WeatherApp2.locationPatterns) ->
  has_line_terminator (toLowerCase text) = false ->
  first_location ps (trim (toLowerCase text)) = Some l -> l <> EmptyString.
Proof.
  intros Hps Htext H.
  destruct (CaptureFacts.first_location_capture _ _ _ H) as (p & m1 & Hin & Hex & ->).
  assert (has_line_terminator (trim (toLowerCase text)) = false) as Hline.
  { apply no_terminator_trim. exact Htext. }
  destruct (location_patterns_shape p (Hps p Hin)) as [(q & -> & Hq)|(p' & ->)].
  - apply ends_solid_trim.
    apply (exec_to_the_end q _ m1 Hq Hline); [|exact Hex].
    intros Hne. apply trim_solid, Hne.
  - apply begins_solid_trim.
    apply (exec_from_the_start p' _ m1 Hline); [|exact Hex].
    destruct (trim (toLowerCase text)) eqn:E.
    + cbn in Hex. discriminate.
    + rewrite <- E. apply trim_solid. rewrite E. discriminate.
Qed.

(** Lower-casing ASCII text brings no line terminator in. *)
Lemma one_line_lower (text : string) :
  is_ascii text = true -> has_line_terminator text = false ->
  has_line_terminator (toLowerCase text) = false.
Proof.
  intros HA H. rewrite (toLowerCase_ascii text HA), has_line_terminator_ascii_lower.
  exact H.
Qed.

End Tables.

End SolidFacts.

Import JsString Parser WeatherApp1.

Section OneLineProperty.
Context {unicode : Unicode}.

(** X23: for a transcript whose lower-cased form has no line terminator
    (for a transcript of ASCII characters: one that has none itself) the
    city of a returned command is never empty, so the handlers look that
    city up: a command with a city is never taken for a current-location
    command. *)
Theorem one_line_city_is_not_empty
        (text : string) (cmd : ParsedVoiceCommand) (c : string) :
  has_line_terminator (toLowerCase text) = false \/
  (is_ascii text = true /\ has_line_terminator text = false) ->
  WeatherApp1.parseVoiceCommand text = Ok cmd \/
  WeatherApp2.parseVoiceCommand text = Ok cmd ->
  location cmd = Some c ->
  c <> EmptyString /\ city_of cmd = Some c.
Proof.
  intros Htext Hparse Hc.
  assert (has_line_terminator (toLowerCase text) = false) as Hline.
  { destruct Htext as [H|[HA H]]; [exact H | exact (SolidFacts.one_line_lower text HA H)]. }
  destruct (CaptureFacts.parse_location text cmd c Hparse Hc) as (-> & ps & Hps & Hfirst).
  pose proof (SolidFacts.one_line_city_nonempty ps text c Hps Hline Hfirst) as Hne.
  split; [exact Hne|].
  unfold city_of, city_command. cbn. destruct c; [congruence | reflexivity].
Qed.

(** With a line terminator in it a transcript can give the empty city:
    the group of "weather in (.+)" stops at the end of the line, here after
    one space, and the space is trimmed away.  (Lower-casing leaves this
    text as it is: its letters are lower-case already.) *)
Lemma two_line_city_can_be_empty (text : string) :
  text = ("x" ++ String 8232%N "weather in  " ++ String 8232%N "y")%str ->
  toLowerCase text = text ->
  WeatherApp1.parseVoiceCommand text = Ok (city_command "") /\
  city_of (city_command "") = None.
Proof.
  intros Htext Hlower. unfold WeatherApp1.parseVoiceCommand.
  rewrite Hlower, Htext. split; reflexivity.
Qed.

End OneLineProperty.

Section OneLineInstances.
#[local] Existing Instance Samples.ascii_tables.

Lemma one_line_city_is_not_empty_witness :
  "oslo" <> EmptyString /\ city_of (city_command "oslo") = Some "oslo".
Proof.
  apply (one_line_city_is_not_empty "Oslo weather" (city_command "oslo") "oslo").
  - right. split; reflexivity.
  - left. reflexivity.
  - reflexivity.
Defined.

End OneLineInstances.

(** ** What the sessions always satisfy *)

Import WeatherApp1 Sessions SessionSamples.

Section TimestampProperty.
Context {unicode : Unicode}.

(** X24: in every state the app reaches, a session that holds a weather
    record also holds the time of its update: this is so when there is no
    session, and starting a session, stopping one, a transcription and a
    button press each keep it so. *)
Theorem sessions_stay_timestamped
        (svc : Service) (host : Host) (sessionId text : string) (isFinal : bool)
        (button : Button) (press : bool) :
  timestamped no_sessions /\
  keeps (onSession sessionId) /\
  keeps (onStop sessionId) /\
  keeps (onTranscription svc host sessionId text isFinal) /\
  keeps (onButtonPress svc host sessionId button press).
Proof.
  destruct (AppFacts.handlers_keep_timestamps svc host sessionId)
    as (Hempty & Hstart & Hstop & Htext & Hbutton).
  repeat split; auto.
Qed.

End TimestampProperty.
